(** * kv-cache: the sharded LRU cache engine

    A shallow embedding of the sharded cache of the repository (the file
    with [ShardedCache], [Shard] and [CacheEntry]): the partitioner
    [getShard], [Put], [Get], [evictOne] and [EvictBatch], with the
    properties of the cache's specification stated and proved over it.

    Conventions of the embedding:
    - Go's [int] and [int64] are 64-bit two's complement integers, written
      as [Z] with the wrap-around of every operation spelled out;
    - a Go [string] is a sequence of bytes ([string] of Rocq); [len] counts
      bytes and [range] decodes UTF-8 runes;
    - [*list.Element] is an address; each shard carries the elements its
      recency list has allocated ([nodes]), so that the index
      ([items : map[string]*list.Element]) and the list share one entry
      per element, as the pointers of the source do;
    - [time.Now()] is an argument of the operations that read the clock;
    - the locks are left out of the sequential operations and modelled
      apart, as the events a call performs. *)

From Stdlib Require Import ZArith Lia.
From stdpp Require Import base numbers strings list gmap vector fin finite.

Local Open Scope Z_scope.

(** ** Configuration *)

Definition NumShards : nat := 32.
Definition MaxKeySize : Z := 256.
Definition MaxValueSize : Z := 256.
Definition EvictionBatchSize : Z := 100.

(** ** Machine integers *)

(** [int] and [int64]: the value of a mathematical result after it is
    stored in 64 bits. *)
Definition wrap64 (z : Z) : Z := (z + 2 ^ 63) mod 2 ^ 64 - 2 ^ 63.

Definition int_add (a b : Z) : Z := wrap64 (a + b).
Definition int_sub (a b : Z) : Z := wrap64 (a - b).
Definition int_mul (a b : Z) : Z := wrap64 (a * b).
Definition int_neg (a : Z) : Z := wrap64 (- a).

(** Go's [/] and [%] truncate toward zero. *)
Definition int_div (a b : Z) : Z := wrap64 (Z.quot a b).
Definition int_rem (a b : Z) : Z := Z.rem a b.

Definition in_int64 (z : Z) : Prop := - 2 ^ 63 <= z < 2 ^ 63.

(** ** Strings: bytes and runes *)

Definition len (s : string) : Z := Z.of_nat (String.length s).

Fixpoint bytes (s : string) : list Z :=
  match s with
  | EmptyString => []
  | String a s' => Z.of_N (Ascii.N_of_ascii a) :: bytes s'
  end.

Definition RuneError : Z := 0xFFFD.

(** The second byte a leading byte accepts, with the length of the
    encoding: the [first] and [acceptRanges] tables of [unicode/utf8]. *)
Definition utf8_lead (s0 : Z) : option (Z * Z * Z) :=
  if (0xC2 <=? s0) && (s0 <=? 0xDF) then Some (2, 0x80, 0xBF)
  else if s0 =? 0xE0 then Some (3, 0xA0, 0xBF)
  else if s0 =? 0xED then Some (3, 0x80, 0x9F)
  else if (0xE1 <=? s0) && (s0 <=? 0xEF) then Some (3, 0x80, 0xBF)
  else if s0 =? 0xF0 then Some (4, 0x90, 0xBF)
  else if (0xF1 <=? s0) && (s0 <=? 0xF3) then Some (4, 0x80, 0xBF)
  else if s0 =? 0xF4 then Some (4, 0x80, 0x8F)
  else None.

Definition between (lo hi b : Z) : bool := (lo <=? b) && (b <=? hi).

Definition rune2 (s0 s1 : Z) : Z :=
  Z.lor (Z.shiftl (Z.land s0 0x1F) 6) (Z.land s1 0x3F).
Definition rune3 (s0 s1 s2 : Z) : Z :=
  Z.lor (Z.lor (Z.shiftl (Z.land s0 0x0F) 12) (Z.shiftl (Z.land s1 0x3F) 6))
        (Z.land s2 0x3F).
Definition rune4 (s0 s1 s2 s3 : Z) : Z :=
  Z.lor (Z.lor (Z.lor (Z.shiftl (Z.land s0 0x07) 18)
                      (Z.shiftl (Z.land s1 0x3F) 12))
               (Z.shiftl (Z.land s2 0x3F) 6))
        (Z.land s3 0x3F).

(** [for _, char := range key]: the runes of a byte sequence. An invalid
    or truncated encoding yields [RuneError] and consumes one byte. *)
Fixpoint decode_runes (s : list Z) : list Z :=
  match s with
  | [] => []
  | s0 :: t =>
    if s0 <? 0x80 then s0 :: decode_runes t
    else
      match utf8_lead s0 with
      | None => RuneError :: decode_runes t
      | Some (sz, lo, hi) =>
        match t with
        | [] => RuneError :: decode_runes t
        | s1 :: t1 =>
          if negb (between lo hi s1) then RuneError :: decode_runes t
          else if sz <=? 2 then rune2 s0 s1 :: decode_runes t1
          else
            match t1 with
            | [] => RuneError :: decode_runes t
            | s2 :: t2 =>
              if negb (between 0x80 0xBF s2) then RuneError :: decode_runes t
              else if sz <=? 3 then rune3 s0 s1 s2 :: decode_runes t2
              else
                match t2 with
                | [] => RuneError :: decode_runes t
                | s3 :: t3 =>
                  if negb (between 0x80 0xBF s3)
                  then RuneError :: decode_runes t
                  else rune4 s0 s1 s2 s3 :: decode_runes t3
                end
            end
        end
      end
  end.

Definition runes (key : string) : list Z := decode_runes (bytes key).

(** ** The partitioner *)

(** The loop of [getShard]: [hash = 31*hash + int(char)] over the runes. *)
Definition hashStep (hash char : Z) : Z := int_add (int_mul 31 hash) char.

Definition keyHash (key : string) : Z := foldl hashStep 0 (runes key).

(** [if hash < 0 { hash = -hash }; hash % NumShards]: the index of the
    shard [getShard] returns. *)
Definition shardIndex (key : string) : Z :=
  let hash := keyHash key in
  let hash := if hash <? 0 then int_neg hash else hash in
  int_rem hash (Z.of_nat NumShards).

(** The position in the array [shards [NumShards]*Shard] for an index:
    indices below [NumShards] are kept (all that [shardIndex] yields, see
    [shardIndex_range]); the array has no other position. *)
Fixpoint fin_clamp (m n : nat) : fin (S m) :=
  match m with
  | O => Fin.F1
  | S m' => match n with O => Fin.F1 | S n' => Fin.FS (fin_clamp m' n') end
  end.

Definition shardSlot (key : string) : fin NumShards :=
  fin_clamp 31 (Z.to_nat (shardIndex key)).

(** ** Data model *)

(** [*list.Element]: the address of a node of a recency list. *)
Abbreviation addr := nat (only parsing).

(** [CacheEntry]: [value], [timestamp] and [size] (here [entrySize]). *)
Record CacheEntry := mkEntry {
  value : string;
  timestamp : Z;
  entrySize : Z
}.

(** A pointer of the source always refers to an allocated element. The
    lookup [nodes shard !!! a] has the zero entry as its default for an
    address without one, which no shard the operations build contains
    (see [wf_index] and [wf_alloc]). *)
Global Instance CacheEntry_inhabited : Inhabited CacheEntry :=
  populate (mkEntry "" 0 0).

Global Instance CacheEntry_eq_dec : EqDecision CacheEntry.
Proof. solve_decision. Defined.

(** [Shard]: the index [items], the recency list [evictList] (front
    first) and the byte counter [size] (here [shardSize]). [nodes] holds
    the entry behind every element the list has allocated; an element
    stays there after it is removed from the list, as a Go object stays
    alive while a pointer to it does. *)
Record Shard := mkShard {
  items : gmap string addr;
  evictList : list addr;
  nodes : gmap addr CacheEntry;
  shardSize : Z
}.

Global Instance Shard_inhabited : Inhabited Shard :=
  populate (mkShard ∅ [] ∅ 0).

(** [ShardedCache]: the fixed array of shards and [totalSize]. *)
Record ShardedCache := mkCache {
  shards : vec Shard NumShards;
  totalSize : Z
}.

(** ** container/list *)

(** The recency list, front first, as the addresses of its elements. An
    element is a node of one list and occurs in it once; [Remove] takes
    it out. *)
Definition list_Len (l : list addr) : Z := Z.of_nat (length l).
Definition list_Back (l : list addr) : option addr := list.last l.
Definition list_PushFront (e : addr) (l : list addr) : list addr := e :: l.
Definition list_Remove (e : addr) (l : list addr) : list addr :=
  filter (λ x, x ≠ e) l.
(** [MoveToFront] does nothing for an element that is not in the list. *)
Definition list_MoveToFront (e : addr) (l : list addr) : list addr :=
  if decide (e ∈ l) then e :: list_Remove e l else l.

(** A new element: an address no element of the shard has. *)
Definition newElement (shard : Shard) : addr := fresh (dom (nodes shard)).

(** ** NewShardedCache *)

Definition emptyShard : Shard := mkShard ∅ [] ∅ 0.

Definition NewShardedCache : ShardedCache :=
  mkCache (vreplicate NumShards emptyShard) 0.

(** ** getShard *)

Definition getShard (c : ShardedCache) (key : string) : Shard :=
  shards c !!! shardSlot key.

(** ** Put *)

Definition ValidationError : string := "key or value exceeds maximum size".

Definition Put (c : ShardedCache) (key val : string) (now : Z)
  : option string * ShardedCache :=
  if (MaxKeySize <? len key) || (MaxValueSize <? len val)
  then (Some ValidationError, c)
  else
    let size := int_add (int_add (len key) (len val)) 64 in
    let shard := getShard c key in
    match items shard !! key with
    | Some element =>
      let entry := nodes shard !!! element in
      let oldSize := entrySize entry in
      let entry' := mkEntry val now size in
      let sizeChange := int_sub size oldSize in
      let shard' :=
        mkShard (items shard)
                (list_MoveToFront element (evictList shard))
                (<[element := entry']> (nodes shard))
                (int_add (shardSize shard) sizeChange) in
      (None, mkCache (vinsert (shardSlot key) shard' (shards c))
                     (int_add (totalSize c) sizeChange))
    | None =>
      let entry := mkEntry val now size in
      let element := newElement shard in
      let shard' :=
        mkShard (<[key := element]> (items shard))
                (list_PushFront element (evictList shard))
                (<[element := entry]> (nodes shard))
                (int_add (shardSize shard) size) in
      (None, mkCache (vinsert (shardSlot key) shard' (shards c))
                     (int_add (totalSize c) size))
    end.

(** ** Get *)

(** The part of [Get] that runs under the read lock: the index lookup. *)
Definition Get_lookup (c : ShardedCache) (key : string) : option addr :=
  items (getShard c key) !! key.

(** The part of [Get] that runs under the write lock, for the element
    the lookup found: the timestamp, [MoveToFront] and the read of
    [entry.value]. *)
Definition Get_promote (c : ShardedCache) (key : string) (element : addr)
    (now : Z) : string * ShardedCache :=
  let shard := getShard c key in
  let entry := nodes shard !!! element in
  let entry' := mkEntry (value entry) now (entrySize entry) in
  let shard' :=
    mkShard (items shard)
            (list_MoveToFront element (evictList shard))
            (<[element := entry']> (nodes shard))
            (shardSize shard) in
  (value entry', mkCache (vinsert (shardSlot key) shard' (shards c))
                         (totalSize c)).

(** [Get] run alone: the two parts back to back. *)
Definition Get (c : ShardedCache) (key : string) (now : Z)
  : (string * bool) * ShardedCache :=
  match Get_lookup c key with
  | Some element =>
    let '(v, c') := Get_promote c key element now in ((v, true), c')
  | None => (("", false), c)
  end.

(** ** evictOne *)

(** [for key, el := range shard.items { if el == element { ...; break } }]
    over the index in the order [order]: the key found, if any, and the
    number of index entries visited. *)
Fixpoint scanIndex (order : list (string * addr)) (element : addr)
  : option string * nat :=
  match order with
  | [] => (None, O)
  | (key, el) :: rest =>
    if decide (el = element) then (Some key, 1%nat)
    else let '(r, n) := scanIndex rest element in (r, S n)
  end.

(** [evictOne] for a given iteration order of the index. *)
Definition evictOne_in (order : list (string * addr)) (shard : Shard)
  : Z * Shard :=
  if list_Len (evictList shard) =? 0 then (0, shard)
  else
    match list_Back (evictList shard) with
    | None => (0, shard)
    | Some element =>
      let entry := nodes shard !!! element in
      let evictList' := list_Remove element (evictList shard) in
      let items' :=
        match fst (scanIndex order element) with
        | Some key => delete key (items shard)
        | None => items shard
        end in
      let freedSize := entrySize entry in
      (freedSize,
       mkShard items' evictList' (nodes shard)
               (int_sub (shardSize shard) freedSize))
    end.

(** Go leaves the iteration order of a map unspecified; the model
    iterates in the order of [map_to_list], and [evictOne_in_spec] shows
    that on a shard the operations have built no order gives another
    result. *)
Definition evictOne (shard : Shard) : Z * Shard :=
  evictOne_in (map_to_list (items shard)) shard.

(** ** EvictBatch *)

(** [for j := 0; j < perShard && shard.evictList.Len() > 0; j++
       { shardFreed += shard.evictOne() }],
    with [n] the iterations left and [shardFreed] the sum so far. *)
Fixpoint evictLoop (n : nat) (shard : Shard) (shardFreed : Z) : Z * Shard :=
  match n with
  | O => (shardFreed, shard)
  | S n' =>
    if 0 <? list_Len (evictList shard) then
      let '(freed, shard') := evictOne shard in
      evictLoop n' shard' (int_add shardFreed freed)
    else (shardFreed, shard)
  end.

Definition perShardQuota (count : Z) : Z :=
  let perShard := int_div count (Z.of_nat NumShards) in
  if perShard <? 1 then 1 else perShard.

(** The body of [for i := 0; i < NumShards; i++]. *)
Definition evictShard (perShard : Z) (st : Z * ShardedCache)
    (i : fin NumShards) : Z * ShardedCache :=
  let '(totalFreed, c) := st in
  let shard := shards c !!! i in
  let '(shardFreed, shard') := evictLoop (Z.to_nat perShard) shard 0 in
  (int_add totalFreed shardFreed,
   mkCache (vinsert i shard' (shards c))
           (int_sub (totalSize c) shardFreed)).

Definition EvictBatch (c : ShardedCache) (count : Z) : Z * ShardedCache :=
  foldl (evictShard (perShardQuota count)) (0, c) (fin_enum NumShards).

(** One call [c.shards[i].evictOne()] made on its own. [evictOne] is a
    method of the shard: it changes the shard and returns the bytes
    freed; [totalSize] stays as it is. *)
Definition evictOneCall (c : ShardedCache) (i : fin NumShards)
  : Z * ShardedCache :=
  let '(freed, shard') := evictOne (shards c !!! i) in
  (freed, mkCache (vinsert i shard' (shards c)) (totalSize c)).

(** Not a function of the source, but one turn of the inner loop of
    [EvictBatch] taken with the statement [c.totalSize -= shardFreed]
    that follows the loop: the call [c.shards[i].evictOne()] and the
    subtraction of the bytes it returned from [totalSize]. *)
Definition evictOneAt (c : ShardedCache) (i : fin NumShards)
  : Z * ShardedCache :=
  let '(freed, shard') := evictOne (shards c !!! i) in
  (freed,
   mkCache (vinsert i shard' (shards c)) (int_sub (totalSize c) freed)).

(** ** The locks of Get and Put *)

(** The calls on [shard.lock] and the accesses to the shard, in the
    order [Get] and [Put] make them. *)
Inductive LockOp := RLock | RUnlock | Lock | Unlock.

Inductive Event :=
| EvLock (op : LockOp)
| EvLookup
| EvSetEntry
| EvMoveToFront
| EvPushFront
| EvReadValue.

(** [Get]: [RLock] and the deferred [RUnlock] around the lookup; on a
    hit, [RUnlock] and [Lock] before the timestamp and [MoveToFront],
    [Unlock] and [RLock] after the read of the value. *)
Definition Get_events (found : bool) : list Event :=
  [EvLock RLock; EvLookup]
  ++ (if found
      then [EvLock RUnlock; EvLock Lock; EvSetEntry; EvMoveToFront;
            EvReadValue; EvLock Unlock; EvLock RLock]
      else [])
  ++ [EvLock RUnlock].

(** [Put]: [Lock] and the deferred [Unlock] around everything. *)
Definition Put_events (found : bool) : list Event :=
  [EvLock Lock; EvLookup]
  ++ (if found then [EvSetEntry; EvMoveToFront] else [EvPushFront])
  ++ [EvLock Unlock].

(** ** Sequences of calls *)

Inductive Op :=
| OpPut (key val : string) (now : Z)
| OpGet (key : string) (now : Z)
| OpEvictOne (i : fin NumShards)
| OpEvictBatch (count : Z).

Definition step (c : ShardedCache) (op : Op) : ShardedCache :=
  match op with
  | OpPut key val now => snd (Put c key val now)
  | OpGet key now => snd (Get c key now)
  | OpEvictOne i => snd (evictOneAt c i)
  | OpEvictBatch count => snd (EvictBatch c count)
  end.

Definition run (ops : list Op) : ShardedCache := foldl step NewShardedCache ops.

(** In [step] and [run], [OpEvictOne i] is the eviction of one entry of
    shard [i] as [EvictBatch] performs it, [totalSize] updated
    ([evictOneAt]). In [call] and [calls] it is the method [evictOne]
    called on shard [i] and nothing more ([evictOneCall]); the other
    calls are the same. *)
Definition call (c : ShardedCache) (op : Op) : ShardedCache :=
  match op with
  | OpPut key val now => snd (Put c key val now)
  | OpGet key now => snd (Get c key now)
  | OpEvictOne i => snd (evictOneCall c i)
  | OpEvictBatch count => snd (EvictBatch c count)
  end.

Definition calls (ops : list Op) : ShardedCache :=
  foldl call NewShardedCache ops.

(** * Vocabulary of the properties *)

(** ** Requests within the limits, keys stored *)

Definition valid (key val : string) : Prop :=
  len key <= MaxKeySize ∧ len val <= MaxValueSize.

(** A key is stored when some shard's index has it. *)
Definition stored (c : ShardedCache) (key : string) : Prop :=
  ∃ i : fin NumShards, is_Some (items (shards c !!! i) !! key).

(** ** Sums *)

Definition sumOf {A} (f : A → Z) (l : list A) : Z :=
  foldr (λ x acc, f x + acc) 0 l.

(** ** Well-formed shards *)

(** The index and the recency list of a shard are in bijection: the
    list has no element twice, the index maps keys to elements of the
    list, every element of the list is some key's, no two keys share an
    element, and every element of the list has been allocated. *)
Record shard_wf (s : Shard) : Prop := mk_shard_wf {
  wf_nodup : NoDup (evictList s);
  wf_index : ∀ key a, items s !! key = Some a → a ∈ evictList s;
  wf_listed : ∀ a, a ∈ evictList s → ∃ key, items s !! key = Some a;
  wf_inj : ∀ k1 k2 a, items s !! k1 = Some a → items s !! k2 = Some a → k1 = k2;
  wf_alloc : ∀ a, a ∈ evictList s → is_Some (nodes s !! a)
}.

(** The stored size of the entry of an element, and the sum over the
    entries a shard holds. *)
Definition sizeAt (s : Shard) (a : addr) : Z := entrySize (nodes s !!! a).
Definition shardBytes (s : Shard) : Z := sumOf (sizeAt s) (evictList s).

Definition evicted (s : Shard) (l' : list addr) (e : addr) (k : string)
  : Shard :=
  mkShard (delete k (items s)) l' (nodes s)
          (int_sub (shardSize s) (sizeAt s e)).

(** ** Put and Get on one shard *)

(** No entry is larger than the two length limits and the overhead. *)
Definition MaxEntrySize : Z := 576.

(** What [Put] does to the shard of the key, and the [sizeChange] it adds
    to the two counters. *)
Definition putShard (key val : string) (now : Z) (shard : Shard) : Shard :=
  let size := len key + len val + 64 in
  match items shard !! key with
  | Some element =>
    mkShard (items shard)
            (list_MoveToFront element (evictList shard))
            (<[element := mkEntry val now size]> (nodes shard))
            (int_add (shardSize shard) (int_sub size (sizeAt shard element)))
  | None =>
    mkShard (<[key := newElement shard]> (items shard))
            (list_PushFront (newElement shard) (evictList shard))
            (<[newElement shard := mkEntry val now size]> (nodes shard))
            (int_add (shardSize shard) size)
  end.

Definition putDelta (key val : string) (shard : Shard) : Z :=
  let size := len key + len val + 64 in
  match items shard !! key with
  | Some element => int_sub size (sizeAt shard element)
  | None => size
  end.

(** What [Get] does to the shard of the key. *)
Definition touchShard (key : string) (now : Z) (shard : Shard) : Shard :=
  match items shard !! key with
  | Some element =>
    let entry := nodes shard !!! element in
    mkShard (items shard)
            (list_MoveToFront element (evictList shard))
            (<[element := mkEntry (value entry) now (entrySize entry)]>
               (nodes shard))
            (shardSize shard)
  | None => shard
  end.

(** ** Accounted shards and caches *)

(** A shard is accounted for when it is well formed, its entries have
    sizes between 0 and [MaxEntrySize], and its counter is the sum of
    their sizes, as an [int64]. *)
Record shard_ok (s : Shard) : Prop := mk_shard_ok {
  ok_wf : shard_wf s;
  ok_sizes : ∀ a, a ∈ evictList s → 0 <= sizeAt s a <= MaxEntrySize;
  ok_account : shardSize s = wrap64 (shardBytes s)
}.

(** [k] calls of [evictOne] in a row, the freed bytes added to
    [shardFreed]. *)
Fixpoint evictTimes (k : nat) (shard : Shard) (shardFreed : Z) : Z * Shard :=
  match k with
  | O => (shardFreed, shard)
  | S k' =>
    let '(freed, shard') := evictOne shard in
    evictTimes k' shard' (int_add shardFreed freed)
  end.

(** The sum of the shards' [size] fields, the sum of the sizes of all
    the entries the cache holds, and the number of those entries. *)
Definition shardSizes (c : ShardedCache) : Z :=
  sumOf shardSize (vec_to_list (shards c)).
Definition cacheBytes (c : ShardedCache) : Z :=
  sumOf shardBytes (vec_to_list (shards c)).
Definition entryCount (s : Shard) : Z := Z.of_nat (length (evictList s)).
Definition liveEntries (c : ShardedCache) : Z :=
  sumOf entryCount (vec_to_list (shards c)).

Record cache_ok (c : ShardedCache) : Prop := mk_cache_ok {
  ok_shards : ∀ i : fin NumShards, shard_ok (shards c !!! i);
  ok_total : totalSize c = wrap64 (cacheBytes c)
}.

(** The bytes a call of [evictOne] made on its own returns, and their
    sum over a sequence of calls from the cache [c] on: bytes that have
    left a shard's [size] and that nothing has subtracted from
    [totalSize]. *)
Definition returned (c : ShardedCache) (op : Op) : Z :=
  match op with
  | OpEvictOne i => fst (evictOneCall c i)
  | _ => 0
  end.

Fixpoint unaccountedFrom (c : ShardedCache) (ops : list Op) : Z :=
  match ops with
  | [] => 0
  | op :: rest => returned c op + unaccountedFrom (call c op) rest
  end.

Definition unaccounted (ops : list Op) : Z :=
  unaccountedFrom NewShardedCache ops.

(** The cache [c] with [d] more bytes in [totalSize]. *)
Definition shiftTotal (d : Z) (c : ShardedCache) : ShardedCache :=
  mkCache (shards c) (int_add (totalSize c) d).

(** ** Quotas of EvictBatch *)

(** The number of entries [EvictBatch] removes from a shard for a quota
    of [perShard]. *)
Definition evictions (perShard : Z) (s : Shard) : nat :=
  Z.to_nat perShard `min` length (evictList s).

(** The bytes of the [k] least recently used entries of a shard. *)
Definition lruBytes (k : nat) (s : Shard) : Z :=
  sumOf (sizeAt s) (drop (length (evictList s) - k) (evictList s)).

(** ** Sample call sequences *)

Definition demo_ops : list Op :=
  [OpPut "a" "x" 1; OpPut "A" "yy" 2; OpPut "!" "zzz" 3;
   OpPut "example" "data" 4; OpPut "a" "longer" 5; OpGet "A" 6;
   OpEvictBatch 1; OpPut "k" "v" 7; OpEvictOne (shardSlot "a")].

Definition put_then_evictOne : list Op :=
  [OpPut "a" "x" 1; OpEvictOne (shardSlot "a")].

(** ** Overwriting, and the scan of evictOne *)

(** The size [Put] finds stored for a key: the size of its entry, or
    nothing when the shard does not hold the key. *)
Definition storedSize (s : Shard) (k : string) : Z :=
  match items s !! k with
  | Some e => sizeAt s e
  | None => 0
  end.

(** An iteration order of the index in which the key of element [e]
    comes last. *)
Definition worstOrder (m : gmap string addr) (key : string) (e : addr)
  : list (string * addr) :=
  filter (λ p, p ≠ (key, e)) (map_to_list m) ++ [(key, e)].

Definition three_keys : list Op :=
  [OpPut "a" "x" 1; OpPut "A" "y" 2; OpPut "!" "z" 3].

(** The entry of a key would store the key if the key could be read
    back from the entry [Put] creates for it. *)
Definition entry_stores_key : Prop :=
  ∃ keyOf : CacheEntry → string,
    ∀ key val now element,
      let shard := getShard (snd (Put NewShardedCache key val now)) key in
      items shard !! key = Some element →
      keyOf (nodes shard !!! element) = key.

(** ** Critical sections *)

Inductive Mode := Free | Shared | Exclusive.

Definition lock_step (op : LockOp) : Mode :=
  match op with
  | RLock => Shared
  | Lock => Exclusive
  | RUnlock | Unlock => Free
  end.

Definition acquires (op : LockOp) : bool :=
  match op with RLock | Lock => true | RUnlock | Unlock => false end.

(** How the lock is held after each call on it. *)
Fixpoint lockModes (evs : list Event) : list Mode :=
  match evs with
  | [] => []
  | EvLock op :: rest => lock_step op :: lockModes rest
  | _ :: rest => lockModes rest
  end.

(** Each access with the mode the lock is held in and the number of the
    acquisition it falls under. *)
Fixpoint sections (m : Mode) (n : nat) (evs : list Event)
  : list (Event * Mode * nat) :=
  match evs with
  | [] => []
  | EvLock op :: rest =>
    sections (lock_step op) (if acquires op then S n else n) rest
  | ev :: rest => (ev, m, n) :: sections m n rest
  end.

Definition is_lookup (x : Event * Mode * nat) : bool :=
  match x with (EvLookup, _, _) => true | _ => false end.
Definition is_move (x : Event * Mode * nat) : bool :=
  match x with (EvMoveToFront, _, _) => true | _ => false end.

(** The lookup and the [MoveToFront] of a call fall under one
    acquisition of the lock, an exclusive one. *)
Definition one_exclusive_section (evs : list Event) : bool :=
  let tagged := sections Free 0 evs in
  match List.find is_lookup tagged, List.find is_move tagged with
  | Some (_, Exclusive, n1), Some (_, Exclusive, n2) => Nat.eqb n1 n2
  | _, _ => false
  end.

(** Two goroutines on the shard of "a", which holds "a" (least recently
    used) and "A": one calls [Get("a")], the other [EvictBatch(1)]. *)
Definition race_cache : ShardedCache :=
  snd (Put (snd (Put NewShardedCache "a" "x" 1)) "A" "y" 2).

(** [EvictBatch] runs between the two lock phases of [Get]. *)
Definition race_interleaved : (string * bool) * ShardedCache :=
  match Get_lookup race_cache "a" with
  | Some element =>
    let c1 := snd (EvictBatch race_cache 1) in
    let '(v, c2) := Get_promote c1 "a" element 3 in
    ((v, true), c2)
  | None => (("", false), snd (EvictBatch race_cache 1))
  end.

Definition race_Get_first : (string * bool) * ShardedCache :=
  let '(r, c1) := Get race_cache "a" 3 in (r, snd (EvictBatch c1 1)).

Definition race_Evict_first : (string * bool) * ShardedCache :=
  Get (snd (EvictBatch race_cache 1)) "a" 3.

Definition keysOf (c : ShardedCache) (key : string) : list string :=
  (map_to_list (items (getShard c key))).*1.

(** ** Keys and values of a given length *)

Fixpoint chars (n : nat) : string :=
  match n with
  | O => EmptyString
  | S n' => String (Ascii.ascii_of_nat 107) (chars n')
  end.

(** * Properties *)

(** ** Machine integers *)

Lemma wrap64_range z : in_int64 (wrap64 z).
Proof.
  unfold in_int64, wrap64.
  pose proof (Z.mod_pos_bound (z + 2 ^ 63) (2 ^ 64)). lia.
Qed.

Lemma wrap64_id z : in_int64 z → wrap64 z = z.
Proof.
  unfold in_int64, wrap64. intros Hz.
  rewrite Z.mod_small by lia. lia.
Qed.

Lemma wrap64_min : wrap64 (2 ^ 63) = - 2 ^ 63.
Proof. reflexivity. Qed.

(** ** The partitioner *)

Lemma foldl_hashStep_range l acc :
  in_int64 acc → in_int64 (foldl hashStep acc l).
Proof.
  revert acc. induction l as [|r l IH]; intros acc Hacc; simpl; [done|].
  apply IH. apply wrap64_range.
Qed.

Lemma keyHash_range key : in_int64 (keyHash key).
Proof. apply foldl_hashStep_range. unfold in_int64. lia. Qed.

Lemma shardIndex_range key : 0 <= shardIndex key < Z.of_nat NumShards.
Proof.
  unfold shardIndex, int_rem, int_neg.
  pose proof (keyHash_range key) as Hr. unfold in_int64 in Hr.
  change (Z.of_nat NumShards) with 32.
  destruct (Z.ltb_spec (keyHash key) 0) as [Hneg|Hpos].
  - destruct (decide (keyHash key = - 2 ^ 63)) as [->|Hne].
    + vm_compute. split; [discriminate | reflexivity].
    + rewrite wrap64_id by (unfold in_int64; lia).
      apply Z.rem_bound_pos; lia.
  - apply Z.rem_bound_pos; lia.
Qed.

Lemma fin_clamp_to_nat m n : (n ≤ m)%nat → fin_to_nat (fin_clamp m n) = n.
Proof.
  revert n. induction m as [|m IH]; intros [|n] Hn; simpl; try lia.
  rewrite IH; lia.
Qed.

Lemma shardSlot_index key :
  Z.of_nat (fin_to_nat (shardSlot key)) = shardIndex key.
Proof.
  pose proof (shardIndex_range key) as Hr.
  change (Z.of_nat NumShards) with 32 in Hr.
  assert (fin_to_nat (shardSlot key) = Z.to_nat (shardIndex key)) as ->.
  { apply (fin_clamp_to_nat 31). lia. }
  lia.
Qed.

(** C8. The partitioner is a function of the key alone: the index it
    computes lies in [0, NumShards), it is the position of the shard
    [getShard] returns, and that position is the same in whatever two
    states of the cache [getShard] is called. *)
Theorem getShard_deterministic_in_range (key : string) :
  0 <= shardIndex key < Z.of_nat NumShards
  ∧ Z.of_nat (fin_to_nat (shardSlot key)) = shardIndex key
  ∧ ∀ c c' : ShardedCache,
      ∃ i : fin NumShards,
        Z.of_nat (fin_to_nat i) = shardIndex key
        ∧ getShard c key = shards c !!! i
        ∧ getShard c' key = shards c' !!! i.
Proof.
  split; [apply shardIndex_range|].
  split; [apply shardSlot_index|].
  intros c c'. exists (shardSlot key).
  split; [apply shardSlot_index|]. split; reflexivity.
Qed.

(** The hash overflows for long keys and may be the least [int], whose
    negation is itself; the index is still in range. *)
Example shardIndex_examples :
  shardIndex "a" = 1 ∧ shardIndex "example" = 10 ∧ shardIndex "" = 0
  ∧ int_rem (int_neg (- 2 ^ 63)) 32 = 0.
Proof. vm_compute. repeat split. Qed.

(** ** Put and Get *)

Lemma getShard_vinsert c key shard t :
  getShard (mkCache (vinsert (shardSlot key) shard (shards c)) t) key = shard.
Proof. unfold getShard. simpl. apply vlookup_insert. Qed.

Lemma Put_check_false key val :
  valid key val → (MaxKeySize <? len key) || (MaxValueSize <? len val) = false.
Proof.
  intros [Hk Hv]. apply orb_false_intro; apply Z.ltb_ge; done.
Qed.

Lemma Put_check_true key val :
  ¬ valid key val → (MaxKeySize <? len key) || (MaxValueSize <? len val) = true.
Proof.
  intros Hn. apply not_false_iff_true. intros Hf.
  apply orb_false_elim in Hf as [Hk Hv]. apply Z.ltb_ge in Hk, Hv.
  apply Hn. split; done.
Qed.

(** C7. [Put] returns the validation error exactly when the key or the
    value is longer than 256 bytes, it returns no error exactly when
    both are within the limit, and a call that fails leaves the cache (all
    shards and [totalSize]) as it was. *)
Theorem Put_validation (c : ShardedCache) (key val : string) (now : Z) :
  (fst (Put c key val now) = Some ValidationError
     ↔ (len key > 256 ∨ len val > 256))
  ∧ (fst (Put c key val now) = None ↔ (len key <= 256 ∧ len val <= 256))
  ∧ (fst (Put c key val now) ≠ None → snd (Put c key val now) = c).
Proof.
  unfold Put.
  destruct ((MaxKeySize <? len key) || (MaxValueSize <? len val)) eqn:Hchk.
  - apply orb_true_iff in Hchk.
    assert (len key > 256 ∨ len val > 256) as Hlen.
    { unfold MaxKeySize, MaxValueSize in Hchk.
      destruct Hchk as [H|H]; apply Z.ltb_lt in H; lia. }
    simpl. repeat split; try done; intros; try lia.
  - apply orb_false_iff in Hchk as [Hk Hv].
    apply Z.ltb_ge in Hk, Hv. unfold MaxKeySize, MaxValueSize in *.
    destruct (items (getShard c key) !! key); simpl;
      (repeat split; try done; intros; lia).
Qed.

(** C1. A [Put] of a key and a value of at most 256 bytes each succeeds,
    and the [Get] of that key that follows returns the value and
    [true]. *)
Theorem Put_Get_round_trip (c : ShardedCache) (key val : string)
    (now now' : Z) :
  len key <= 256 → len val <= 256 →
  fst (Put c key val now) = None
  ∧ fst (Get (snd (Put c key val now)) key now') = (val, true).
Proof.
  intros Hk Hv. unfold Put.
  rewrite Put_check_false by (split; done).
  destruct (items (getShard c key) !! key) as [element|] eqn:Hfound; simpl.
  - split; [done|].
    unfold Get, Get_lookup. rewrite getShard_vinsert. simpl. rewrite Hfound.
    unfold Get_promote. rewrite getShard_vinsert. simpl.
    by rewrite lookup_total_insert_eq.
  - split; [done|].
    unfold Get, Get_lookup. rewrite getShard_vinsert. simpl.
    rewrite lookup_insert_eq.
    unfold Get_promote. rewrite getShard_vinsert. simpl.
    by rewrite lookup_total_insert_eq.
Qed.

Lemma Put_Get_round_trip_witness :
  len "example" <= 256 ∧ len "data" <= 256
  ∧ fst (Put NewShardedCache "example" "data" 1) = None
  ∧ fst (Get (snd (Put NewShardedCache "example" "data" 1)) "example" 2)
    = ("data", true).
Proof.
  split; [vm_compute; discriminate|]. split; [vm_compute; discriminate|].
  apply (Put_Get_round_trip NewShardedCache "example" "data" 1 2);
    vm_compute; discriminate.
Defined.

Lemma list_MoveToFront_elem e (l : list addr) a :
  a ∈ list_MoveToFront e l ↔ a ∈ l.
Proof.
  unfold list_MoveToFront, list_Remove. destruct (decide (e ∈ l)); [|done].
  rewrite elem_of_cons, list_elem_of_filter. split.
  - intros [->|[_ Ha]]; done.
  - intros Ha. destruct (decide (a = e)); [by left | by right].
Qed.

Lemma Get_miss c key now :
  items (getShard c key) !! key = None → Get c key now = (("", false), c).
Proof. intros Hm. unfold Get, Get_lookup. by rewrite Hm. Qed.

(** C10. [Get] changes no size counter, no index (so not the set of
    stored keys), and no entry's value or size; the recency list of every
    shard keeps its elements. For a key that no shard stores, [Get]
    returns the empty string and [false] and the cache it leaves is the
    cache it was given, recency lists and timestamps included. *)
Theorem Get_frame (c : ShardedCache) (key : string) (now : Z) :
  totalSize (snd (Get c key now)) = totalSize c
  ∧ (∀ i : fin NumShards,
       let shard := shards c !!! i in
       let shard' := shards (snd (Get c key now)) !!! i in
       shardSize shard' = shardSize shard
       ∧ items shard' = items shard
       ∧ (∀ a, a ∈ evictList shard' ↔ a ∈ evictList shard)
       ∧ (∀ a, value (nodes shard' !!! a) = value (nodes shard !!! a)
               ∧ entrySize (nodes shard' !!! a)
                 = entrySize (nodes shard !!! a)))
  ∧ (¬ stored c key →
       fst (Get c key now) = ("", false) ∧ snd (Get c key now) = c).
Proof.
  split; [|split].
  - unfold Get. destruct (Get_lookup c key); done.
  - intros i. unfold Get. destruct (Get_lookup c key) as [element|]; [|done].
    simpl. destruct (decide (i = shardSlot key)) as [->|Hne].
    + rewrite vlookup_insert. simpl. unfold getShard.
      split; [done|]. split; [done|].
      split; [apply list_MoveToFront_elem|].
      intros a. destruct (decide (a = element)) as [->|Hae].
      * by rewrite lookup_total_insert_eq.
      * by rewrite lookup_total_insert_ne.
    + rewrite vlookup_insert_ne by done. done.
  - intros Hns.
    assert (items (getShard c key) !! key = None) as Hm.
    { apply eq_None_not_Some. intros Hs. apply Hns. by exists (shardSlot key). }
    by rewrite Get_miss.
Qed.

Example Get_missing :
  Get (snd (Put NewShardedCache "example" "data" 1)) "missing" 2
  = (("", false), snd (Put NewShardedCache "example" "data" 1)).
Proof. vm_compute. reflexivity. Qed.

(** ** Sums and the recency list *)

Lemma sumOf_app {A} (f : A → Z) l1 l2 :
  sumOf f (l1 ++ l2) = sumOf f l1 + sumOf f l2.
Proof. induction l1 as [|x l1 IH]; simpl; lia. Qed.

Lemma sumOf_ext {A} (f g : A → Z) l :
  (∀ x, x ∈ l → f x = g x) → sumOf f l = sumOf g l.
Proof.
  induction l as [|x l IH]; intros Hfg; simpl; [done|].
  rewrite (Hfg x) by left. rewrite IH; [done|].
  intros y Hy. apply Hfg. by right.
Qed.

Lemma sumOf_perm {A} (f : A → Z) l1 l2 :
  l1 ≡ₚ l2 → sumOf f l1 = sumOf f l2.
Proof. induction 1; simpl; lia. Qed.

Lemma sumOf_map {A B} (f : B → Z) (g : A → B) l :
  sumOf f (map g l) = sumOf (λ x, f (g x)) l.
Proof. induction l as [|x l IH]; simpl; [done|]. by rewrite IH. Qed.

Lemma sumOf_sub {A} (f g : A → Z) l :
  sumOf (λ x, f x - g x) l = sumOf f l - sumOf g l.
Proof. induction l as [|x l IH]; simpl; lia. Qed.

Lemma sumOf_insert {A} (f : A → Z) l (i : nat) x y :
  l !! i = Some y → sumOf f (<[i:=x]> l) = sumOf f l - f y + f x.
Proof.
  revert i. induction l as [|z l IH]; intros [|i] Hi; simpl in *; try done.
  - injection Hi as ->. lia.
  - rewrite (IH i Hi). lia.
Qed.

Lemma sumOf_bounds {A} (f : A → Z) l lo hi :
  (∀ x, x ∈ l → lo <= f x <= hi) →
  lo * Z.of_nat (length l) <= sumOf f l <= hi * Z.of_nat (length l).
Proof.
  induction l as [|x l IH]; intros Hb; simpl length; simpl sumOf; [lia|].
  pose proof (Hb x ltac:(left)) as Hx.
  assert (∀ y, y ∈ l → lo <= f y <= hi) as Hl by (intros y Hy; apply Hb; by right).
  specialize (IH Hl). lia.
Qed.

Lemma sumOf_lookup_le {A} (f : A → Z) l (i : nat) y :
  (∀ x, x ∈ l → 0 <= f x) → l !! i = Some y → f y <= sumOf f l.
Proof.
  intros Hpos Hi.
  apply list_elem_of_split_length in Hi as (l1 & l2 & -> & _).
  rewrite sumOf_app. simpl.
  assert (0 <= sumOf f l1) as Hl1.
  { clear -Hpos. induction l1 as [|x l1 IH]; simpl; [lia|].
    pose proof (Hpos x ltac:(left)).
    assert (0 <= sumOf f l1); [|lia].
    apply IH. intros z Hz. apply Hpos. by right. }
  assert (0 <= sumOf f l2) as Hl2.
  { assert (∀ x, x ∈ l2 → 0 <= f x) as Hp2.
    { intros z Hz. apply Hpos. apply elem_of_app. right. by right. }
    clear -Hp2. induction l2 as [|x l2 IH]; simpl; [lia|].
    pose proof (Hp2 x ltac:(left)).
    assert (0 <= sumOf f l2); [|lia].
    apply IH. intros z Hz. apply Hp2. by right. }
  lia.
Qed.

Lemma list_Remove_absent e (l : list addr) : e ∉ l → list_Remove e l = l.
Proof.
  unfold list_Remove. induction l as [|x l IH]; intros Hn; [done|].
  apply not_elem_of_cons in Hn as [Hx Hl].
  rewrite filter_cons_True by congruence. by rewrite IH.
Qed.

Lemma list_Remove_last e (l' : list addr) :
  NoDup (l' ++ [e]) → list_Remove e (l' ++ [e]) = l'.
Proof.
  intros Hnd. apply NoDup_app in Hnd as (_ & Hdis & _).
  unfold list_Remove. rewrite filter_app.
  rewrite filter_cons_False by (intros Hne; by apply Hne).
  rewrite filter_nil, app_nil_r.
  apply list_Remove_absent. intros He. apply (Hdis e He). by left.
Qed.

Lemma list_Remove_perm e (l : list addr) :
  NoDup l → e ∈ l → e :: list_Remove e l ≡ₚ l.
Proof.
  unfold list_Remove. induction l as [|x l IH]; intros Hnd He.
  - by apply elem_of_nil in He.
  - apply NoDup_cons in Hnd as [Hx Hnd].
    destruct (decide (x = e)) as [->|Hne].
    + rewrite filter_cons_False by (intros Hn; by apply Hn).
      fold (list_Remove e l). by rewrite list_Remove_absent.
    + rewrite filter_cons_True by done.
      apply elem_of_cons in He as [->|He]; [done|].
      rewrite Permutation_swap. by rewrite IH.
Qed.

Lemma list_MoveToFront_perm e (l : list addr) :
  NoDup l → list_MoveToFront e l ≡ₚ l.
Proof.
  intros Hnd. unfold list_MoveToFront.
  destruct (decide (e ∈ l)); [by apply list_Remove_perm | done].
Qed.

Lemma list_MoveToFront_in e (l : list addr) :
  e ∈ l → list_MoveToFront e l = e :: list_Remove e l.
Proof. intros He. unfold list_MoveToFront. by rewrite decide_True. Qed.

(** ** The shards the operations build *)

Lemma emptyShard_wf : shard_wf emptyShard.
Proof.
  split; simpl.
  - apply NoDup_nil_2.
  - intros key a H. by rewrite lookup_empty in H.
  - intros a H. by apply elem_of_nil in H.
  - intros k1 k2 a H. by rewrite lookup_empty in H.
  - intros a H. by apply elem_of_nil in H.
Qed.

(** *** The scan of [evictOne] *)

Lemma scanIndex_finds (m : gmap string addr) order e k :
  (∀ key a, (key, a) ∈ order → m !! key = Some a) →
  (∀ k1 k2 a, m !! k1 = Some a → m !! k2 = Some a → k1 = k2) →
  (k, e) ∈ order →
  fst (scanIndex order e) = Some k.
Proof.
  intros Hsub Hinj. induction order as [|[key el] rest IH]; intros Hin.
  - by apply elem_of_nil in Hin.
  - simpl. destruct (decide (el = e)) as [->|Hne]; simpl.
    + f_equal. apply (Hinj key k e).
      * apply Hsub. left.
      * apply Hsub. done.
    + apply elem_of_cons in Hin as [Heq|Hin]; [congruence|].
      destruct (scanIndex rest e) as [r visited] eqn:Hscan. simpl.
      assert (∀ key a, (key, a) ∈ rest → m !! key = Some a) as Hsub'.
      { intros key' a' H'. apply Hsub. by right. }
      specialize (IH Hsub' Hin). simpl in IH. done.
Qed.

Lemma scanIndex_visits order e :
  (snd (scanIndex order e) ≤ length order)%nat.
Proof.
  induction order as [|[key el] rest IH]; simpl; [lia|].
  destruct (decide (el = e)); simpl; [lia|].
  destruct (scanIndex rest e) as [r visited]. simpl in *. lia.
Qed.

(** When the element sought comes last in the iteration, the scan visits
    every entry of the index. *)
Lemma scanIndex_worst rest k e :
  (∀ key a, (key, a) ∈ rest → a ≠ e) →
  scanIndex (rest ++ [(k, e)]) e = (Some k, S (length rest)).
Proof.
  induction rest as [|[key el] rest IH]; intros Hne; simpl.
  - by rewrite decide_True.
  - rewrite decide_False by (apply (Hne key); left).
    rewrite IH; [done|]. intros key' a' H'. apply (Hne key'). by right.
Qed.

Lemma iteration_sub (m : gmap string addr) order :
  order ≡ₚ map_to_list m → ∀ key a, (key, a) ∈ order ↔ m !! key = Some a.
Proof.
  intros Hp key a. rewrite Hp. apply elem_of_map_to_list.
Qed.

(** *** evictOne on a well-formed shard *)

Lemma evictOne_in_spec s order l' e k :
  shard_wf s →
  order ≡ₚ map_to_list (items s) →
  evictList s = l' ++ [e] →
  items s !! k = Some e →
  evictOne_in order s = (sizeAt s e, evicted s l' e k).
Proof.
  intros Hwf Hord Hl Hk. unfold evictOne_in. rewrite Hl.
  assert ((list_Len (l' ++ [e]) =? 0) = false) as ->.
  { apply Z.eqb_neq. unfold list_Len. rewrite length_app. simpl. lia. }
  unfold list_Back. rewrite last_snoc.
  rewrite list_Remove_last by (rewrite <- Hl; apply Hwf).
  rewrite (scanIndex_finds (items s) order e k).
  - done.
  - intros key a Hin. by apply (iteration_sub _ _ Hord).
  - apply Hwf.
  - by apply (iteration_sub _ _ Hord).
Qed.

Lemma evictOne_spec s l' e k :
  shard_wf s → evictList s = l' ++ [e] → items s !! k = Some e →
  evictOne s = (sizeAt s e, evicted s l' e k).
Proof. intros. by apply evictOne_in_spec. Qed.

Lemma evictOne_empty s : evictList s = [] → evictOne s = (0, s).
Proof. intros Hl. unfold evictOne, evictOne_in. by rewrite Hl. Qed.

Lemma evicted_wf s l' e k :
  shard_wf s → evictList s = l' ++ [e] → items s !! k = Some e →
  shard_wf (evicted s l' e k).
Proof.
  intros [Hnd Hidx Hlst Hinj Hal] Hl Hk. rewrite Hl in *.
  apply NoDup_app in Hnd as (Hnd' & Hdis & _).
  assert (e ∉ l') as Hel by (intros He; apply (Hdis e He); left).
  split; simpl.
  - done.
  - intros key a Hd. apply lookup_delete_Some in Hd as [Hne Hd].
    pose proof (Hidx key a Hd) as Ha.
    apply elem_of_app in Ha as [Ha|Ha]; [done|].
    apply list_elem_of_singleton in Ha as ->.
    destruct Hne. by apply (Hinj k key e).
  - intros a Ha. destruct (Hlst a) as [key Hkey]; [apply elem_of_app; by left|].
    exists key. apply lookup_delete_Some. split; [|done].
    intros <-. congruence.
  - intros k1 k2 a H1 H2.
    apply lookup_delete_Some in H1 as [_ H1].
    apply lookup_delete_Some in H2 as [_ H2]. by apply (Hinj k1 k2 a).
  - intros a Ha. apply Hal. apply elem_of_app. by left.
Qed.

(** ** Size accounting *)

Lemma wrap64_add_l a b : wrap64 (wrap64 a + b) = wrap64 (a + b).
Proof.
  unfold wrap64. f_equal.
  replace ((a + 2 ^ 63) mod 2 ^ 64 - 2 ^ 63 + b + 2 ^ 63)
    with ((a + 2 ^ 63) mod 2 ^ 64 + b) by lia.
  rewrite Zplus_mod_idemp_l. f_equal; lia.
Qed.

Lemma wrap64_add_r a b : wrap64 (a + wrap64 b) = wrap64 (a + b).
Proof. rewrite Z.add_comm, wrap64_add_l. f_equal; lia. Qed.

Lemma wrap64_sub_l a b : wrap64 (wrap64 a - b) = wrap64 (a - b).
Proof.
  replace (wrap64 a - b) with (wrap64 a + - b) by lia.
  rewrite wrap64_add_l. f_equal; lia.
Qed.

Lemma len_nonneg s : 0 <= len s.
Proof. unfold len. lia. Qed.

Lemma entry_size_exact key val :
  valid key val →
  int_add (int_add (len key) (len val)) 64 = len key + len val + 64
  ∧ 64 <= len key + len val + 64 <= MaxEntrySize.
Proof.
  intros [Hk Hv]. unfold MaxKeySize, MaxValueSize, MaxEntrySize in *.
  pose proof (len_nonneg key). pose proof (len_nonneg val).
  unfold int_add.
  rewrite (wrap64_id (len key + len val)) by (unfold in_int64; lia).
  rewrite wrap64_id by (unfold in_int64; lia). lia.
Qed.

Lemma Put_unfold c key val now :
  valid key val →
  Put c key val now
  = (None, mkCache (vinsert (shardSlot key)
                            (putShard key val now (getShard c key)) (shards c))
                   (int_add (totalSize c) (putDelta key val (getShard c key)))).
Proof.
  intros Hv. unfold Put, putShard, putDelta, sizeAt.
  rewrite Put_check_false by done.
  destruct (entry_size_exact key val Hv) as [-> _].
  destruct (items (getShard c key) !! key); reflexivity.
Qed.

Lemma Get_unfold c key now :
  snd (Get c key now)
  = mkCache (vinsert (shardSlot key) (touchShard key now (getShard c key))
                     (shards c))
            (totalSize c).
Proof.
  unfold Get, Get_lookup, touchShard.
  destruct (items (getShard c key) !! key) as [element|] eqn:Hf.
  - reflexivity.
  - simpl. unfold getShard. rewrite vlookup_insert_self. by destruct c.
Qed.

Lemma emptyShard_ok : shard_ok emptyShard.
Proof.
  split; [apply emptyShard_wf | |reflexivity].
  intros a H. by apply elem_of_nil in H.
Qed.

Lemma newElement_fresh s : shard_wf s → newElement s ∉ evictList s.
Proof.
  intros Hwf Hin. apply (wf_alloc s Hwf) in Hin.
  apply elem_of_dom in Hin. by apply (is_fresh (dom (nodes s))).
Qed.

Lemma sizeAt_insert_eq s e entry its l z :
  sizeAt (mkShard its l (<[e := entry]> (nodes s)) z) e = entrySize entry.
Proof. unfold sizeAt. simpl. by rewrite lookup_total_insert_eq. Qed.

Lemma sizeAt_insert_ne s e a entry its l z :
  a ≠ e → sizeAt (mkShard its l (<[e := entry]> (nodes s)) z) a = sizeAt s a.
Proof. intros Hne. unfold sizeAt. simpl. by rewrite lookup_total_insert_ne. Qed.

Lemma moved_wf s e entry z :
  shard_wf s →
  shard_wf (mkShard (items s) (list_MoveToFront e (evictList s))
                    (<[e := entry]> (nodes s)) z).
Proof.
  intros [Hnd Hidx Hlst Hinj Hal]. split; simpl.
  - by rewrite list_MoveToFront_perm.
  - intros key a Hk. apply list_MoveToFront_elem. by apply (Hidx key).
  - intros a Ha. apply list_MoveToFront_elem in Ha. by apply Hlst.
  - done.
  - intros a Ha. apply list_MoveToFront_elem in Ha.
    destruct (decide (a = e)) as [->|Hne].
    + rewrite lookup_insert_eq. by eexists.
    + rewrite lookup_insert_ne by done. by apply Hal.
Qed.

Lemma putShard_wf key val now s :
  shard_wf s → shard_wf (putShard key val now s).
Proof.
  intros Hwf. unfold putShard.
  destruct (items s !! key) as [element|] eqn:Hfound.
  - by apply moved_wf.
  - pose proof (newElement_fresh s Hwf) as Hfresh.
    destruct Hwf as [Hnd Hidx Hlst Hinj Hal].
    set (e := newElement s) in *. split; simpl; unfold list_PushFront.
    + by apply NoDup_cons.
    + intros k a Hk. apply lookup_insert_Some in Hk as [[_ <-]|[_ Hk]].
      * left.
      * right. by apply (Hidx k).
    + intros a Ha. apply elem_of_cons in Ha as [->|Ha].
      * exists key. by rewrite lookup_insert_eq.
      * destruct (Hlst a Ha) as [k Hk]. exists k.
        rewrite lookup_insert_ne; [done|]. intros <-. congruence.
    + intros k1 k2 a H1 H2.
      apply lookup_insert_Some in H1 as [[<- <-]|[Hn1 H1]];
        apply lookup_insert_Some in H2 as [[<- Heq]|[Hn2 H2]]; try done.
      * destruct Hfresh. by apply (Hidx k2).
      * subst a. destruct Hfresh. by apply (Hidx k1).
      * by apply (Hinj k1 k2 a).
    + intros a Ha. apply elem_of_cons in Ha as [->|Ha].
      * rewrite lookup_insert_eq. by eexists.
      * destruct (decide (a = e)) as [->|Hne]; [done|].
        rewrite lookup_insert_ne by done. by apply Hal.
Qed.

Lemma touchShard_wf key now s : shard_wf s → shard_wf (touchShard key now s).
Proof.
  intros Hwf. unfold touchShard.
  destruct (items s !! key) as [element|]; [by apply moved_wf | done].
Qed.

(** Moving an element to the front and replacing its entry changes the
    sum of the sizes by the difference of the two sizes. *)
Lemma moved_bytes s e entry z :
  shard_wf s → e ∈ evictList s →
  shardBytes (mkShard (items s) (list_MoveToFront e (evictList s))
                      (<[e := entry]> (nodes s)) z)
  = shardBytes s + (entrySize entry - sizeAt s e).
Proof.
  intros Hwf He. unfold shardBytes at 1. simpl.
  rewrite list_MoveToFront_in by done. simpl.
  rewrite sizeAt_insert_eq.
  pose proof (list_Remove_perm e (evictList s) (wf_nodup s Hwf) He) as Hp.
  unfold shardBytes. rewrite <- (sumOf_perm (sizeAt s) _ _ Hp). simpl.
  rewrite (sumOf_ext _ (sizeAt s)); [lia|].
  intros a Ha. apply sizeAt_insert_ne.
  unfold list_Remove in Ha. apply list_elem_of_filter in Ha as [Hne _]. done.
Qed.

Lemma putShard_ok key val now s :
  valid key val → shard_ok s →
  shard_ok (putShard key val now s)
  ∧ shardBytes (putShard key val now s) = shardBytes s + putDelta key val s.
Proof.
  intros Hv [Hwf Hsz Hacc].
  destruct (entry_size_exact key val Hv) as [_ Hsize].
  pose proof (putShard_wf key val now s Hwf) as Hwf'.
  unfold putShard, putDelta in *.
  destruct (items s !! key) as [element|] eqn:Hfound.
  all: rewrite ?Hfound in Hwf'.
  - assert (element ∈ evictList s) as He by (by apply (wf_index s Hwf key)).
    pose proof (Hsz element He) as Hold. unfold MaxEntrySize in *.
    assert (int_sub (len key + len val + 64) (sizeAt s element)
            = len key + len val + 64 - sizeAt s element) as Hd.
    { unfold int_sub. apply wrap64_id. unfold in_int64. lia. }
    rewrite Hd.
    pose proof (moved_bytes s element
                  (mkEntry val now (len key + len val + 64))
                  (int_add (shardSize s)
                     (len key + len val + 64 - sizeAt s element)) Hwf He)
      as Hb.
    simpl in Hb. split; [|done].
    split; [by apply moved_wf| |].
    + simpl. intros a Ha. apply list_MoveToFront_elem in Ha.
      destruct (decide (a = element)) as [->|Hne].
      * rewrite sizeAt_insert_eq. simpl. unfold MaxEntrySize. lia.
      * rewrite sizeAt_insert_ne by done. by apply Hsz.
    + rewrite Hb. simpl. rewrite Hacc. unfold int_add.
      rewrite wrap64_add_l. f_equal; lia.
  - pose proof (newElement_fresh s Hwf) as Hfresh.
    set (e := newElement s) in *.
    assert (shardBytes
              (mkShard (<[key:=e]> (items s)) (list_PushFront e (evictList s))
                 (<[e:=mkEntry val now (len key + len val + 64)]> (nodes s))
                 (int_add (shardSize s) (len key + len val + 64)))
            = shardBytes s + (len key + len val + 64)) as Hb.
    { unfold shardBytes at 1. simpl. rewrite sizeAt_insert_eq. simpl.
      unfold shardBytes. rewrite (sumOf_ext _ (sizeAt s)); [lia|].
      intros a Ha. apply sizeAt_insert_ne. intros ->. done. }
    split; [|done]. split; [done| |].
    + simpl. unfold list_PushFront. intros a Ha.
      apply elem_of_cons in Ha as [->|Ha].
      * rewrite sizeAt_insert_eq. simpl. unfold MaxEntrySize in *. lia.
      * rewrite sizeAt_insert_ne by (intros ->; done). by apply Hsz.
    + rewrite Hb. simpl. rewrite Hacc. unfold int_add.
      by rewrite wrap64_add_l.
Qed.

Lemma touchShard_ok key now s :
  shard_ok s →
  shard_ok (touchShard key now s)
  ∧ shardBytes (touchShard key now s) = shardBytes s.
Proof.
  intros [Hwf Hsz Hacc].
  pose proof (touchShard_wf key now s Hwf) as Hwf'.
  unfold touchShard in *.
  destruct (items s !! key) as [element|] eqn:Hfound; [|by split].
  rewrite ?Hfound in Hwf'.
  assert (element ∈ evictList s) as He by (by apply (wf_index s Hwf key)).
  pose proof (moved_bytes s element
                (mkEntry (value (nodes s !!! element)) now
                         (entrySize (nodes s !!! element)))
                (shardSize s) Hwf He) as Hb.
  simpl in Hb. fold (sizeAt s element) in Hb.
  assert (∀ x : Z, x + (sizeAt s element - sizeAt s element) = x) as Hz
    by (intros; lia).
  rewrite Hz in Hb.
  split; [|done]. split; [done| |].
  - simpl. intros a Ha. apply list_MoveToFront_elem in Ha.
    destruct (decide (a = element)) as [->|Hne].
    + rewrite sizeAt_insert_eq. simpl. by apply Hsz.
    + rewrite sizeAt_insert_ne by done. by apply Hsz.
  - simpl. rewrite Hacc. f_equal. symmetry. exact Hb.
Qed.

(** *** Eviction from one shard *)

Lemma evictOne_step s :
  shard_wf s → evictList s ≠ [] →
  ∃ l' e k,
    evictList s = l' ++ [e] ∧ items s !! k = Some e
    ∧ evictOne s = (sizeAt s e, evicted s l' e k)
    ∧ shard_wf (evicted s l' e k).
Proof.
  intros Hwf Hne. apply last_is_Some in Hne as [e He].
  apply last_Some in He as [l' Hl].
  destruct (wf_listed s Hwf e) as [k Hk].
  { rewrite Hl. apply elem_of_app. right. left. }
  exists l', e, k. split; [done|]. split; [done|].
  split; [by apply evictOne_spec | by apply evicted_wf].
Qed.

Lemma evicted_ok s l' e k :
  shard_ok s → evictList s = l' ++ [e] → items s !! k = Some e →
  shard_ok (evicted s l' e k)
  ∧ shardBytes s = shardBytes (evicted s l' e k) + sizeAt s e.
Proof.
  intros [Hwf Hsz Hacc] Hl Hk.
  assert (shardBytes s = shardBytes (evicted s l' e k) + sizeAt s e) as Hb.
  { unfold shardBytes. rewrite Hl, sumOf_app. simpl.
    unfold sizeAt. simpl. lia. }
  split; [|done]. split.
  - by apply evicted_wf.
  - simpl. intros a Ha. change (sizeAt (evicted s l' e k) a) with (sizeAt s a).
    apply Hsz. rewrite Hl. apply elem_of_app. by left.
  - simpl. rewrite Hacc. unfold int_sub. rewrite wrap64_sub_l.
    f_equal. lia.
Qed.

Lemma evictLoop_times n s acc :
  shard_wf s →
  evictLoop n s acc = evictTimes (n `min` length (evictList s)) s acc.
Proof.
  revert s acc. induction n as [|n IH]; intros s acc Hwf; [done|].
  simpl evictLoop. destruct (evictList s) as [|x l] eqn:Hl.
  - done.
  - assert (evictList s ≠ []) as Hne by (by rewrite Hl).
    destruct (evictOne_step s Hwf Hne) as (l' & e & k & Hl' & Hk & Hev & Hwf').
    assert ((0 <? list_Len (x :: l)) = true) as ->.
    { apply Z.ltb_lt. unfold list_Len. simpl length. lia. }
    rewrite Hev. rewrite IH by done.
    assert (length (x :: l) = S (length l')) as Hlen.
    { rewrite <- Hl, Hl', length_app. simpl. lia. }
    rewrite Hlen. simpl Nat.min. simpl evictTimes. rewrite Hev. done.
Qed.

(** After [k] calls of [evictOne] the recency list has lost its [k] last
    elements, the index the keys of those elements, and the bytes freed
    are the sizes of their entries. *)
Lemma evictTimes_spec k s acc :
  shard_ok s → in_int64 acc → (k ≤ length (evictList s))%nat →
  let r := evictTimes k s acc in
  let kept := (length (evictList s) - k)%nat in
  shard_ok (snd r)
  ∧ evictList (snd r) = take kept (evictList s)
  ∧ nodes (snd r) = nodes s
  ∧ fst r = wrap64 (acc + sumOf (sizeAt s) (drop kept (evictList s)))
  ∧ shardBytes s
    = shardBytes (snd r) + sumOf (sizeAt s) (drop kept (evictList s))
  ∧ (∀ key a, items (snd r) !! key = Some a
              ↔ items s !! key = Some a ∧ a ∈ take kept (evictList s)).
Proof.
  revert s acc. induction k as [|k IH]; intros s acc Hok Hacc Hk; cbv zeta.
  - simpl. rewrite Nat.sub_0_r, take_ge, drop_ge by lia. simpl.
    split; [done|]. split; [done|]. split; [done|].
    split; [rewrite Z.add_0_r; symmetry; by apply wrap64_id|].
    split; [lia|].
    intros key a. split; [|by intros [? _]].
    intros Hi. split; [done|]. by apply (wf_index s (ok_wf s Hok) key).
  - assert (evictList s ≠ []) as Hne.
    { intros Hnil. rewrite Hnil in Hk. simpl in Hk. lia. }
    destruct (evictOne_step s (ok_wf s Hok) Hne)
      as (l' & e & k0 & Hl & Hk0 & Hev & Hwf').
    destruct (evicted_ok s l' e k0 Hok Hl Hk0) as [Hok' Hbytes].
    assert (length (evictList s) = S (length l')) as Hlen.
    { rewrite Hl, length_app. simpl. lia. }
    specialize (IH (evicted s l' e k0) (int_add acc (sizeAt s e)) Hok'
                   (wrap64_range _)).
    cbv zeta in IH. simpl evictList in IH. specialize (IH ltac:(lia)).
    simpl evictTimes. rewrite Hev.
    destruct IH as (IH1 & IH2 & IH3 & IH4 & IH5 & IH6).
    assert ((length (evictList s) - S k = length l' - k)%nat) as Hkept by lia.
    rewrite Hkept.
    assert (take (length l' - k) (evictList s) = take (length l' - k) l')
      as Htake.
    { rewrite Hl. apply take_app_le. lia. }
    assert (drop (length l' - k) (evictList s)
            = drop (length l' - k) l' ++ [e]) as Hdrop.
    { rewrite Hl. apply drop_app_le. lia. }
    assert (∀ l, sumOf (sizeAt (evicted s l' e k0)) l = sumOf (sizeAt s) l)
      as Hsame by done.
    rewrite Hsame in IH4, IH5.
    rewrite Htake, Hdrop, sumOf_app. simpl sumOf.
    split; [done|]. split; [done|]. split; [done|].
    split.
    { rewrite IH4. unfold int_add. rewrite wrap64_add_l. f_equal; lia. }
    split; [lia|].
    intros key a. rewrite IH6. simpl items.
    rewrite lookup_delete_Some. split.
    + intros [[_ Hi] Ha]. done.
    + intros [Hi Ha]. split; [|done]. split; [|done].
      intros <-. assert (a = e) as -> by congruence.
      apply elem_of_take in Ha as (i & Hi' & _).
      pose proof (wf_nodup s (ok_wf s Hok)) as Hnd. rewrite Hl in Hnd.
      apply NoDup_app in Hnd as (_ & Hdis & _).
      apply (Hdis e); [by eapply list_elem_of_lookup_2 | left].
Qed.

(** *** The whole cache *)

Lemma sumOf_le {A} (f g : A → Z) l :
  (∀ x, x ∈ l → f x <= g x) → sumOf f l <= sumOf g l.
Proof.
  induction l as [|x l IH]; intros Hfg; simpl; [lia|].
  pose proof (Hfg x ltac:(left)).
  assert (sumOf f l <= sumOf g l); [|lia].
  apply IH. intros y Hy. apply Hfg. by right.
Qed.

Lemma sumOf_scale {A} (f : A → Z) l k :
  sumOf (λ x, k * f x) l = k * sumOf f l.
Proof. induction l as [|x l IH]; simpl; lia. Qed.

Lemma sumOf_vinsert {n} (f : Shard → Z) (v : vec Shard n) i x :
  sumOf f (vec_to_list (vinsert i x v))
  = sumOf f (vec_to_list v) - f (v !!! i) + f x.
Proof.
  rewrite vec_to_list_insert. apply sumOf_insert. by apply vlookup_lookup.
Qed.

Lemma NewShardedCache_ok : cache_ok NewShardedCache.
Proof.
  split.
  - intros i.
    change (shards NewShardedCache) with (vreplicate NumShards emptyShard).
    rewrite vlookup_replicate. apply emptyShard_ok.
  - reflexivity.
Qed.

Lemma shard_bytes_bound s :
  shard_ok s → 0 <= shardBytes s <= MaxEntrySize * entryCount s.
Proof.
  intros Hok. unfold shardBytes, entryCount.
  pose proof (sumOf_bounds (sizeAt s) (evictList s) 0 MaxEntrySize
                (ok_sizes s Hok)). lia.
Qed.

Lemma cache_bytes_bound c :
  cache_ok c → 0 <= cacheBytes c <= MaxEntrySize * liveEntries c.
Proof.
  intros Hok. unfold cacheBytes, liveEntries.
  rewrite <- sumOf_scale. split.
  - transitivity (sumOf (λ _ : Shard, 0) (vec_to_list (shards c))).
    + clear. induction (vec_to_list (shards c)); simpl; lia.
    + apply sumOf_le. intros s Hs. apply elem_of_vlookup in Hs as [i <-].
      apply shard_bytes_bound, Hok.
  - apply sumOf_le. intros s Hs. apply elem_of_vlookup in Hs as [i <-].
    apply shard_bytes_bound, Hok.
Qed.

Lemma entryCount_le_live c i : entryCount (shards c !!! i) <= liveEntries c.
Proof.
  unfold liveEntries. apply (sumOf_lookup_le _ _ (fin_to_nat i)).
  - intros s _. unfold entryCount. lia.
  - by apply vlookup_lookup.
Qed.

(** While the entries held are few enough for their sizes to fit an
    [int64] together, the counters are the sums themselves. *)
Lemma cache_ok_exact c :
  cache_ok c → MaxEntrySize * liveEntries c < 2 ^ 63 →
  (∀ i : fin NumShards, shardSize (shards c !!! i) = shardBytes (shards c !!! i))
  ∧ totalSize c = shardSizes c
  ∧ totalSize c = cacheBytes c.
Proof.
  intros Hok Hlive.
  assert (∀ i : fin NumShards,
            shardSize (shards c !!! i) = shardBytes (shards c !!! i)) as Hsh.
  { intros i. rewrite (ok_account _ (ok_shards c Hok i)).
    apply wrap64_id. unfold in_int64.
    pose proof (shard_bytes_bound _ (ok_shards c Hok i)).
    pose proof (entryCount_le_live c i). unfold MaxEntrySize in *. lia. }
  assert (totalSize c = cacheBytes c) as Htot.
  { rewrite (ok_total c Hok). apply wrap64_id. unfold in_int64.
    pose proof (cache_bytes_bound c Hok). lia. }
  split; [done|]. split; [|done].
  rewrite Htot. unfold cacheBytes, shardSizes. symmetry.
  apply sumOf_ext. intros s Hs. apply elem_of_vlookup in Hs as [i <-].
  apply Hsh.
Qed.

Lemma replace_shard_ok c i s' t :
  cache_ok c → shard_ok s' →
  t = wrap64 (cacheBytes c - shardBytes (shards c !!! i) + shardBytes s') →
  cache_ok (mkCache (vinsert i s' (shards c)) t).
Proof.
  intros Hok Hs' Ht. split; simpl.
  - intros j. destruct (decide (i = j)) as [->|Hne].
    + by rewrite vlookup_insert.
    + rewrite vlookup_insert_ne by done. apply Hok.
  - rewrite Ht. unfold cacheBytes. simpl. by rewrite sumOf_vinsert.
Qed.

Lemma replace_shard_live c i s' t :
  liveEntries (mkCache (vinsert i s' (shards c)) t)
  = liveEntries c - entryCount (shards c !!! i) + entryCount s'.
Proof. unfold liveEntries. simpl. by rewrite sumOf_vinsert. Qed.

Lemma Put_ok c key val now :
  cache_ok c →
  cache_ok (snd (Put c key val now))
  ∧ liveEntries (snd (Put c key val now)) <= liveEntries c + 1.
Proof.
  intros Hok. destruct (decide (valid key val)) as [Hv|Hnv].
  - rewrite Put_unfold by done. simpl.
    destruct (putShard_ok key val now (getShard c key) Hv
                (ok_shards c Hok (shardSlot key))) as [Hs' Hb].
    split.
    + apply replace_shard_ok; [done|done|].
      rewrite (ok_total c Hok). unfold int_add. rewrite wrap64_add_l.
      f_equal. fold (getShard c key). lia.
    + rewrite replace_shard_live. fold (getShard c key).
      assert (entryCount (putShard key val now (getShard c key))
              <= entryCount (getShard c key) + 1); [|lia].
      unfold entryCount, putShard.
      pose proof (ok_wf _ (ok_shards c Hok (shardSlot key))) as Hwf.
      fold (getShard c key) in Hwf.
      destruct (items (getShard c key) !! key); simpl.
      * rewrite (list_MoveToFront_perm _ _ (wf_nodup _ Hwf)). lia.
      * lia.
  - unfold Put. rewrite Put_check_true by done. simpl. split; [done|lia].
Qed.

Lemma Get_ok c key now :
  cache_ok c →
  cache_ok (snd (Get c key now))
  ∧ liveEntries (snd (Get c key now)) = liveEntries c.
Proof.
  intros Hok. rewrite Get_unfold.
  destruct (touchShard_ok key now (getShard c key)
              (ok_shards c Hok (shardSlot key))) as [Hs' Hb].
  pose proof (ok_wf _ (ok_shards c Hok (shardSlot key))) as Hwf.
  fold (getShard c key) in Hwf.
  split.
  - apply replace_shard_ok; [done|done|].
    rewrite (ok_total c Hok). f_equal. fold (getShard c key). lia.
  - rewrite replace_shard_live. fold (getShard c key).
    assert (entryCount (touchShard key now (getShard c key))
            = entryCount (getShard c key)); [|lia].
    unfold entryCount, touchShard.
    destruct (items (getShard c key) !! key); simpl; [|done].
    by rewrite (list_MoveToFront_perm _ _ (wf_nodup _ Hwf)).
Qed.

(** *** EvictBatch *)

Lemma wrap64_decomp a : ∃ k, wrap64 a = a + k * 2 ^ 64.
Proof.
  exists (- ((a + 2 ^ 63) / 2 ^ 64)). unfold wrap64.
  rewrite Z.mod_eq by lia. lia.
Qed.

Lemma wrap64_shift a k : wrap64 (a + k * 2 ^ 64) = wrap64 a.
Proof.
  unfold wrap64. f_equal.
  replace (a + k * 2 ^ 64 + 2 ^ 63) with (a + 2 ^ 63 + k * 2 ^ 64) by lia.
  apply Z_mod_plus_full.
Qed.

Lemma wrap64_sub_r a b : wrap64 (a - wrap64 b) = wrap64 (a - b).
Proof.
  destruct (wrap64_decomp b) as [k ->].
  replace (a - (b + k * 2 ^ 64)) with (a - b + - k * 2 ^ 64) by lia.
  apply wrap64_shift.
Qed.

Lemma lruBytes_bounds k s :
  shard_ok s → 0 <= lruBytes k s <= shardBytes s.
Proof.
  intros Hok. unfold lruBytes, shardBytes.
  set (kept := (length (evictList s) - k)%nat).
  rewrite <- (take_drop kept (evictList s)) at 3.
  rewrite sumOf_app.
  assert (∀ l, l ⊆ evictList s → 0 <= sumOf (sizeAt s) l) as Hpos.
  { intros l Hl.
    pose proof (sumOf_bounds (sizeAt s) l 0 MaxEntrySize) as Hb.
    assert (∀ x, x ∈ l → 0 <= sizeAt s x <= MaxEntrySize) as Hx.
    { intros x Hx. apply (ok_sizes s Hok). by apply Hl. }
    specialize (Hb Hx). lia. }
  pose proof (Hpos _ (subseteq_take kept (evictList s))).
  pose proof (Hpos _ (subseteq_drop kept (evictList s))). lia.
Qed.

Lemma evictLoop_spec perShard s :
  shard_ok s →
  let r := evictLoop (Z.to_nat perShard) s 0 in
  let k := evictions perShard s in
  r = evictTimes k s 0
  ∧ shard_ok (snd r)
  ∧ evictList (snd r) = take (length (evictList s) - k) (evictList s)
  ∧ nodes (snd r) = nodes s
  ∧ fst r = wrap64 (lruBytes k s)
  ∧ shardBytes (snd r) = shardBytes s - lruBytes k s
  ∧ (∀ key a, items (snd r) !! key = Some a
              ↔ items s !! key = Some a ∧ a ∈ evictList (snd r)).
Proof.
  intros Hok. cbv zeta.
  rewrite (evictLoop_times _ _ _ (ok_wf s Hok)). fold (evictions perShard s).
  assert (evictions perShard s ≤ length (evictList s))%nat as Hle
    by (unfold evictions; lia).
  assert (in_int64 0) as H0 by (unfold in_int64; lia).
  destruct (evictTimes_spec (evictions perShard s) s 0 Hok H0 Hle)
    as (H1 & H2 & H3 & H4 & H5 & H6).
  fold (lruBytes (evictions perShard s) s) in H4, H5.
  pose proof (lruBytes_bounds (evictions perShard s) s Hok) as Hb.
  pose proof (shard_bytes_bound s Hok) as Hsb.
  split; [done|]. split; [done|]. split; [done|]. split; [done|].
  split; [|split; [lia|]].
  - rewrite H4. by rewrite Z.add_0_l.
  - intros key a. rewrite H6, H2. done.
Qed.

Lemma evictShard_unfold perShard totalFreed c i :
  evictShard perShard (totalFreed, c) i
  = (int_add totalFreed
       (fst (evictLoop (Z.to_nat perShard) (shards c !!! i) 0)),
     mkCache
       (vinsert i (snd (evictLoop (Z.to_nat perShard) (shards c !!! i) 0))
                (shards c))
       (int_sub (totalSize c)
          (fst (evictLoop (Z.to_nat perShard) (shards c !!! i) 0)))).
Proof.
  unfold evictShard.
  by destruct (evictLoop (Z.to_nat perShard) (shards c !!! i) 0).
Qed.

(** Each shard the loop of [EvictBatch] visits goes through its own
    eviction loop; the others are left as they are. *)
Lemma evict_fold_shards perShard (l : list (fin NumShards)) totalFreed c i :
  NoDup l →
  shards (snd (foldl (evictShard perShard) (totalFreed, c) l)) !!! i
  = if decide (i ∈ l)
    then snd (evictLoop (Z.to_nat perShard) (shards c !!! i) 0)
    else shards c !!! i.
Proof.
  revert totalFreed c. induction l as [|j l IH]; intros totalFreed c Hnd.
  - cbn [foldl snd]. rewrite decide_False; [done|]. apply not_elem_of_nil.
  - apply NoDup_cons in Hnd as [Hj Hnd]. cbn [foldl].
    rewrite evictShard_unfold. rewrite IH by done. cbn [shards].
    destruct (decide (i ∈ l)) as [Hil|Hil].
    + assert (i ≠ j) as Hne by (intros ->; done).
      rewrite vlookup_insert_ne by done.
      rewrite decide_True; [done|]. by right.
    + destruct (decide (i = j)) as [->|Hne].
      * rewrite vlookup_insert. rewrite decide_True; [done|]. left.
      * rewrite vlookup_insert_ne by done.
        rewrite decide_False; [done|].
        intros Hin. apply elem_of_cons in Hin as [?|?]; done.
Qed.

Lemma evictShard_ok perShard totalFreed c i :
  cache_ok c →
  let r := evictShard perShard (totalFreed, c) i in
  cache_ok (snd r)
  ∧ fst r = wrap64 (totalFreed + (cacheBytes c - cacheBytes (snd r)))
  ∧ cacheBytes (snd r) <= cacheBytes c
  ∧ liveEntries (snd r) <= liveEntries c.
Proof.
  intros Hok. cbv zeta. rewrite evictShard_unfold. simpl fst. simpl snd.
  destruct (evictLoop_spec perShard (shards c !!! i) (ok_shards c Hok i))
    as (_ & Hs' & Hlist & _ & Hfreed & Hbytes & _).
  pose proof (lruBytes_bounds (evictions perShard (shards c !!! i))
                (shards c !!! i) (ok_shards c Hok i)) as Hlru.
  set (r := evictLoop (Z.to_nat perShard) (shards c !!! i) 0) in *.
  assert (cacheBytes
            (mkCache (vinsert i (snd r) (shards c))
                     (int_sub (totalSize c) (fst r)))
          = cacheBytes c
            - lruBytes (evictions perShard (shards c !!! i)) (shards c !!! i))
    as Hcb.
  { unfold cacheBytes. simpl. rewrite sumOf_vinsert. lia. }
  split; [|split; [|split]].
  - apply replace_shard_ok; [done|done|].
    rewrite (ok_total c Hok), Hfreed. unfold int_sub.
    rewrite wrap64_sub_l, wrap64_sub_r. f_equal. lia.
  - rewrite Hcb, Hfreed. unfold int_add. rewrite wrap64_add_r. f_equal. lia.
  - rewrite Hcb. lia.
  - rewrite replace_shard_live.
    assert (entryCount (snd r) <= entryCount (shards c !!! i)); [|lia].
    unfold entryCount. rewrite Hlist, length_take. lia.
Qed.

Lemma evict_fold_ok perShard (l : list (fin NumShards)) totalFreed c :
  cache_ok c → in_int64 totalFreed →
  let r := foldl (evictShard perShard) (totalFreed, c) l in
  cache_ok (snd r)
  ∧ fst r = wrap64 (totalFreed + (cacheBytes c - cacheBytes (snd r)))
  ∧ cacheBytes (snd r) <= cacheBytes c
  ∧ liveEntries (snd r) <= liveEntries c.
Proof.
  revert totalFreed c. induction l as [|j l IH]; intros totalFreed c Hok Hin.
  - simpl. split; [done|]. split; [|lia].
    rewrite Z.sub_diag, Z.add_0_r. symmetry. by apply wrap64_id.
  - cbv zeta. cbn [foldl].
    destruct (evictShard_ok perShard totalFreed c j Hok)
      as (Hok1 & Hf1 & Hb1 & Hl1).
    destruct (evictShard perShard (totalFreed, c) j) as [tf1 c1] eqn:Hstep.
    simpl in Hok1, Hf1, Hb1, Hl1.
    assert (in_int64 tf1) as Hin1 by (rewrite Hf1; apply wrap64_range).
    destruct (IH tf1 c1 Hok1 Hin1) as (Hok2 & Hf2 & Hb2 & Hl2).
    split; [done|]. split; [|lia].
    rewrite Hf2, Hf1. rewrite wrap64_add_l. f_equal. lia.
Qed.

Lemma EvictBatch_ok c count :
  cache_ok c →
  cache_ok (snd (EvictBatch c count))
  ∧ fst (EvictBatch c count)
    = wrap64 (cacheBytes c - cacheBytes (snd (EvictBatch c count)))
  ∧ cacheBytes (snd (EvictBatch c count)) <= cacheBytes c
  ∧ liveEntries (snd (EvictBatch c count)) <= liveEntries c.
Proof.
  intros Hok. unfold EvictBatch.
  assert (in_int64 0) as H0 by (unfold in_int64; lia).
  destruct (evict_fold_ok (perShardQuota count) (fin_enum NumShards) 0 c
              Hok H0) as (H1 & H2 & H3 & H4).
  split; [done|]. split; [|done]. rewrite H2. f_equal; lia.
Qed.

Lemma fin_enum_NoDup n : NoDup (fin_enum n).
Proof.
  induction n as [|n IH]; simpl; constructor.
  - rewrite list_elem_of_fmap. by intros (j & Hj & _).
  - by apply (NoDup_fmap _).
Qed.

Lemma fin_enum_elem n (i : fin n) : i ∈ fin_enum n.
Proof.
  induction i as [|n i IH]; simpl.
  - left.
  - right. apply list_elem_of_fmap. by exists i.
Qed.

Lemma EvictBatch_shards c count i :
  shards (snd (EvictBatch c count)) !!! i
  = snd (evictLoop (Z.to_nat (perShardQuota count)) (shards c !!! i) 0).
Proof.
  unfold EvictBatch.
  rewrite evict_fold_shards by apply fin_enum_NoDup.
  rewrite decide_True; [done|]. apply fin_enum_elem.
Qed.

(** *** Every state the calls reach *)

Lemma run_snoc ops op : run (ops ++ [op]) = step (run ops) op.
Proof. unfold run. by rewrite foldl_snoc. Qed.

Lemma evictOne_ok s :
  shard_ok s →
  shard_ok (snd (evictOne s))
  ∧ shardBytes (snd (evictOne s)) = shardBytes s - fst (evictOne s)
  ∧ 0 <= fst (evictOne s) <= shardBytes s
  ∧ entryCount (snd (evictOne s)) <= entryCount s.
Proof.
  intros Hok. pose proof (shard_bytes_bound s Hok) as Hb.
  destruct (evictList s) as [|x l] eqn:Hl.
  - rewrite evictOne_empty by done. simpl. split; [done|]. lia.
  - assert (evictList s ≠ []) as Hne by (by rewrite Hl).
    destruct (evictOne_step s (ok_wf s Hok) Hne)
      as (l' & e & k & Hl' & Hk & Hev & _).
    destruct (evicted_ok s l' e k Hok Hl' Hk) as [Hok' Hbytes].
    rewrite Hev. cbn [fst snd].
    pose proof (shard_bytes_bound _ Hok') as Hb'.
    assert (0 <= sizeAt s e) as Hpos.
    { apply (ok_sizes s Hok). rewrite Hl'. apply elem_of_app. right. left. }
    split; [done|]. split; [lia|]. split; [lia|].
    unfold entryCount. cbn [evicted evictList]. rewrite Hl', length_app. lia.
Qed.

Lemma evictOneAt_unfold c i :
  evictOneAt c i
  = (fst (evictOne (shards c !!! i)),
     mkCache (vinsert i (snd (evictOne (shards c !!! i))) (shards c))
             (int_sub (totalSize c) (fst (evictOne (shards c !!! i))))).
Proof. unfold evictOneAt. by destruct (evictOne (shards c !!! i)). Qed.

Lemma evictOneAt_ok c i :
  cache_ok c →
  cache_ok (snd (evictOneAt c i))
  ∧ liveEntries (snd (evictOneAt c i)) <= liveEntries c.
Proof.
  intros Hok. rewrite evictOneAt_unfold. cbn [snd].
  destruct (evictOne_ok (shards c !!! i) (ok_shards c Hok i))
    as (Hok' & Hbytes & Hfreed & Hcount).
  split.
  - apply replace_shard_ok; [done|done|].
    rewrite (ok_total c Hok). unfold int_sub. rewrite wrap64_sub_l.
    f_equal. lia.
  - rewrite replace_shard_live. lia.
Qed.

Lemma step_ok c op :
  cache_ok c →
  cache_ok (step c op) ∧ liveEntries (step c op) <= liveEntries c + 1.
Proof.
  intros Hok. destruct op as [key val now|key now|i|count]; cbn [step].
  - by apply Put_ok.
  - destruct (Get_ok c key now Hok) as [H1 H2]. split; [done|lia].
  - destruct (evictOneAt_ok c i Hok) as [H1 H2]. split; [done|lia].
  - destruct (EvictBatch_ok c count Hok) as (H1 & _ & _ & H2).
    split; [done|lia].
Qed.

Lemma run_ok ops :
  cache_ok (run ops) ∧ liveEntries (run ops) <= Z.of_nat (length ops).
Proof.
  induction ops as [|op ops IH] using rev_ind.
  - split; [apply NewShardedCache_ok | vm_compute; discriminate].
  - rewrite run_snoc, length_app. simpl length.
    destruct IH as [Hok Hlive].
    destruct (step_ok (run ops) op Hok) as [H1 H2]. split; [done|lia].
Qed.

Lemma sumOf_wrap64 {A} (f : A → Z) l :
  wrap64 (sumOf (λ x, wrap64 (f x)) l) = wrap64 (sumOf f l).
Proof.
  induction l as [|x l IH]; simpl; [done|].
  rewrite wrap64_add_l. rewrite <- wrap64_add_r, IH, wrap64_add_r. done.
Qed.

Lemma cache_ok_total c : cache_ok c → totalSize c = wrap64 (shardSizes c).
Proof.
  intros Hok. rewrite (ok_total c Hok). unfold shardSizes, cacheBytes.
  rewrite <- sumOf_wrap64. f_equal. apply sumOf_ext.
  intros s Hs. apply elem_of_vlookup in Hs as [i <-].
  symmetry. apply (ok_account _ (ok_shards c Hok i)).
Qed.

(** The elements the index maps the keys to are the elements of the
    recency list, each once. *)
Lemma index_list_perm s :
  shard_wf s → (map_to_list (items s)).*2 ≡ₚ evictList s.
Proof.
  intros Hwf. apply NoDup_Permutation.
  - apply NoDup_fmap_2_strong; [|apply NoDup_map_to_list].
    intros [k1 a1] [k2 a2] H1 H2 Heq. simpl in Heq. subst a2.
    apply elem_of_map_to_list in H1, H2.
    by rewrite (wf_inj s Hwf k1 k2 a1).
  - apply Hwf.
  - intros a. rewrite list_elem_of_fmap. split.
    + intros ([k a'] & -> & Hin). apply elem_of_map_to_list in Hin.
      by apply (wf_index s Hwf k).
    + intros Ha. destruct (wf_listed s Hwf a Ha) as [k Hk].
      exists (k, a). split; [done|]. by apply elem_of_map_to_list.
Qed.

(** *** [evictOne] called on its own *)

Lemma shiftTotal_shards d c : shards (shiftTotal d c) = shards c.
Proof. done. Qed.

Lemma shiftTotal_0 c : in_int64 (totalSize c) → shiftTotal 0 c = c.
Proof.
  intros Hin. destruct c as [v t]. unfold shiftTotal, int_add.
  cbn [shards totalSize] in *. by rewrite Z.add_0_r, wrap64_id.
Qed.

Lemma evict_fold_shift perShard d (l : list (fin NumShards)) totalFreed c :
  foldl (evictShard perShard) (totalFreed, shiftTotal d c) l
  = (fst (foldl (evictShard perShard) (totalFreed, c) l),
     shiftTotal d (snd (foldl (evictShard perShard) (totalFreed, c) l))).
Proof.
  revert totalFreed c. induction l as [|j l IH]; intros totalFreed c.
  - done.
  - cbn [foldl]. rewrite !evictShard_unfold.
    rewrite shiftTotal_shards.
    set (r := evictLoop (Z.to_nat perShard) (shards c !!! j) 0).
    rewrite <- IH. f_equal. f_equal.
    unfold shiftTotal, int_add, int_sub. cbn [shards totalSize]. f_equal.
    rewrite wrap64_sub_l, wrap64_add_l. f_equal; lia.
Qed.

Lemma shiftTotal_step d c op :
  step (shiftTotal d c) op = shiftTotal d (step c op).
Proof.
  destruct op as [key val now|key now|i|count]; cbn [step].
  - destruct (decide (valid key val)) as [Hv|Hv].
    + rewrite !Put_unfold by done. cbn [snd].
      unfold getShard. rewrite shiftTotal_shards.
      unfold shiftTotal, int_add. cbn [shards totalSize]. f_equal.
      rewrite !wrap64_add_l. f_equal; lia.
    + unfold Put. by rewrite Put_check_true.
  - rewrite !Get_unfold. unfold getShard. by rewrite shiftTotal_shards.
  - rewrite !evictOneAt_unfold. cbn [snd]. rewrite shiftTotal_shards.
    unfold shiftTotal, int_add, int_sub. cbn [shards totalSize]. f_equal.
    rewrite wrap64_sub_l, wrap64_add_l. f_equal; lia.
  - unfold EvictBatch. by rewrite evict_fold_shift.
Qed.

Lemma evictOneCall_unfold c i :
  evictOneCall c i
  = (fst (evictOne (shards c !!! i)),
     mkCache (vinsert i (snd (evictOne (shards c !!! i))) (shards c))
             (totalSize c)).
Proof. unfold evictOneCall. by destruct (evictOne (shards c !!! i)). Qed.

Lemma returned_shift d c op : returned (shiftTotal d c) op = returned c op.
Proof.
  destruct op; cbn [returned]; [done|done| |done].
  by rewrite !evictOneCall_unfold, shiftTotal_shards.
Qed.

Lemma call_shift d c op :
  call (shiftTotal d c) op = shiftTotal (d + returned c op) (step c op).
Proof.
  destruct op as [key val now|key now|i|count]; cbn [returned].
  - rewrite Z.add_0_r. apply (shiftTotal_step d c (OpPut key val now)).
  - rewrite Z.add_0_r. apply (shiftTotal_step d c (OpGet key now)).
  - cbn [call step]. rewrite !evictOneCall_unfold, evictOneAt_unfold.
    cbn [fst snd]. rewrite shiftTotal_shards.
    unfold shiftTotal, int_add, int_sub. cbn [shards totalSize]. f_equal.
    rewrite wrap64_add_l. f_equal; lia.
  - rewrite Z.add_0_r. apply (shiftTotal_step d c (OpEvictBatch count)).
Qed.

Lemma calls_shift d c ops :
  foldl call (shiftTotal d c) ops
  = shiftTotal (d + unaccountedFrom (shiftTotal d c) ops) (foldl step c ops).
Proof.
  revert d c. induction ops as [|op ops IH]; intros d c.
  - cbn [foldl unaccountedFrom]. by rewrite Z.add_0_r.
  - cbn [foldl unaccountedFrom]. rewrite returned_shift, call_shift, IH.
    f_equal. lia.
Qed.

Lemma calls_run ops : calls ops = shiftTotal (unaccounted ops) (run ops).
Proof.
  unfold calls, run, unaccounted.
  assert (shiftTotal 0 NewShardedCache = NewShardedCache) as H0
    by (apply shiftTotal_0; change (totalSize NewShardedCache) with 0;
        unfold in_int64; lia).
  rewrite <- H0 at 1 2. rewrite calls_shift. by rewrite H0.
Qed.

Lemma unaccountedFrom_snoc c ops op :
  unaccountedFrom c (ops ++ [op])
  = unaccountedFrom c ops + returned (foldl call c ops) op.
Proof.
  revert c. induction ops as [|o ops IH]; intros c.
  - cbn [app foldl unaccountedFrom]. lia.
  - cbn [app foldl unaccountedFrom]. rewrite IH. lia.
Qed.

Lemma unaccountedFrom_none c ops :
  (∀ i, OpEvictOne i ∉ ops) → unaccountedFrom c ops = 0.
Proof.
  revert c. induction ops as [|op ops IH]; intros c Hno; [done|].
  cbn [unaccountedFrom]. rewrite IH.
  - destruct op as [| |i|]; cbn [returned]; try done.
    exfalso. apply (Hno i). left.
  - intros i Hi. apply (Hno i). by right.
Qed.

Lemma evictOne_count s :
  shard_ok s →
  0 <= fst (evictOne s)
  ∧ fst (evictOne s) + MaxEntrySize * entryCount (snd (evictOne s))
    <= MaxEntrySize * entryCount s.
Proof.
  intros Hok. destruct (evictList s) as [|x l] eqn:Hl.
  - rewrite evictOne_empty by done. cbn [fst snd]. lia.
  - assert (evictList s ≠ []) as Hne by (by rewrite Hl).
    destruct (evictOne_step s (ok_wf s Hok) Hne)
      as (l' & e & k & Hl' & Hk & Hev & _).
    rewrite Hev. cbn [fst snd].
    assert (0 <= sizeAt s e <= MaxEntrySize) as Hsz.
    { apply (ok_sizes s Hok). rewrite Hl'. apply elem_of_app. right. left. }
    unfold entryCount. cbn [evicted evictList].
    rewrite Hl', length_app. cbn [length]. lia.
Qed.

Lemma unaccounted_bound ops :
  0 <= unaccounted ops
  ∧ unaccounted ops + MaxEntrySize * liveEntries (run ops)
    <= MaxEntrySize * Z.of_nat (length ops).
Proof.
  induction ops as [|op ops IH] using rev_ind.
  - split; [done | vm_compute; discriminate].
  - destruct IH as [H0 Hb]. destruct (run_ok ops) as [Hok _].
    unfold unaccounted in *. rewrite unaccountedFrom_snoc.
    fold (calls ops). rewrite calls_run, returned_shift.
    rewrite run_snoc, length_app. cbn [length].
    unfold MaxEntrySize in *.
    destruct op as [key val now|key now|i|count]; cbn [returned].
    + destruct (step_ok (run ops) (OpPut key val now) Hok) as [_ Hl].
      split; lia.
    + destruct (Get_ok (run ops) key now Hok) as [_ Hl].
      cbn [step]. split; lia.
    + cbn [step]. rewrite evictOneCall_unfold, evictOneAt_unfold.
      cbn [fst snd]. rewrite replace_shard_live.
      destruct (evictOne_count _ (ok_shards _ Hok i)) as [Hf Hc].
      unfold MaxEntrySize in Hc. split; lia.
    + destruct (EvictBatch_ok (run ops) count Hok) as (_ & _ & _ & Hl).
      cbn [step]. split; lia.
Qed.

(** C2, corrected. [evictOne] is a method of a shard and leaves
    [totalSize] alone; the bytes it returns are subtracted by
    [EvictBatch], its caller. After every sequence of [Put], [Get],
    [evictOne] and [EvictBatch] calls on a new cache, the [size] field
    of each shard is the sum of the stored sizes of the entries the
    shard holds (the elements of its recency list, which are the
    elements its index maps its keys to), and [totalSize] is the sum of
    the shards' [size] fields plus the bytes the [evictOne] calls of the
    sequence returned. So [totalSize] is the sum of the [size] fields
    after a sequence without such calls, of [Put], [Get] and
    [EvictBatch]. The equalities hold as [int64] values always, and as
    the sums themselves while every entry put, at most 576 bytes each
    and at most one a call, fits an [int64] with the others. *)
Theorem size_accounting (ops : list Op) :
  let c := calls ops in
  (∀ i : fin NumShards,
     let s := shards c !!! i in
     shardSize s = wrap64 (shardBytes s)
     ∧ (map_to_list (items s)).*2 ≡ₚ evictList s
     ∧ shard_wf s)
  ∧ totalSize c = wrap64 (shardSizes c + unaccounted ops)
  ∧ 0 <= unaccounted ops
  ∧ ((∀ i, OpEvictOne i ∉ ops) →
     unaccounted ops = 0 ∧ totalSize c = wrap64 (shardSizes c))
  ∧ (576 * Z.of_nat (length ops) < 2 ^ 63 →
     totalSize c = shardSizes c + unaccounted ops
     ∧ (∀ i : fin NumShards,
          shardSize (shards c !!! i) = shardBytes (shards c !!! i))
     ∧ ((∀ i, OpEvictOne i ∉ ops) →
        totalSize c = shardSizes c ∧ totalSize c = cacheBytes c)).
Proof.
  intros c. destruct (run_ok ops) as [Hok Hlive].
  destruct (unaccounted_bound ops) as [Hu0 Hub]. unfold MaxEntrySize in Hub.
  assert (shards c = shards (run ops)) as Hsh
    by (unfold c; by rewrite calls_run).
  assert (shardSizes c = shardSizes (run ops)) as Hss
    by (unfold shardSizes; by rewrite Hsh).
  assert (cacheBytes c = cacheBytes (run ops)) as Hcb
    by (unfold cacheBytes; by rewrite Hsh).
  assert (totalSize c = wrap64 (shardSizes c + unaccounted ops)) as Htot.
  { unfold c at 1. rewrite calls_run, Hss. unfold shiftTotal, int_add.
    cbn [totalSize]. rewrite (cache_ok_total _ Hok). apply wrap64_add_l. }
  split; [|split; [exact Htot|split; [exact Hu0|split]]].
  - intros i s. unfold s. rewrite Hsh.
    pose proof (ok_shards _ Hok i) as Hs.
    split; [apply Hs|]. split; [apply index_list_perm|]; apply Hs.
  - intros Hno. pose proof (unaccountedFrom_none NewShardedCache ops Hno) as Hz.
    fold (unaccounted ops) in Hz. split; [exact Hz|].
    rewrite Htot, Hz. f_equal; lia.
  - intros Hb.
    assert (MaxEntrySize * liveEntries (run ops) < 2 ^ 63) as Hb0
      by (unfold MaxEntrySize; lia).
    destruct (cache_ok_exact _ Hok Hb0) as (Hshard & Hts & Htc).
    pose proof (cache_bytes_bound _ Hok) as Hcbb. unfold MaxEntrySize in Hcbb.
    assert (totalSize c = shardSizes c + unaccounted ops) as Hexact.
    { rewrite Htot. apply wrap64_id. unfold in_int64.
      rewrite Hss, <- Hts, Htc. lia. }
    split; [exact Hexact|]. split.
    + intros i. rewrite Hsh. apply Hshard.
    + intros Hno.
      pose proof (unaccountedFrom_none NewShardedCache ops Hno) as Hz.
      fold (unaccounted ops) in Hz. rewrite Hexact, Hz, Hss, Hcb.
      split; [lia|]. rewrite <- Hts, Htc. lia.
Qed.

Lemma size_accounting_witness :
  576 * Z.of_nat (length demo_ops) < 2 ^ 63
  ∧ totalSize (calls demo_ops)
    = shardSizes (calls demo_ops) + unaccounted demo_ops
  ∧ ∀ i : fin NumShards,
      shardSize (shards (calls demo_ops) !!! i)
      = shardBytes (shards (calls demo_ops) !!! i).
Proof.
  assert (576 * Z.of_nat (length demo_ops) < 2 ^ 63) as Hlen
    by (vm_compute; reflexivity).
  split; [exact Hlen|].
  destruct (size_accounting demo_ops) as (_ & _ & _ & _ & Hexact).
  destruct (Hexact Hlen) as (Htot & Hsh & _).
  split; [exact Htot | exact Hsh].
Defined.

(** C2, as stated, fails: after [Put("a", "x")] and a call of
    [evictOne] on the shard of "a", the cache holds nothing and every
    shard's [size] is 0, but [totalSize] is still the 66 bytes of the
    entry. *)
Lemma size_accounting_counterexample :
  totalSize (calls put_then_evictOne) = 66
  ∧ shardSizes (calls put_then_evictOne) = 0
  ∧ liveEntries (calls put_then_evictOne) = 0
  ∧ unaccounted put_then_evictOne = 66
  ∧ ¬ (∀ ops : list Op,
         totalSize (calls ops) = wrap64 (shardSizes (calls ops))).
Proof.
  assert (totalSize (calls put_then_evictOne) = 66) as Ht
    by (vm_compute; reflexivity).
  assert (shardSizes (calls put_then_evictOne) = 0) as Hs
    by (vm_compute; reflexivity).
  split; [exact Ht|]. split; [exact Hs|].
  split; [vm_compute; reflexivity|]. split; [vm_compute; reflexivity|].
  intros Hall. specialize (Hall put_then_evictOne).
  rewrite Ht, Hs in Hall. vm_compute in Hall. discriminate.
Qed.

(** The same calls with the subtraction of [EvictBatch] after each
    [evictOne], and with [evictOne] alone. *)
Example size_accounting_demo :
  totalSize (run demo_ops) = 133 ∧ shardSizes (run demo_ops) = 133
  ∧ cacheBytes (run demo_ops) = 133
  ∧ totalSize (calls demo_ops) = 204 ∧ shardSizes (calls demo_ops) = 133
  ∧ cacheBytes (calls demo_ops) = 133 ∧ unaccounted demo_ops = 71.
Proof. vm_compute. repeat split. Qed.

(** *** The quota of EvictBatch *)

Lemma perShardQuota_max count :
  in_int64 count → perShardQuota count = Z.max 1 (Z.quot count 32).
Proof.
  intros Hc. unfold perShardQuota, int_div.
  change (Z.of_nat NumShards) with 32.
  assert (in_int64 (Z.quot count 32)) as Hq.
  { unfold in_int64 in *. pose proof (Z.quot_rem' count 32) as Hqr.
    pose proof (Z.rem_bound_abs count 32 ltac:(lia)). lia. }
  rewrite (wrap64_id _ Hq).
  destruct (Z.ltb_spec (Z.quot count 32) 1); lia.
Qed.

Lemma EvictBatch_shards_map c count :
  shards (snd (EvictBatch c count))
  = vmap (λ s, snd (evictLoop (Z.to_nat (perShardQuota count)) s 0))
         (shards c).
Proof.
  apply vec_eq. intros i. rewrite vlookup_map. apply EvictBatch_shards.
Qed.

Lemma EvictBatch_bytes c count :
  cache_ok c →
  cacheBytes (snd (EvictBatch c count))
  = cacheBytes c
    - sumOf (λ s, lruBytes (evictions (perShardQuota count) s) s)
            (vec_to_list (shards c)).
Proof.
  intros Hok. unfold cacheBytes at 1.
  rewrite EvictBatch_shards_map, vec_to_list_map.
  change (fmap ?f ?l) with (map f l). rewrite sumOf_map.
  unfold cacheBytes. rewrite <- sumOf_sub.
  apply sumOf_ext. intros s Hs. apply elem_of_vlookup in Hs as [i <-].
  by destruct (evictLoop_spec (perShardQuota count) (shards c !!! i)
                 (ok_shards c Hok i)) as (_ & _ & _ & _ & _ & Hb & _).
Qed.

Lemma EvictBatch_live c count :
  cache_ok c →
  liveEntries (snd (EvictBatch c count))
  = liveEntries c
    - sumOf (λ s, Z.of_nat (evictions (perShardQuota count) s))
            (vec_to_list (shards c)).
Proof.
  intros Hok. unfold liveEntries at 1.
  rewrite EvictBatch_shards_map, vec_to_list_map.
  change (fmap ?f ?l) with (map f l). rewrite sumOf_map.
  unfold liveEntries. rewrite <- sumOf_sub.
  apply sumOf_ext. intros s Hs. apply elem_of_vlookup in Hs as [i <-].
  destruct (evictLoop_spec (perShardQuota count) (shards c !!! i)
              (ok_shards c Hok i)) as (_ & _ & Hl & _).
  unfold entryCount. rewrite Hl, length_take. unfold evictions. lia.
Qed.

(** C5. [EvictBatch(count)] gives every shard the quota
    [max(1, count / NumShards)] and calls [evictOne] on it that many
    times, or as many times as the shard has entries when those are
    fewer (so it stops early only on a shard it has emptied): the shard
    loses that many of its least recently used entries, from the list
    and from the index. The value returned is the sum over the shards of
    the sizes of the entries removed, and [totalSize] is decremented by
    exactly that sum. The call always returns: a cache with fewer
    entries than the quotas ask for loses the entries it has and yields
    the smaller sum. *)
Theorem EvictBatch_quota (ops : list Op) (count : Z) :
  576 * Z.of_nat (length ops) < 2 ^ 63 → in_int64 count →
  let c := run ops in
  let perShard := Z.max 1 (Z.quot count 32) in
  let quota (s : Shard) :=
    (Z.to_nat perShard `min` length (evictList s))%nat in
  let freed := fst (EvictBatch c count) in
  let c' := snd (EvictBatch c count) in
  perShardQuota count = perShard
  ∧ (∀ i : fin NumShards,
       let s := shards c !!! i in
       let s' := shards c' !!! i in
       s' = snd (evictTimes (quota s) s 0)
       ∧ evictList s' = take (length (evictList s) - quota s) (evictList s)
       ∧ ((quota s < Z.to_nat perShard)%nat → evictList s' = [])
       ∧ (∀ key a, items s' !! key = Some a
                   ↔ items s !! key = Some a ∧ a ∈ evictList s'))
  ∧ freed = sumOf (λ s, lruBytes (quota s) s) (vec_to_list (shards c))
  ∧ totalSize c' = totalSize c - freed
  ∧ 0 <= freed <= totalSize c
  ∧ liveEntries c'
    = liveEntries c
      - sumOf (λ s, Z.of_nat (quota s)) (vec_to_list (shards c)).
Proof.
  intros Hlen Hcount c perShard quota freed c'.
  destruct (run_ok ops) as [Hok Hlive]. fold c in Hok, Hlive.
  pose proof (perShardQuota_max count Hcount) as Hq. fold perShard in Hq.
  split; [done|].
  assert (MaxEntrySize * liveEntries c < 2 ^ 63) as Hb
    by (unfold MaxEntrySize; lia).
  destruct (EvictBatch_ok c count Hok) as (Hok' & Hfreed & Hle & Hlive').
  fold c' in Hok', Hle, Hlive', Hfreed. fold freed in Hfreed.
  assert (MaxEntrySize * liveEntries c' < 2 ^ 63) as Hb'
    by (unfold MaxEntrySize in *; lia).
  destruct (cache_ok_exact c Hok Hb) as (_ & _ & Htot).
  destruct (cache_ok_exact c' Hok' Hb') as (_ & _ & Htot').
  pose proof (cache_bytes_bound c Hok) as Hcb.
  pose proof (cache_bytes_bound c' Hok') as Hcb'.
  pose proof (EvictBatch_bytes c count Hok) as Hbytes.
  fold c' in Hbytes. rewrite Hq in Hbytes.
  assert (freed = cacheBytes c - cacheBytes c') as Hfr.
  { rewrite Hfreed. apply wrap64_id. unfold in_int64. lia. }
  split; [|split; [|split; [|split]]].
  - intros i s s'.
    assert (s' = snd (evictLoop (Z.to_nat perShard) s 0)) as Hs'.
    { unfold s', c'. rewrite EvictBatch_shards. by rewrite Hq. }
    destruct (evictLoop_spec perShard s (ok_shards c Hok i))
      as (Hr & _ & Hlist & _ & _ & _ & Hitems).
    rewrite <- Hs' in Hlist, Hitems.
    change (evictions perShard s) with (quota s) in *.
    split; [by rewrite Hs', Hr|]. split; [done|]. split; [|done].
    intros Hlt. rewrite Hlist.
    assert (quota s = length (evictList s)) as -> by (unfold quota in *; lia).
    by rewrite Nat.sub_diag, take_0.
  - rewrite Hfr, Hbytes.
    change (λ s, lruBytes (evictions perShard s) s)
      with (λ s, lruBytes (quota s) s). lia.
  - lia.
  - lia.
  - unfold c'. rewrite (EvictBatch_live c count Hok), Hq. done.
Qed.

Lemma EvictBatch_quota_witness :
  576 * Z.of_nat (length demo_ops) < 2 ^ 63 ∧ in_int64 100
  ∧ perShardQuota 100 = Z.max 1 (Z.quot 100 32)
  ∧ totalSize (snd (EvictBatch (run demo_ops) 100))
    = totalSize (run demo_ops) - fst (EvictBatch (run demo_ops) 100).
Proof.
  assert (576 * Z.of_nat (length demo_ops) < 2 ^ 63) as Hlen
    by (vm_compute; reflexivity).
  assert (in_int64 100) as Hc by (unfold in_int64; lia).
  split; [exact Hlen|]. split; [exact Hc|].
  pose proof (EvictBatch_quota demo_ops 100 Hlen Hc)
    as (Hq & _ & _ & Htot & _ & _).
  split; [exact Hq | exact Htot].
Defined.

(** The batch target of the memory monitor asks three entries of every
    shard; a negative or small target asks one; an empty cache frees
    nothing. *)
Example EvictBatch_examples :
  perShardQuota EvictionBatchSize = 3 ∧ perShardQuota 1 = 1
  ∧ perShardQuota (- 100) = 1 ∧ perShardQuota 64 = 2
  ∧ EvictBatch NewShardedCache 100 = (0, NewShardedCache)
  ∧ fst (EvictBatch (run demo_ops) 100) = 133
  ∧ totalSize (snd (EvictBatch (run demo_ops) 100)) = 0.
Proof. vm_compute. repeat split. Qed.

(** ** Recency *)

Lemma getShard_Put_same c key val now key' :
  valid key val → shardSlot key' = shardSlot key →
  getShard (snd (Put c key val now)) key'
  = putShard key val now (getShard c key').
Proof.
  intros Hv Hs. rewrite Put_unfold by done. unfold getShard. cbn [snd shards].
  rewrite Hs. apply vlookup_insert.
Qed.

Lemma getShard_Get_same c key now key' :
  shardSlot key' = shardSlot key →
  getShard (snd (Get c key now)) key' = touchShard key now (getShard c key').
Proof.
  intros Hs. rewrite Get_unfold. unfold getShard. cbn [shards].
  rewrite Hs. apply vlookup_insert.
Qed.

Lemma fresh_ne {V} (m : gmap addr V) a :
  is_Some (m !! a) → fresh (dom m) ≠ a.
Proof.
  intros Ha Heq. apply elem_of_dom in Ha. rewrite <- Heq in Ha.
  by apply (is_fresh (dom m)).
Qed.

Lemma empty_shard_wf s : items s = ∅ → evictList s = [] → shard_wf s.
Proof.
  intros Hi Hl. split; rewrite ?Hi, ?Hl.
  - apply NoDup_nil_2.
  - intros key a H. by rewrite lookup_empty in H.
  - intros a H. by apply elem_of_nil in H.
  - intros k1 k2 a H. by rewrite lookup_empty in H.
  - intros a H. by apply elem_of_nil in H.
Qed.

(** C6. Three distinct keys A, B, C of one shard are put in that order
    into a cache whose shard for them is empty; after [Get(A)] the
    recency list of the shard reads A, C, B from the front, and one
    [evictOne] on the shard removes B: it frees the bytes of B's entry,
    B leaves the index and the list, A and C stay. *)
Theorem recency_promotion (c : ShardedCache) (A B C vA vB vC : string)
    (t1 t2 t3 t4 : Z) :
  A ≠ B → A ≠ C → B ≠ C →
  valid A vA → valid B vB → valid C vC →
  shardIndex B = shardIndex A → shardIndex C = shardIndex A →
  items (getShard c A) = ∅ → evictList (getShard c A) = [] →
  let c1 := snd (Put c A vA t1) in
  let c2 := snd (Put c1 B vB t2) in
  let c3 := snd (Put c2 C vC t3) in
  let c4 := snd (Get c3 A t4) in
  let shard := getShard c4 A in
  let shard' := snd (evictOne shard) in
  ∃ a b c0 : addr,
    items shard = <[C := c0]> (<[B := b]> (<[A := a]> ∅))
    ∧ evictList shard = [a; c0; b]
    ∧ fst (evictOne shard) = len B + len vB + 64
    ∧ items shard' = delete B (items shard)
    ∧ evictList shard' = [a; c0]
    ∧ items shard' !! A = Some a
    ∧ items shard' !! C = Some c0
    ∧ items shard' !! B = None.
Proof.
  intros HAB HAC HBC HvA HvB HvC HiB HiC Hitems Hlist c1 c2 c3 c4 shard shard'.
  assert (shardSlot B = shardSlot A) as HsB by (unfold shardSlot; by rewrite HiB).
  assert (shardSlot C = shardSlot A) as HsC by (unfold shardSlot; by rewrite HiC).
  assert (shard = touchShard A t4 (putShard C vC t3 (putShard B vB t2
                    (putShard A vA t1 (getShard c A))))) as Hshard.
  { unfold shard, c4, c3, c2, c1.
    rewrite getShard_Get_same by done.
    rewrite getShard_Put_same by (done || by symmetry).
    rewrite getShard_Put_same by (done || by symmetry).
    by rewrite getShard_Put_same. }
  assert (shard_wf shard) as Hwf.
  { rewrite Hshard. apply touchShard_wf. do 3 apply putShard_wf.
    by apply empty_shard_wf. }
  destruct (getShard c A) as [its l n z]. cbn [items evictList] in *.
  subst its l.
  set (a := fresh (dom n)).
  set (eA := mkEntry vA t1 (len A + len vA + 64)).
  set (b := fresh (dom (<[a := eA]> n))).
  set (eB := mkEntry vB t2 (len B + len vB + 64)).
  set (c0 := fresh (dom (<[b := eB]> (<[a := eA]> n)))).
  set (eC := mkEntry vC t3 (len C + len vC + 64)).
  assert (b ≠ a) as Hba.
  { apply fresh_ne. rewrite lookup_insert_eq. by eexists. }
  assert (c0 ≠ b) as Hcb.
  { apply fresh_ne. rewrite lookup_insert_eq. by eexists. }
  assert (c0 ≠ a) as Hca.
  { apply fresh_ne. rewrite lookup_insert_ne by done.
    rewrite lookup_insert_eq. by eexists. }
  assert (items shard = <[C := c0]> (<[B := b]> (<[A := a]> ∅))
          ∧ evictList shard = [a; c0] ++ [b]
          ∧ sizeAt shard b = len B + len vB + 64) as (Hi & Hl & Hsz).
  { assert (putShard A vA t1 (mkShard ∅ [] n z)
            = mkShard (<[A := a]> ∅) [a] (<[a := eA]> n)
                      (int_add z (len A + len vA + 64))) as H1.
    { unfold putShard. cbn [items evictList nodes shardSize].
      by rewrite lookup_empty. }
    assert (∀ z1, putShard B vB t2 (mkShard (<[A := a]> ∅) [a] (<[a := eA]> n) z1)
            = mkShard (<[B := b]> (<[A := a]> ∅)) [b; a]
                      (<[b := eB]> (<[a := eA]> n))
                      (int_add z1 (len B + len vB + 64))) as H2.
    { intros z1. unfold putShard. cbn [items evictList nodes shardSize].
      by rewrite lookup_insert_ne, lookup_empty by done. }
    assert (∀ z2, putShard C vC t3
                    (mkShard (<[B := b]> (<[A := a]> ∅)) [b; a]
                             (<[b := eB]> (<[a := eA]> n)) z2)
            = mkShard (<[C := c0]> (<[B := b]> (<[A := a]> ∅))) [c0; b; a]
                      (<[c0 := eC]> (<[b := eB]> (<[a := eA]> n)))
                      (int_add z2 (len C + len vC + 64))) as H3.
    { intros z2. unfold putShard. cbn [items evictList nodes shardSize].
      by rewrite !lookup_insert_ne, lookup_empty by done. }
    rewrite Hshard, H1, H2, H3. unfold touchShard.
    cbn [items evictList nodes shardSize].
    rewrite !lookup_insert_ne, lookup_insert_eq by done.
    cbn [items evictList nodes shardSize]. split; [done|]. split.
    - unfold list_MoveToFront, list_Remove.
      rewrite decide_True by (right; right; left).
      rewrite filter_cons_True by done.
      rewrite filter_cons_True by done.
      rewrite filter_cons_False by (intros Hn; by apply Hn).
      by rewrite filter_nil.
    - unfold sizeAt. cbn [nodes].
      rewrite lookup_total_insert_ne by done.
      rewrite lookup_total_insert_ne by done.
      by rewrite lookup_total_insert_eq. }
  assert (items shard !! B = Some b) as HB.
  { rewrite Hi. rewrite lookup_insert_ne by done. by rewrite lookup_insert_eq. }
  pose proof (evictOne_spec shard [a; c0] b B Hwf Hl HB) as Hev.
  exists a, b, c0. unfold shard'. rewrite Hev. cbn [fst snd evicted items evictList].
  split; [done|]. split; [done|]. split; [done|]. split; [done|].
  split; [done|]. rewrite Hi.
  split; [|split].
  - rewrite lookup_delete_ne by done. rewrite !lookup_insert_ne by done.
    by rewrite lookup_insert_eq.
  - rewrite lookup_delete_ne by done. by rewrite lookup_insert_eq.
  - by rewrite lookup_delete_eq.
Qed.

Lemma recency_promotion_witness :
  ("a" ≠ "A" ∧ "a" ≠ "!" ∧ "A" ≠ "!")
  ∧ (valid "a" "x" ∧ valid "A" "y" ∧ valid "!" "z")
  ∧ (shardIndex "A" = shardIndex "a" ∧ shardIndex "!" = shardIndex "a")
  ∧ (items (getShard NewShardedCache "a") = ∅
     ∧ evictList (getShard NewShardedCache "a") = [])
  ∧ items
      (snd (evictOne
              (getShard
                 (snd (Get
                         (snd (Put
                                 (snd (Put
                                         (snd (Put NewShardedCache "a" "x" 1))
                                         "A" "y" 2))
                                 "!" "z" 3))
                         "a" 4))
                 "a")))
    !! "A" = None.
Proof.
  assert ("a" ≠ "A" ∧ "a" ≠ "!" ∧ "A" ≠ "!") as Hne by (repeat split; discriminate).
  assert (valid "a" "x" ∧ valid "A" "y" ∧ valid "!" "z") as Hv
    by (repeat split; vm_compute; discriminate).
  assert (shardIndex "A" = shardIndex "a" ∧ shardIndex "!" = shardIndex "a")
    as Hi by (split; vm_compute; reflexivity).
  assert (items (getShard NewShardedCache "a") = ∅
          ∧ evictList (getShard NewShardedCache "a") = []) as He
    by (split; vm_compute; reflexivity).
  split; [exact Hne|]. split; [exact Hv|]. split; [exact Hi|].
  split; [exact He|].
  destruct Hne as (H1 & H2 & H3). destruct Hv as (V1 & V2 & V3).
  destruct Hi as (I1 & I2). destruct He as (E1 & E2).
  destruct (recency_promotion NewShardedCache "a" "A" "!" "x" "y" "z" 1 2 3 4
              H1 H2 H3 V1 V2 V3 I1 I2 E1 E2)
    as (a & b & c0 & _ & _ & _ & _ & _ & _ & _ & HB).
  exact HB.
Defined.

Example recency_promotion_demo :
  let c := snd (Get (snd (Put (snd (Put (snd (Put NewShardedCache
             "a" "x" 1)) "A" "y" 2)) "!" "z" 3)) "a" 4) in
  map_to_list (items (snd (evictOne (getShard c "a"))))
  = [("a", 0%nat); ("!", 2%nat)]
  ∧ evictList (getShard c "a") = [0; 2; 1]%nat
  ∧ evictList (snd (evictOne (getShard c "a"))) = [0; 2]%nat
  ∧ fst (evictOne (getShard c "a")) = 66.
Proof. vm_compute. repeat split. Qed.

(** ** Overwriting a key *)

Lemma vinsert_vinsert {A n} (i : fin n) (x y : A) (v : vec A n) :
  vinsert i x (vinsert i y v) = vinsert i x v.
Proof.
  apply vec_eq. intros j. destruct (decide (i = j)) as [->|Hne].
  - by rewrite !vlookup_insert.
  - by rewrite !vlookup_insert_ne.
Qed.

Lemma list_MoveToFront_front e (l : list addr) :
  e ∉ l → list_MoveToFront e (e :: l) = e :: l.
Proof.
  intros He. unfold list_MoveToFront. rewrite decide_True by left.
  unfold list_Remove. rewrite filter_cons_False by (intros Hn; by apply Hn).
  fold (list_Remove e l). by rewrite list_Remove_absent.
Qed.

Lemma list_MoveToFront_twice e (l : list addr) :
  list_MoveToFront e (list_MoveToFront e l) = list_MoveToFront e l.
Proof.
  destruct (decide (e ∈ l)) as [He|He].
  - rewrite (list_MoveToFront_in e l He).
    apply list_MoveToFront_front. unfold list_Remove.
    rewrite list_elem_of_filter. intros [Hne _]. by apply Hne.
  - assert (list_MoveToFront e l = l) as Hid
      by (unfold list_MoveToFront; by rewrite decide_False).
    by rewrite !Hid.
Qed.

(** The shard after [Put(k, v1)] and [Put(k, v2)] is the shard after
    [Put(k, v2)] alone. *)
Lemma putShard_twice k v1 v2 t1 t2 s :
  shard_ok s → valid k v1 → valid k v2 →
  putShard k v2 t2 (putShard k v1 t1 s) = putShard k v2 t2 s.
Proof.
  intros Hok Hv1 Hv2.
  destruct (entry_size_exact k v1 Hv1) as [_ Hs1].
  destruct (entry_size_exact k v2 Hv2) as [_ Hs2].
  unfold MaxEntrySize in *.
  unfold putShard at 2. destruct (items s !! k) as [e|] eqn:Hfound.
  - assert (0 <= sizeAt s e <= 576) as Hold.
    { apply (ok_sizes s Hok). by apply (wf_index s (ok_wf s Hok) k). }
    unfold putShard. cbn [items evictList nodes shardSize]. rewrite Hfound.
    rewrite list_MoveToFront_twice, insert_insert_eq.
    f_equal. rewrite sizeAt_insert_eq. cbn [entrySize].
    unfold int_add, int_sub.
    rewrite (wrap64_id (len k + len v1 + 64 - sizeAt s e))
      by (unfold in_int64; lia).
    rewrite (wrap64_id (len k + len v2 + 64 - sizeAt s e))
      by (unfold in_int64; lia).
    rewrite (wrap64_id (len k + len v2 + 64 - (len k + len v1 + 64)))
      by (unfold in_int64; lia).
    rewrite wrap64_add_l. f_equal; lia.
  - pose proof (newElement_fresh s (ok_wf s Hok)) as Hfresh.
    unfold putShard. cbn [items evictList nodes shardSize].
    rewrite lookup_insert_eq, Hfound.
    unfold list_PushFront. rewrite list_MoveToFront_front by done.
    rewrite insert_insert_eq.
    f_equal. rewrite sizeAt_insert_eq. cbn [entrySize].
    unfold int_add, int_sub.
    rewrite (wrap64_id (len k + len v2 + 64 - (len k + len v1 + 64)))
      by (unfold in_int64; lia).
    rewrite wrap64_add_l. f_equal; lia.
Qed.

Lemma putDelta_twice k v1 v2 t1 s :
  shard_ok s → valid k v1 → valid k v2 →
  putDelta k v1 s + putDelta k v2 (putShard k v1 t1 s) = putDelta k v2 s.
Proof.
  intros Hok Hv1 Hv2.
  destruct (entry_size_exact k v1 Hv1) as [_ Hs1].
  destruct (entry_size_exact k v2 Hv2) as [_ Hs2].
  unfold MaxEntrySize in *.
  unfold putDelta, putShard. destruct (items s !! k) as [e|] eqn:Hfound.
  - cbn [items]. rewrite Hfound, sizeAt_insert_eq. cbn [entrySize].
    assert (0 <= sizeAt s e <= 576) as Hold.
    { apply (ok_sizes s Hok). by apply (wf_index s (ok_wf s Hok) k). }
    unfold int_sub. rewrite !wrap64_id by (unfold in_int64; lia). lia.
  - cbn [items]. rewrite lookup_insert_eq, sizeAt_insert_eq. cbn [entrySize].
    unfold int_sub. rewrite !wrap64_id by (unfold in_int64; lia). lia.
Qed.

Lemma Put_twice c k v1 v2 t1 t2 :
  cache_ok c → valid k v1 → valid k v2 →
  snd (Put (snd (Put c k v1 t1)) k v2 t2) = snd (Put c k v2 t2).
Proof.
  intros Hok Hv1 Hv2.
  rewrite (Put_unfold (snd (Put c k v1 t1))) by done.
  rewrite getShard_Put_same by done.
  rewrite !(Put_unfold c) by done. cbn [snd shards totalSize].
  rewrite vinsert_vinsert.
  rewrite putShard_twice by (done || apply Hok).
  f_equal. unfold int_add. rewrite wrap64_add_l.
  rewrite <- (putDelta_twice k v1 v2 t1 (getShard c k)) by (done || apply Hok).
  f_equal; lia.
Qed.

Lemma putShard_entry k v t s :
  shard_wf s →
  ∃ e, items (putShard k v t s) !! k = Some e
       ∧ nodes (putShard k v t s) !! e = Some (mkEntry v t (len k + len v + 64))
       ∧ e ∈ evictList (putShard k v t s).
Proof.
  intros Hwf. unfold putShard. destruct (items s !! k) as [e|] eqn:Hfound.
  - exists e. cbn [items nodes evictList]. split; [done|].
    split; [by rewrite lookup_insert_eq|].
    apply list_MoveToFront_elem. by apply (wf_index s Hwf k).
  - exists (newElement s). cbn [items nodes evictList].
    split; [by rewrite lookup_insert_eq|].
    split; [by rewrite lookup_insert_eq | left].
Qed.

(** C9. After [Put(k, v1)] and [Put(k, v2)], with the key and the values
    within the limits, the shard of [k] holds one entry for [k]: one
    element of the recency list, which no other key maps to, with the
    value [v2] and the size [len(k) + len(v2) + 64]. The counters are
    those before the two calls, less the size [k] had stored then, plus
    that one size (the size for [v1] is not in them); they are the sums
    of the sizes held, and the cache is the one [Put(k, v2)] alone would
    have left. *)
Theorem Put_overwrite (ops : list Op) (k v1 v2 : string) (t1 t2 : Z) :
  576 * (Z.of_nat (length ops) + 2) < 2 ^ 63 →
  len k <= 256 → len v1 <= 256 → len v2 <= 256 →
  let c := run ops in
  let c2 := snd (Put (snd (Put c k v1 t1)) k v2 t2) in
  let shard := getShard c2 k in
  let size2 := len k + len v2 + 64 in
  (∃ element : addr,
     items shard !! k = Some element
     ∧ nodes shard !! element = Some (mkEntry v2 t2 size2)
     ∧ element ∈ evictList shard
     ∧ NoDup (evictList shard)
     ∧ ∀ k', items shard !! k' = Some element → k' = k)
  ∧ shardSize shard
    = shardSize (getShard c k) - storedSize (getShard c k) k + size2
  ∧ totalSize c2 = totalSize c - storedSize (getShard c k) k + size2
  ∧ shardSize shard = shardBytes shard
  ∧ totalSize c2 = shardSizes c2
  ∧ c2 = snd (Put c k v2 t2).
Proof.
  intros Hlen Hk Hv1 Hv2 c c2 shard size2.
  assert (valid k v1) as Hval1 by (split; done).
  assert (valid k v2) as Hval2 by (split; done).
  destruct (run_ok ops) as [Hok Hlive]. fold c in Hok, Hlive.
  assert (c2 = snd (Put c k v2 t2)) as Hc2 by (by apply Put_twice).
  destruct (Put_ok c k v2 t2 Hok) as [Hok2 Hlive2]. rewrite <- Hc2 in *.
  assert (MaxEntrySize * liveEntries c < 2 ^ 63) as Hb
    by (unfold MaxEntrySize; lia).
  assert (MaxEntrySize * liveEntries c2 < 2 ^ 63) as Hb2
    by (unfold MaxEntrySize; lia).
  destruct (cache_ok_exact c Hok Hb) as (Hsh & _ & Htot).
  destruct (cache_ok_exact c2 Hok2 Hb2) as (Hsh2 & Htot2 & Htotb2).
  pose proof (ok_shards c Hok (shardSlot k)) as Hsok.
  fold (getShard c k) in Hsok.
  assert (shard = putShard k v2 t2 (getShard c k)) as Hshard.
  { unfold shard. rewrite Hc2. by rewrite getShard_Put_same. }
  destruct (putShard_ok k v2 t2 (getShard c k) Hval2 Hsok) as [Hsok2 Hbytes].
  rewrite <- Hshard in Hsok2, Hbytes.
  assert (putDelta k v2 (getShard c k)
          = size2 - storedSize (getShard c k) k) as Hdelta.
  { unfold putDelta, storedSize.
    destruct (entry_size_exact k v2 Hval2) as [_ Hs2].
    unfold MaxEntrySize in *. fold size2 in Hs2 |- *.
    destruct (items (getShard c k) !! k) as [e|] eqn:Hfound; [|lia].
    assert (0 <= sizeAt (getShard c k) e <= 576) as Hold.
    { apply (ok_sizes _ Hsok). by apply (wf_index _ (ok_wf _ Hsok) k). }
    unfold int_sub. apply wrap64_id. unfold in_int64. lia. }
  assert (shardSize shard = shardBytes shard) as Hexact by apply Hsh2.
  split; [|split; [|split; [|split; [|split]]]]; try done.
  - destruct (putShard_entry k v2 t2 (getShard c k) (ok_wf _ Hsok))
      as (e & He1 & He2 & He3).
    rewrite <- Hshard in He1, He2, He3. exists e.
    split; [done|]. split; [done|]. split; [done|].
    split; [apply (ok_wf _ Hsok2)|].
    intros k' Hk'. by apply (wf_inj _ (ok_wf _ Hsok2) k' k e).
  - rewrite Hexact, Hbytes, Hdelta.
    pose proof (Hsh (shardSlot k)) as Hs0. fold (getShard c k) in Hs0. lia.
  - rewrite Htotb2, Htot. rewrite Hc2, Put_unfold by done.
    unfold cacheBytes at 1. cbn [snd shards]. rewrite sumOf_vinsert.
    fold (cacheBytes c). fold (getShard c k).
    rewrite <- Hshard, Hbytes, Hdelta. lia.
Qed.

Lemma Put_overwrite_witness :
  576 * (Z.of_nat (length demo_ops) + 2) < 2 ^ 63
  ∧ (len "a" <= 256 ∧ len "first" <= 256 ∧ len "second value" <= 256)
  ∧ totalSize (snd (Put (snd (Put (run demo_ops) "a" "first" 8))
                        "a" "second value" 9))
    = totalSize (run demo_ops)
      - storedSize (getShard (run demo_ops) "a") "a"
      + (len "a" + len "second value" + 64).
Proof.
  assert (576 * (Z.of_nat (length demo_ops) + 2) < 2 ^ 63) as Hlen
    by (vm_compute; reflexivity).
  assert (len "a" <= 256) as Hk by (vm_compute; discriminate).
  assert (len "first" <= 256) as H1 by (vm_compute; discriminate).
  assert (len "second value" <= 256) as H2 by (vm_compute; discriminate).
  split; [exact Hlen|]. split; [repeat split; assumption|].
  pose proof (Put_overwrite demo_ops "a" "first" "second value" 8 9
                Hlen Hk H1 H2) as (_ & _ & Htot & _).
  exact Htot.
Defined.

Example Put_overwrite_new :
  let c := snd (Put (snd (Put NewShardedCache "k" "first" 1)) "k" "2nd" 2) in
  totalSize c = 1 + 3 + 64
  ∧ shardSize (getShard c "k") = 1 + 3 + 64
  ∧ map_to_list (items (getShard c "k")) = [("k", 0%nat)]
  ∧ evictList (getShard c "k") = [0%nat]
  ∧ nodes (getShard c "k") !! 0%nat = Some (mkEntry "2nd" 2 68).
Proof. vm_compute. repeat split. Qed.

(** ** How evictOne finds the key *)

Lemma filter_ne_perm {A} `{EqDecision A} (x : A) (l : list A) :
  NoDup l → x ∈ l → filter (λ y, y ≠ x) l ++ [x] ≡ₚ l.
Proof.
  induction l as [|y l IH]; intros Hnd Hx.
  - by apply elem_of_nil in Hx.
  - apply NoDup_cons in Hnd as [Hy Hnd].
    destruct (decide (y = x)) as [->|Hne].
    + rewrite filter_cons_False by (intros Hn; by apply Hn).
      assert (filter (λ y, y ≠ x) l = l) as ->.
      { clear -Hy. induction l as [|z l IH]; [done|].
        apply not_elem_of_cons in Hy as [Hz Hl].
        rewrite filter_cons_True by congruence. by rewrite IH. }
      by rewrite Permutation_app_comm.
    + rewrite filter_cons_True by done.
      apply elem_of_cons in Hx as [->|Hx]; [done|].
      simpl. by rewrite IH.
Qed.

Lemma worstOrder_perm m key e :
  m !! key = Some e → worstOrder m key e ≡ₚ map_to_list m.
Proof.
  intros Hk. apply filter_ne_perm; [apply NoDup_map_to_list|].
  by apply elem_of_map_to_list.
Qed.

Lemma worstOrder_visits m key e :
  (∀ k1 k2 a, m !! k1 = Some a → m !! k2 = Some a → k1 = k2) →
  m !! key = Some e →
  scanIndex (worstOrder m key e) e = (Some key, size m).
Proof.
  intros Hinj Hk. unfold worstOrder. rewrite scanIndex_worst.
  - f_equal. rewrite <- length_map_to_list.
    rewrite <- (Permutation_length (worstOrder_perm m key e Hk)).
    unfold worstOrder. rewrite length_app. simpl. lia.
  - intros k' a Hin Ha. subst a.
    apply list_elem_of_filter in Hin as [Hne Hin].
    apply elem_of_map_to_list in Hin. apply Hne. f_equal.
    by apply (Hinj k' key e).
Qed.

(** C4, as the code has it. [CacheEntry] holds the value, the timestamp
    and the size, and no key: the entry [Put] stores depends on the key
    through its length alone. [evictOne] finds the key to delete from
    the index by looking for the element it removed from the list:
    whatever the iteration order of the index, it deletes the one key
    mapped to that element, after visiting at most as many index
    entries as the shard has keys, and all of them when that key comes
    last. *)
Theorem evictOne_scans_index (ops : list Op) (i : fin NumShards)
    (l' : list addr) (e : addr) :
  let shard := shards (run ops) !!! i in
  evictList shard = l' ++ [e] →
  (∃ key,
     items shard !! key = Some e
     ∧ (∀ k', items shard !! k' = Some e → k' = key)
     ∧ (∀ order, order ≡ₚ map_to_list (items shard) →
          evictOne_in order shard
          = (entrySize (nodes shard !!! e),
             mkShard (delete key (items shard)) l' (nodes shard)
                     (int_sub (shardSize shard)
                              (entrySize (nodes shard !!! e))))
          ∧ fst (scanIndex order e) = Some key
          ∧ (snd (scanIndex order e) ≤ size (items shard))%nat)
     ∧ worstOrder (items shard) key e ≡ₚ map_to_list (items shard)
     ∧ snd (scanIndex (worstOrder (items shard) key e) e)
       = size (items shard))
  ∧ (∀ c key val now, valid key val →
       ∃ element,
         items (getShard (snd (Put c key val now)) key) !! key = Some element
         ∧ nodes (getShard (snd (Put c key val now)) key) !!! element
           = mkEntry val now (len key + len val + 64)).
Proof.
  intros shard Hl. split.
  - destruct (run_ok ops) as [Hok _].
    pose proof (ok_wf _ (ok_shards _ Hok i)) as Hwf. fold shard in Hwf.
    destruct (wf_listed shard Hwf e) as [key Hkey].
    { rewrite Hl. apply elem_of_app. right. left. }
    exists key. split; [done|]. split.
    { intros k' Hk'. by apply (wf_inj shard Hwf k' key e). }
    split; [|split].
    + intros order Hord. split; [|split].
      * by apply evictOne_in_spec.
      * apply (scanIndex_finds (items shard)).
        -- intros k' a Hin. by apply (iteration_sub _ _ Hord).
        -- apply Hwf.
        -- by apply (iteration_sub _ _ Hord).
      * rewrite <- length_map_to_list, <- (Permutation_length Hord).
        apply scanIndex_visits.
    + by apply worstOrder_perm.
    + rewrite worstOrder_visits; [done| apply Hwf | done].
  - intros c key val now Hv. rewrite getShard_Put_same by done.
    unfold putShard. destruct (items (getShard c key) !! key) as [el|] eqn:Hf.
    + exists el. cbn [items nodes]. split; [done|].
      by rewrite lookup_total_insert_eq.
    + exists (newElement (getShard c key)). cbn [items nodes].
      split; [by rewrite lookup_insert_eq|].
      by rewrite lookup_total_insert_eq.
Qed.

Lemma evictOne_scans_index_witness :
  evictList (getShard (run three_keys) "a") = [2; 1]%nat ++ [0%nat]
  ∧ snd (scanIndex (worstOrder (items (getShard (run three_keys) "a")) "a" 0)
                   0%nat)
    = 3%nat.
Proof.
  assert (evictList (shards (run three_keys) !!! shardSlot "a")
          = [2; 1]%nat ++ [0%nat]) as Hl by (vm_compute; reflexivity).
  split; [exact Hl|].
  assert (items (shards (run three_keys) !!! shardSlot "a") !! "a"
          = Some 0%nat) as Ha by (vm_compute; reflexivity).
  destruct (evictOne_scans_index three_keys (shardSlot "a") [2; 1]%nat 0%nat Hl)
    as [(key & _ & Huniq & _ & _ & Hworst) _].
  rewrite <- (Huniq "a" Ha) in Hworst. exact Hworst.
Defined.

(** C4, as stated, fails. The keys "a" and "b" get the same entry, so no
    entry holds its key; and in a shard with the three keys "a", "A" and
    "!" the index iteration that ends with "a" makes [evictOne] visit
    all three index entries before it finds the key of the element it
    removed. *)
Lemma evictOne_stored_key_counterexample :
  ¬ entry_stores_key
  ∧ list.last (evictList (getShard (run three_keys) "a")) = Some 0%nat
  ∧ worstOrder (items (getShard (run three_keys) "a")) "a" 0
    ≡ₚ map_to_list (items (getShard (run three_keys) "a"))
  ∧ scanIndex (worstOrder (items (getShard (run three_keys) "a")) "a" 0)
              0%nat
    = (Some "a", 3%nat).
Proof.
  split; [|split; [|split]].
  - intros [keyOf Hkey].
    pose proof (Hkey "a" "x" 1 0%nat) as Ha.
    pose proof (Hkey "b" "x" 1 0%nat) as Hb.
    cbv zeta in Ha, Hb.
    assert (nodes (getShard (snd (Put NewShardedCache "a" "x" 1)) "a") !!! 0%nat
            = nodes (getShard (snd (Put NewShardedCache "b" "x" 1)) "b")
                !!! 0%nat) as Hsame by (vm_compute; reflexivity).
    rewrite Hsame in Ha.
    specialize (Ha ltac:(vm_compute; reflexivity)).
    specialize (Hb ltac:(vm_compute; reflexivity)).
    rewrite Hb in Ha. discriminate.
  - vm_compute. reflexivity.
  - apply worstOrder_perm. vm_compute. reflexivity.
  - vm_compute. reflexivity.
Qed.

(** ** The locks of Get *)

(** C3 fails on the code. On a hit, [Get] looks the key up under the
    read lock, releases it, and takes the write lock for the promotion:
    two acquisitions with the lock free in between, where [Put] has one.
    An [EvictBatch] that runs between them evicts "a"; [Get] still
    returns its value as found, and the shard is left holding "A" alone,
    which neither order of the two calls run one after the other
    produces. *)
Theorem Get_read_then_upgrade :
  one_exclusive_section (Get_events true) = false
  ∧ sections Free 0 (Get_events true)
    = [(EvLookup, Shared, 1%nat); (EvSetEntry, Exclusive, 2%nat);
       (EvMoveToFront, Exclusive, 2%nat); (EvReadValue, Exclusive, 2%nat)]
  ∧ lockModes (Get_events true)
    = [Shared; Free; Exclusive; Free; Shared; Free]
  ∧ one_exclusive_section (Put_events true) = true
  ∧ (fst race_interleaved = ("x", true)
     ∧ keysOf (snd race_interleaved) "a" = ["A"])
  ∧ (fst race_Get_first = ("x", true)
     ∧ keysOf (snd race_Get_first) "a" = ["a"])
  ∧ (fst race_Evict_first = ("", false)
     ∧ keysOf (snd race_Evict_first) "a" = ["A"]).
Proof. vm_compute. repeat split. Qed.

(** ** The validation boundary *)

(** 256 bytes are accepted and 257 rejected, for the key and for the
    value; a rejected call leaves the cache as it was. *)
Example Put_boundary :
  len (chars 256) = 256 ∧ len (chars 257) = 257
  ∧ fst (Put NewShardedCache (chars 256) (chars 256) 1) = None
  ∧ Put NewShardedCache (chars 257) (chars 256) 1
    = (Some ValidationError, NewShardedCache)
  ∧ Put NewShardedCache (chars 256) (chars 257) 1
    = (Some ValidationError, NewShardedCache)
  ∧ totalSize (snd (Put NewShardedCache (chars 256) (chars 256) 1)) = 576.
Proof. vm_compute. repeat split. Qed.

(** * What the cache holds *)

(** ** Vocabulary *)

(** The key and the value a call stores: those of a [Put] that passes
    the length check. *)
Definition writes (op : Op) : option (string * string) :=
  match op with
  | OpPut key val _ =>
    if (MaxKeySize <? len key) || (MaxValueSize <? len val) then None
    else Some (key, val)
  | _ => None
  end.

Definition evicts (op : Op) : bool :=
  match op with
  | OpEvictOne _ | OpEvictBatch _ => true
  | _ => false
  end.

(** The value last stored for each key by a sequence of calls,
    evictions left aside. *)
Definition record (m : gmap string string) (op : Op) : gmap string string :=
  match writes op with
  | Some (key, val) => <[key := val]> m
  | None => m
  end.

Definition written (ops : list Op) : gmap string string :=
  foldl record ∅ ops.

(** What [Get] returns for a key, read off the shard of the key. *)
Definition lookupValue (s : Shard) (key : string) : string * bool :=
  match items s !! key with
  | Some element => (value (nodes s !!! element), true)
  | None => ("", false)
  end.

(** What a call does to the shard at position [i]: a [Put] or a [Get] of
    a key of the shard, some calls of [evictOne], or nothing. *)
Inductive shard_step (i : fin NumShards) : Op → Shard → Shard → Prop :=
| ss_put key val now s :
    valid key val → i = shardSlot key →
    shard_step i (OpPut key val now) s (putShard key val now s)
| ss_get key now s :
    i = shardSlot key →
    shard_step i (OpGet key now) s (touchShard key now s)
| ss_evict op n s :
    evicts op = true →
    shard_step i op s (snd (evictTimes n s 0))
| ss_same op s :
    (∀ key val, writes op = Some (key, val) → shardSlot key ≠ i) →
    evicts op = false →
    shard_step i op s s.

(** ** Steps of a shard *)

Lemma writes_valid key val now :
  valid key val → writes (OpPut key val now) = Some (key, val).
Proof. intros Hv. unfold writes. by rewrite Put_check_false. Qed.

Lemma writes_invalid key val now :
  ¬ valid key val → writes (OpPut key val now) = None.
Proof. intros Hv. unfold writes. by rewrite Put_check_true. Qed.

Lemma writes_Some op key val :
  writes op = Some (key, val) →
  valid key val ∧ ∃ now, op = OpPut key val now.
Proof.
  destruct op as [k v t|k t|i|n]; simpl; try discriminate.
  destruct (decide (valid k v)) as [Hv|Hv].
  - rewrite Put_check_false by done. intros [= <- <-]. eauto.
  - rewrite Put_check_true by done. discriminate.
Qed.

Lemma Get_result c key now :
  fst (Get c key now) = lookupValue (getShard c key) key.
Proof.
  unfold Get, Get_lookup, Get_promote, lookupValue.
  by destruct (items (getShard c key) !! key).
Qed.

Lemma step_shard c op i :
  cache_ok c → shard_step i op (shards c !!! i) (shards (step c op) !!! i).
Proof.
  intros Hok. destruct op as [key val now|key now|j|count]; cbn [step].
  - destruct (decide (valid key val)) as [Hv|Hv].
    + rewrite Put_unfold by done. cbn [snd shards].
      destruct (decide (i = shardSlot key)) as [->|Hne].
      * rewrite vlookup_insert. by apply ss_put.
      * rewrite vlookup_insert_ne by done. apply ss_same; [|done].
        intros k v Hw. rewrite writes_valid in Hw by done.
        injection Hw as <- <-. done.
    + unfold Put. rewrite Put_check_true by done. cbn [snd].
      apply ss_same; [|done]. intros k v Hw.
      by rewrite writes_invalid in Hw.
  - rewrite Get_unfold. cbn [shards].
    destruct (decide (i = shardSlot key)) as [->|Hne].
    + rewrite vlookup_insert. by apply ss_get.
    + rewrite vlookup_insert_ne by done. by apply ss_same.
  - rewrite evictOneAt_unfold. cbn [snd shards].
    destruct (decide (i = j)) as [->|Hne].
    + rewrite vlookup_insert.
      assert (snd (evictOne (shards c !!! j))
              = snd (evictTimes 1 (shards c !!! j) 0)) as ->.
      { cbn [evictTimes]. by destruct (evictOne (shards c !!! j)). }
      by apply ss_evict.
    + rewrite vlookup_insert_ne by done. by apply (ss_evict i _ 0%nat).
  - rewrite EvictBatch_shards.
    rewrite (evictLoop_times _ _ _ (ok_wf _ (ok_shards c Hok i))).
    by apply ss_evict.
Qed.

(** What one eviction keeps, [evictOne] called any number of times
    keeps. *)
Lemma evictTimes_preserves (P : Shard → Prop) :
  (∀ s l' e k, shard_ok s → evictList s = l' ++ [e] →
               items s !! k = Some e → P s → P (evicted s l' e k)) →
  ∀ n s acc, shard_ok s → P s → P (snd (evictTimes n s acc)).
Proof.
  intros Hstep n. induction n as [|n IH]; intros s acc Hok HP; [done|].
  cbn [evictTimes]. destruct (evictList s) as [|x l] eqn:Hl.
  - rewrite evictOne_empty by done. by apply IH.
  - assert (evictList s ≠ []) as Hne by (by rewrite Hl).
    destruct (evictOne_step s (ok_wf s Hok) Hne)
      as (l' & e & k & Hl' & Hk & Hev & _).
    rewrite Hev. destruct (evicted_ok s l' e k Hok Hl' Hk) as [Hok' _].
    apply IH; [done|]. by apply (Hstep s l' e k).
Qed.

(** A property of the shards, relative to a summary [g] of the calls so
    far, that the new cache has and every step of a shard keeps, holds in
    every state the calls reach. *)
Section Invariant.
Context {G : Type} (g0 : G) (upd : G → Op → G).
Context (Q : G → fin NumShards → Shard → Prop).
Hypothesis Q_init : ∀ i, Q g0 i emptyShard.
Hypothesis Q_step :
  ∀ g i op s s', shard_ok s → shard_step i op s s' →
                 Q g i s → Q (upd g op) i s'.

Lemma run_invariant ops i : Q (foldl upd g0 ops) i (shards (run ops) !!! i).
Proof using Q_init Q_step.
  induction ops as [|op ops IH] using rev_ind.
  - change (shards (run []) !!! i)
      with (vreplicate NumShards emptyShard !!! i).
    rewrite vlookup_replicate. apply Q_init.
  - rewrite run_snoc, foldl_snoc.
    destruct (run_ok ops) as [Hok _].
    apply (Q_step _ i op (shards (run ops) !!! i)); [apply Hok| |done].
    by apply step_shard.
Qed.
End Invariant.

(** ** The contents of the shards *)

(** Every key of the shard at position [i] belongs there, its entry
    holds the value last written for it, and the size stored with the
    entry is the one of the key and that value, both within the
    limits. *)
Definition shard_holds (m : gmap string string) (i : fin NumShards)
    (s : Shard) : Prop :=
  ∀ key e, items s !! key = Some e →
    i = shardSlot key
    ∧ m !! key = Some (value (nodes s !!! e))
    ∧ entrySize (nodes s !!! e) = len key + len (value (nodes s !!! e)) + 64
    ∧ valid key (value (nodes s !!! e)).

Lemma record_other m op key i :
  (∀ k v, writes op = Some (k, v) → shardSlot k ≠ i) →
  i = shardSlot key → record m op !! key = m !! key.
Proof.
  intros Hw Hi. unfold record. destruct (writes op) as [[k v]|] eqn:Hop; [|done].
  rewrite lookup_insert_ne; [done|]. intros ->. by apply (Hw key v).
Qed.

Lemma record_evicts m op : evicts op = true → record m op = m.
Proof. by destruct op. Qed.

Lemma shard_holds_step m i op s s' :
  shard_ok s → shard_step i op s s' →
  shard_holds m i s → shard_holds (record m op) i s'.
Proof.
  intros Hok Hstep Hs. pose proof (ok_wf s Hok) as Hwf.
  destruct Hstep as [key val now s Hv Hi|key now s Hi|op n s Hev|op s Hw Hev].
  - unfold record. rewrite writes_valid by done.
    unfold putShard. destruct (items s !! key) as [e0|] eqn:Hfound.
    + intros k e Hk. cbn [items nodes] in *.
      destruct (decide (e = e0)) as [->|Hne].
      * assert (k = key) as -> by (by apply (wf_inj s Hwf k key e0)).
        rewrite lookup_insert_eq, lookup_total_insert_eq. cbn [value entrySize].
        done.
      * assert (k ≠ key) as Hkne by (intros ->; congruence).
        rewrite lookup_insert_ne by done.
        rewrite lookup_total_insert_ne by done. by apply Hs.
    + intros k e Hk. cbn [items nodes] in *.
      apply lookup_insert_Some in Hk as [[<- <-]|[Hkne Hk]].
      * rewrite lookup_insert_eq, lookup_total_insert_eq. cbn [value entrySize].
        done.
      * assert (e ≠ newElement s) as Hne.
        { intros ->. apply (newElement_fresh s Hwf).
          by apply (wf_index s Hwf k). }
        rewrite lookup_insert_ne by done.
        rewrite lookup_total_insert_ne by done. by apply Hs.
  - assert (record m (OpGet key now) = m) as -> by done.
    unfold touchShard. destruct (items s !! key) as [e0|] eqn:Hfound; [|done].
    intros k e Hk. cbn [items nodes] in *.
    destruct (decide (e = e0)) as [->|Hne].
    + rewrite lookup_total_insert_eq. cbn [value entrySize]. by apply Hs.
    + rewrite lookup_total_insert_ne by done. by apply Hs.
  - rewrite record_evicts by done.
    apply (evictTimes_preserves (shard_holds m i)); [|done|done].
    intros s0 l' e0 k0 _ _ _ Hs0 k e Hk. cbn [evicted items nodes] in *.
    apply lookup_delete_Some in Hk as [_ Hk]. by apply Hs0.
  - intros k e Hk. destruct (Hs k e Hk) as (Hi & Hm & Hrest).
    split; [done|]. split; [|done]. by rewrite (record_other m op k i).
Qed.

Lemma run_holds ops i : shard_holds (written ops) i (shards (run ops) !!! i).
Proof.
  apply (run_invariant ∅ record shard_holds).
  - intros j key e He. cbn [emptyShard items] in He.
    by rewrite lookup_empty in He.
  - intros g j op s s'. apply shard_holds_step.
Qed.

Lemma stored_lookup ops key :
  stored (run ops) key ↔ is_Some (items (getShard (run ops) key) !! key).
Proof.
  split.
  - intros [i [e He]]. destruct (run_holds ops i key e He) as (-> & _).
    by exists e.
  - intros He. by exists (shardSlot key).
Qed.

(** X1. In every state the calls reach, a key is held by the shard
    [getShard] selects for it and by no other, so [Get] finds a key
    exactly when the cache stores it. *)
Theorem Get_finds_stored (ops : list Op) (key : string) (now : Z) :
  (∀ (i : fin NumShards) e,
     items (shards (run ops) !!! i) !! key = Some e → i = shardSlot key)
  ∧ (snd (fst (Get (run ops) key now)) = true ↔ stored (run ops) key).
Proof.
  split.
  - intros i e He. by destruct (run_holds ops i key e He) as (-> & _).
  - rewrite stored_lookup, Get_result. unfold lookupValue.
    destruct (items (getShard (run ops) key) !! key) as [e|]; simpl.
    + split; [by eexists | done].
    + split; [done | by intros [? ?]].
Qed.

(** X2. After any sequence of calls, a [Get] that finds the key returns
    the value of the last [Put] of that key that passed the length
    check; a key no such [Put] wrote is not found. *)
Theorem Get_last_written (ops : list Op) (key : string) (now : Z) :
  match written ops !! key with
  | Some v =>
    fst (Get (run ops) key now) = (v, true)
    ∨ fst (Get (run ops) key now) = ("", false)
  | None => fst (Get (run ops) key now) = ("", false)
  end.
Proof.
  rewrite Get_result. unfold lookupValue, getShard.
  destruct (items (shards (run ops) !!! shardSlot key) !! key) as [e|] eqn:He.
  - destruct (run_holds ops _ key e He) as (_ & -> & _). by left.
  - destruct (written ops !! key); [by right | done].
Qed.

(** ** Without evictions the cache is a map *)

Lemma written_snoc ops op : written (ops ++ [op]) = record (written ops) op.
Proof. unfold written. by rewrite foldl_snoc. Qed.

Lemma putShard_has key val now s :
  is_Some (items (putShard key val now s) !! key).
Proof.
  unfold putShard. destruct (items s !! key) as [e|] eqn:Hf; cbn [items].
  - by exists e.
  - rewrite lookup_insert_eq. by eexists.
Qed.

Lemma putShard_keeps key val now s k :
  is_Some (items s !! k) → is_Some (items (putShard key val now s) !! k).
Proof.
  intros Hk. destruct (decide (k = key)) as [->|Hne]; [apply putShard_has|].
  unfold putShard. destruct (items s !! key); cbn [items]; [done|].
  by rewrite lookup_insert_ne.
Qed.

Lemma touchShard_items key now s : items (touchShard key now s) = items s.
Proof. unfold touchShard. by destruct (items s !! key). Qed.

Lemma run_keeps ops :
  forallb (λ op, negb (evicts op)) ops = true →
  ∀ k, is_Some (written ops !! k) →
       is_Some (items (getShard (run ops) k) !! k).
Proof.
  induction ops as [|op ops IH] using rev_ind; intros Hne k Hk.
  - unfold written in Hk. cbn [foldl] in Hk. rewrite lookup_empty in Hk.
    by destruct Hk.
  - rewrite forallb_app in Hne. apply andb_true_iff in Hne as [Hops Hop].
    cbn [forallb] in Hop. rewrite andb_true_r in Hop.
    apply negb_true_iff in Hop.
    specialize (IH Hops k). rewrite written_snoc in Hk.
    rewrite run_snoc. unfold getShard in *.
    destruct (run_ok ops) as [Hok _].
    destruct (step_shard (run ops) op (shardSlot k) Hok)
      as [key val now s Hv Hi|key now s Hi|op n s Hev|op s Hw Hev].
    + unfold record in Hk. rewrite writes_valid in Hk by done.
      destruct (decide (k = key)) as [->|Hkne]; [apply putShard_has|].
      rewrite lookup_insert_ne in Hk by done. by apply putShard_keeps, IH.
    + rewrite touchShard_items. by apply IH.
    + congruence.
    + apply IH. by rewrite (record_other _ op k (shardSlot k)) in Hk.
Qed.

(** X3. After a sequence of [Put] and [Get] calls alone, [Get] returns,
    for every key, the value of the last [Put] of the key that passed
    the length check, with [true]; and the empty string with [false] for
    a key no such [Put] wrote. *)
Theorem Get_without_eviction (ops : list Op) (key : string) (now : Z) :
  forallb (λ op, negb (evicts op)) ops = true →
  fst (Get (run ops) key now)
  = match written ops !! key with
    | Some v => (v, true)
    | None => ("", false)
    end.
Proof.
  intros Hne. pose proof (run_keeps ops Hne key) as Hkeep.
  rewrite Get_result. unfold lookupValue, getShard in *.
  destruct (items (shards (run ops) !!! shardSlot key) !! key) as [e|] eqn:He.
  - by destruct (run_holds ops _ key e He) as (_ & -> & _).
  - destruct (written ops !! key) as [v|]; [|done].
    destruct Hkeep as [e He']; [by eexists | done].
Qed.

Lemma Get_without_eviction_witness :
  fst (Get (run three_keys) "a" 9)
  = match written three_keys !! "a" with
    | Some v => (v, true)
    | None => ("", false)
    end.
Proof. apply Get_without_eviction. reflexivity. Defined.

(** ** Put and the other keys *)

Lemma putShard_lookupValue_other key val now s k :
  shard_wf s → k ≠ key →
  lookupValue (putShard key val now s) k = lookupValue s k.
Proof.
  intros Hwf Hne. unfold lookupValue, putShard.
  destruct (items s !! key) as [e0|] eqn:Hfound; cbn [items nodes].
  - destruct (items s !! k) as [e|] eqn:Hk; [|done].
    rewrite lookup_total_insert_ne; [done|].
    intros ->. apply Hne. by apply (wf_inj s Hwf k key e).
  - rewrite lookup_insert_ne by done.
    destruct (items s !! k) as [e|] eqn:Hk; [|done].
    rewrite lookup_total_insert_ne; [done|].
    intros Heq. apply (newElement_fresh s Hwf). rewrite Heq.
    by apply (wf_index s Hwf k).
Qed.

(** X4. In every state the calls reach, a [Put] of one key, accepted or
    rejected, changes what [Get] returns for no other key: another key
    is neither lost nor given another value. *)
Theorem Put_keeps_other_keys (ops : list Op) (key val : string) (now : Z)
    (key' : string) (now' : Z) :
  key' ≠ key →
  fst (Get (snd (Put (run ops) key val now)) key' now')
  = fst (Get (run ops) key' now').
Proof.
  intros Hne. rewrite !Get_result.
  destruct (run_ok ops) as [Hok _].
  destruct (decide (valid key val)) as [Hv|Hv].
  - rewrite Put_unfold by done. unfold getShard at 1. cbn [snd shards].
    destruct (decide (shardSlot key = shardSlot key')) as [Heq|Hsl].
    + rewrite <- Heq, vlookup_insert. unfold getShard. rewrite <- Heq.
      apply putShard_lookupValue_other; [|done]. apply Hok.
    + by rewrite vlookup_insert_ne.
  - unfold Put. by rewrite Put_check_true.
Qed.

Lemma Put_keeps_other_keys_witness :
  "A" ≠ "a"
  ∧ fst (Get (snd (Put (run demo_ops) "a" "new" 10)) "A" 11)
    = fst (Get (run demo_ops) "A" 11).
Proof.
  assert ("A" ≠ "a") as Hne by discriminate.
  split; [exact Hne|].
  exact (Put_keeps_other_keys demo_ops "a" "new" 10 "A" 11 Hne).
Defined.

(** ** The most recently written key and EvictBatch *)

Lemma putShard_front key val now s :
  shard_wf s →
  ∃ e rest,
    evictList (putShard key val now s) = e :: rest
    ∧ items (putShard key val now s) !! key = Some e
    ∧ value (nodes (putShard key val now s) !!! e) = val.
Proof.
  intros Hwf. unfold putShard.
  destruct (items s !! key) as [e0|] eqn:Hfound; cbn [items nodes evictList].
  - exists e0, (list_Remove e0 (evictList s)).
    rewrite list_MoveToFront_in by (by apply (wf_index s Hwf key)).
    by rewrite lookup_total_insert_eq.
  - exists (newElement s), (evictList s).
    by rewrite lookup_insert_eq, lookup_total_insert_eq.
Qed.

(** X5. A key that has just been put is the most recently used of its
    shard: the [EvictBatch] that follows keeps it, with its value, when
    the shard holds more entries than the quota of a shard,
    [max(1, count / 32)], and evicts it otherwise. *)
Theorem Put_survives_EvictBatch (ops : list Op) (key val : string)
    (now : Z) (count : Z) (now' : Z) :
  valid key val → in_int64 count →
  let c := snd (Put (run ops) key val now) in
  fst (Get (snd (EvictBatch c count)) key now')
  = if Z.max 1 (Z.quot count 32) <? entryCount (getShard c key)
    then (val, true) else ("", false).
Proof.
  intros Hv Hcount c.
  assert (c = run (ops ++ [OpPut key val now])) as Hc by (by rewrite run_snoc).
  destruct (run_ok (ops ++ [OpPut key val now])) as [Hok _].
  rewrite <- Hc in Hok.
  destruct (run_ok ops) as [Hok0 _].
  rewrite Get_result. unfold getShard at 1. rewrite EvictBatch_shards.
  rewrite (perShardQuota_max count Hcount).
  set (q := Z.max 1 (Z.quot count 32)).
  fold (getShard c key).
  destruct (evictLoop_spec q (getShard c key) (ok_shards c Hok _))
    as (_ & _ & Hlist & Hnodes & _ & _ & Hitems).
  set (s' := snd (evictLoop (Z.to_nat q) (getShard c key) 0)) in *.
  assert (getShard c key = putShard key val now (getShard (run ops) key))
    as Hput by (unfold c; by rewrite getShard_Put_same).
  destruct (putShard_front key val now (getShard (run ops) key)
              (ok_wf _ (ok_shards _ Hok0 _))) as (e & rest & Hl & He & Hval).
  rewrite <- Hput in Hl, He, Hval.
  unfold lookupValue, entryCount, evictions in *. rewrite Hl in *.
  cbn [length] in *.
  destruct (Z.ltb_spec q (Z.of_nat (S (length rest)))) as [Hlt|Hge].
  - assert (items s' !! key = Some e) as ->.
    { apply Hitems. split; [done|]. rewrite Hlist.
      replace (S (length rest) - Z.to_nat q `min` S (length rest))%nat
        with (S (length rest - Z.to_nat q))%nat by lia.
      left. }
    by rewrite Hnodes, Hval.
  - destruct (items s' !! key) as [a|] eqn:Ha; [|done].
    apply Hitems in Ha as [_ Ha]. rewrite Hlist in Ha.
    replace (S (length rest) - Z.to_nat q `min` S (length rest))%nat
      with 0%nat in Ha by lia.
    by apply elem_of_nil in Ha.
Qed.

Lemma Put_survives_EvictBatch_witness :
  valid "A" "kept" ∧ in_int64 1
  ∧ fst (Get (snd (EvictBatch
                     (snd (Put (snd (Put NewShardedCache "a" "x" 1))
                               "A" "kept" 2)) 1)) "A" 3)
    = ("kept", true).
Proof.
  assert (valid "A" "kept") as Hv by (split; vm_compute; discriminate).
  assert (in_int64 1) as Hc by (unfold in_int64; lia).
  split; [exact Hv|]. split; [exact Hc|].
  exact (Put_survives_EvictBatch [OpPut "a" "x" 1] "A" "kept" 2 1 3 Hv Hc).
Defined.

(** ** How many entries EvictBatch removes *)

Lemma sumOf_zero {A} (f : A → Z) l :
  (∀ x, x ∈ l → f x = 0) → sumOf f l = 0.
Proof.
  intros Hz. pose proof (sumOf_bounds f l 0 0) as Hb.
  assert (∀ x, x ∈ l → 0 <= f x <= 0) as Hx
    by (intros x Hx; rewrite (Hz x Hx); lia).
  specialize (Hb Hx). lia.
Qed.

(** X6. [EvictBatch(count)] removes one entry at least from every shard
    that has one, and [32 * max(1, count / 32)] entries at most in all:
    no more than [count] when [count] is 32 or more, but up to 32 for a
    smaller [count], zero and negative ones included. It adds no key to
    any index. *)
Theorem EvictBatch_removed (ops : list Op) (count : Z) :
  in_int64 count →
  let c := run ops in
  let c' := snd (EvictBatch c count) in
  let removed := liveEntries c - liveEntries c' in
  0 <= removed <= 32 * Z.max 1 (Z.quot count 32)
  ∧ (32 <= count → removed <= count)
  ∧ (∀ i : fin NumShards,
       evictList (shards c !!! i) ≠ [] →
       entryCount (shards c' !!! i) < entryCount (shards c !!! i))
  ∧ (∀ (i : fin NumShards) key e,
       items (shards c' !!! i) !! key = Some e →
       items (shards c !!! i) !! key = Some e).
Proof.
  intros Hcount c c' removed.
  destruct (run_ok ops) as [Hok _]. fold c in Hok.
  pose proof (perShardQuota_max count Hcount) as Hq.
  set (q := Z.max 1 (Z.quot count 32)) in *.
  assert (removed = sumOf (λ s, Z.of_nat (evictions q s))
                          (vec_to_list (shards c))) as Hrem.
  { unfold removed, c'. rewrite (EvictBatch_live c count Hok), Hq. lia. }
  assert (0 <= removed <= 32 * q) as Hbound.
  { rewrite Hrem.
    pose proof (sumOf_bounds (λ s, Z.of_nat (evictions q s))
                  (vec_to_list (shards c)) 0 q) as Hb.
    rewrite length_vec_to_list in Hb.
    change (Z.of_nat NumShards) with 32 in Hb.
    assert (∀ s, s ∈ vec_to_list (shards c) →
                 0 <= Z.of_nat (evictions q s) <= q) as Hs
      by (intros s _; unfold evictions; lia).
    specialize (Hb Hs). lia. }
  split; [done|]. split; [|split].
  - intros Hge. pose proof (Z.quot_rem' count 32) as Hqr.
    pose proof (Z.rem_bound_pos count 32 ltac:(lia) ltac:(lia)). lia.
  - intros i Hne. unfold c'. rewrite EvictBatch_shards, Hq.
    destruct (evictLoop_spec q (shards c !!! i) (ok_shards c Hok i))
      as (_ & _ & Hlist & _).
    unfold entryCount. rewrite Hlist, length_take. unfold evictions.
    destruct (evictList (shards c !!! i)); [done|]. cbn [length]. lia.
  - intros i key e. unfold c'. rewrite EvictBatch_shards, Hq.
    destruct (evictLoop_spec q (shards c !!! i) (ok_shards c Hok i))
      as (_ & _ & _ & _ & _ & _ & Hitems).
    rewrite Hitems. by intros [? _].
Qed.

Lemma EvictBatch_removed_witness :
  in_int64 1
  ∧ 0 <= liveEntries (run three_keys)
         - liveEntries (snd (EvictBatch (run three_keys) 1))
      <= 32 * Z.max 1 (Z.quot 1 32).
Proof.
  assert (in_int64 1) as Hc by (unfold in_int64; lia).
  split; [exact Hc|].
  destruct (EvictBatch_removed three_keys 1 Hc) as [Hb _]. exact Hb.
Defined.

(** A count of 1 removes two entries from a cache that holds entries in
    two shards. *)
Example EvictBatch_small_count :
  let c := run [OpPut "a" "x" 1; OpPut "b" "y" 2; OpPut "A" "z" 3] in
  liveEntries c = 3 ∧ liveEntries (snd (EvictBatch c 1)) = 1
  ∧ liveEntries (snd (EvictBatch c 0)) = 1
  ∧ liveEntries (snd (EvictBatch c (- 5))) = 1.
Proof. vm_compute. repeat split. Qed.

(** X7. When no shard holds more entries than the quota of a shard,
    [EvictBatch] empties the cache: it returns the [totalSize] it found,
    it leaves [totalSize] 0, every index and recency list empty, and
    every [Get] that follows misses. *)
Theorem EvictBatch_drains (ops : list Op) (count : Z) :
  576 * Z.of_nat (length ops) < 2 ^ 63 → in_int64 count →
  (∀ i : fin NumShards,
     entryCount (shards (run ops) !!! i) <= Z.max 1 (Z.quot count 32)) →
  let c' := snd (EvictBatch (run ops) count) in
  fst (EvictBatch (run ops) count) = totalSize (run ops)
  ∧ totalSize c' = 0
  ∧ (∀ i : fin NumShards,
       items (shards c' !!! i) = ∅ ∧ evictList (shards c' !!! i) = [])
  ∧ ∀ key now, fst (Get c' key now) = ("", false).
Proof.
  intros Hlen Hcount Hfew c'.
  destruct (run_ok ops) as [Hok Hlive].
  pose proof (perShardQuota_max count Hcount) as Hq.
  set (q := Z.max 1 (Z.quot count 32)) in *.
  assert (∀ i : fin NumShards,
            items (shards c' !!! i) = ∅ ∧ evictList (shards c' !!! i) = []
            ∧ shardBytes (shards c' !!! i) = 0) as Hempty.
  { intros i. unfold c'. rewrite EvictBatch_shards, Hq.
    destruct (evictLoop_spec q (shards (run ops) !!! i) (ok_shards _ Hok i))
      as (_ & _ & Hlist & _ & _ & _ & Hitems).
    assert (evictList (snd (evictLoop (Z.to_nat q) (shards (run ops) !!! i) 0))
            = []) as Hnil.
    { rewrite Hlist. specialize (Hfew i). unfold entryCount, evictions in *.
      replace (length (evictList (shards (run ops) !!! i))
               - Z.to_nat q `min` length (evictList (shards (run ops) !!! i)))%nat
        with 0%nat by lia.
      apply take_0. }
    split; [|split; [done|]].
    - apply map_empty. intros key.
      destruct (items _ !! key) as [a|] eqn:Ha; [|done].
      apply Hitems in Ha as [_ Ha]. rewrite Hnil in Ha.
      by apply elem_of_nil in Ha.
    - unfold shardBytes. by rewrite Hnil. }
  destruct (EvictBatch_ok (run ops) count Hok) as (Hok' & Hfreed & _ & _).
  fold c' in Hok', Hfreed.
  assert (cacheBytes c' = 0) as Hzero.
  { unfold cacheBytes. apply sumOf_zero. intros s Hs.
    apply elem_of_vlookup in Hs as [i <-]. apply Hempty. }
  assert (MaxEntrySize * liveEntries (run ops) < 2 ^ 63) as Hb
    by (unfold MaxEntrySize; lia).
  destruct (cache_ok_exact (run ops) Hok Hb) as (_ & _ & Htot).
  pose proof (cache_bytes_bound (run ops) Hok) as Hcb.
  split; [|split; [|split]].
  - rewrite Hfreed, Hzero, Z.sub_0_r, Htot. apply wrap64_id.
    unfold in_int64, MaxEntrySize in *. lia.
  - by rewrite (ok_total c' Hok'), Hzero.
  - intros i. destruct (Hempty i) as (? & ? & _). done.
  - intros key now. rewrite Get_result. unfold lookupValue, getShard.
    destruct (Hempty (shardSlot key)) as (-> & _). by rewrite lookup_empty.
Qed.

Lemma EvictBatch_drains_witness :
  576 * Z.of_nat (length three_keys) < 2 ^ 63 ∧ in_int64 100
  ∧ fst (EvictBatch (run three_keys) 100) = totalSize (run three_keys)
  ∧ totalSize (snd (EvictBatch (run three_keys) 100)) = 0.
Proof.
  assert (576 * Z.of_nat (length three_keys) < 2 ^ 63) as Hlen
    by (vm_compute; reflexivity).
  assert (in_int64 100) as Hc by (unfold in_int64; lia).
  assert (∀ i : fin NumShards,
            entryCount (shards (run three_keys) !!! i)
            <= Z.max 1 (Z.quot 100 32)) as Hfew.
  { intros i. pose proof (entryCount_le_live (run three_keys) i) as Hle.
    assert (liveEntries (run three_keys) = 3) as Hl by (vm_compute; reflexivity).
    rewrite Hl in Hle. change (Z.max 1 (Z.quot 100 32)) with 3. exact Hle. }
  split; [exact Hlen|]. split; [exact Hc|].
  destruct (EvictBatch_drains three_keys 100 Hlen Hc Hfew) as (H1 & H2 & _).
  split; [exact H1 | exact H2].
Defined.

(** ** The sizes stored *)

(** X8. In every state the calls reach, the size stored with an entry is
    [len(key) + len(value) + 64] for the key that maps to it and the
    value it holds now, both at most 256 bytes long; the bytes of a
    shard are the sum of these over its index, and [totalSize] lies
    between 64 and 576 times the number of entries held (while that fits
    an [int64]). *)
Theorem stored_sizes (ops : list Op) :
  let c := run ops in
  (∀ (i : fin NumShards) key e,
     items (shards c !!! i) !! key = Some e →
     let entry := nodes (shards c !!! i) !!! e in
     entrySize entry = len key + len (value entry) + 64
     ∧ len key <= 256 ∧ len (value entry) <= 256)
  ∧ (∀ i : fin NumShards,
       let s := shards c !!! i in
       shardBytes s
       = sumOf (λ p, len p.1 + len (value (nodes s !!! p.2)) + 64)
               (map_to_list (items s)))
  ∧ (576 * liveEntries c < 2 ^ 63 →
     64 * liveEntries c <= totalSize c <= 576 * liveEntries c).
Proof.
  intros c. destruct (run_ok ops) as [Hok _]. fold c in Hok.
  assert (∀ (i : fin NumShards) key e,
            items (shards c !!! i) !! key = Some e →
            entrySize (nodes (shards c !!! i) !!! e)
            = len key + len (value (nodes (shards c !!! i) !!! e)) + 64
            ∧ len key <= 256
            ∧ len (value (nodes (shards c !!! i) !!! e)) <= 256) as Hsz.
  { intros i key e He.
    destruct (run_holds ops i key e He) as (_ & _ & Hs & Hk & Hv). done. }
  assert (∀ i : fin NumShards,
            shardBytes (shards c !!! i)
            = sumOf (λ p, len p.1
                          + len (value (nodes (shards c !!! i) !!! p.2)) + 64)
                    (map_to_list (items (shards c !!! i)))) as Hsum.
  { intros i. unfold shardBytes.
    rewrite <- (sumOf_perm _ _ _
                  (index_list_perm _ (ok_wf _ (ok_shards c Hok i)))).
    change (fmap ?f ?l) with (map f l). rewrite sumOf_map.
    apply sumOf_ext. intros [k e] Hin. apply elem_of_map_to_list in Hin.
    destruct (Hsz i k e Hin) as (Hs & _). exact Hs. }
  split; [exact Hsz|]. split; [exact Hsum|].
  intros Hb.
  assert (MaxEntrySize * liveEntries c < 2 ^ 63) as Hb0
    by (unfold MaxEntrySize; lia).
  destruct (cache_ok_exact c Hok Hb0) as (_ & _ & Htot).
  pose proof (cache_bytes_bound c Hok) as Hupper. unfold MaxEntrySize in *.
  split; [|lia]. rewrite Htot. unfold cacheBytes, liveEntries.
  rewrite <- sumOf_scale. apply sumOf_le.
  intros s Hs. apply elem_of_vlookup in Hs as [i <-].
  unfold shardBytes, entryCount.
  pose proof (sumOf_bounds (sizeAt (shards c !!! i))
                (evictList (shards c !!! i)) 64 576) as Hbd.
  assert (∀ a, a ∈ evictList (shards c !!! i) →
               64 <= sizeAt (shards c !!! i) a <= 576) as Ha.
  { intros a Ha.
    destruct (wf_listed _ (ok_wf _ (ok_shards c Hok i)) a Ha) as [k Hk].
    destruct (Hsz i k a Hk) as (Hs & Hlk & Hlv). unfold sizeAt.
    pose proof (len_nonneg k).
    pose proof (len_nonneg (value (nodes (shards c !!! i) !!! a))). lia. }
  specialize (Hbd Ha). lia.
Qed.

(** * Timestamps and the recency list *)

(** ** Vocabulary *)

(** A list in which every element is related to all the later ones. *)
Fixpoint ordered {A : Type} (R : A → A → Prop) (l : list A) : Prop :=
  match l with
  | [] => True
  | a :: l' => Forall (R a) l' ∧ ordered R l'
  end.

(** The timestamp of the entry behind an element, and a list whose
    timestamps never grow from the front to the back. *)
Definition timeOf (s : Shard) (e : addr) : Z := timestamp (nodes s !!! e).

Definition newestFirst (s : Shard) : Prop :=
  ordered (λ a b, timeOf s b <= timeOf s a) (evictList s).

(** The clock readings given to a sequence of calls, in order. *)
Definition opTime (op : Op) : option Z :=
  match op with
  | OpPut _ _ now | OpGet _ now => Some now
  | _ => None
  end.

Definition clock (g : list Z) (op : Op) : list Z :=
  match opTime op with
  | Some now => g ++ [now]
  | None => g
  end.

Definition times (ops : list Op) : list Z := foldl clock [] ops.

Definition byTime (g : list Z) (s : Shard) : Prop :=
  newestFirst s ∧ ∀ e, e ∈ evictList s → timeOf s e ∈ g.

(** ** Properties *)

Lemma ordered_filter {A : Type} (R : A → A → Prop) (P : A → Prop)
    `{∀ x, Decision (P x)} (l : list A) :
  ordered R l → ordered R (filter P l).
Proof.
  induction l as [|a l IH]; [done|]. intros [Ha Hl]. cbn [ordered] in *.
  destruct (decide (P a)) as [HP|HP].
  - rewrite filter_cons_True by done. cbn [ordered]. split; [|by apply IH].
    rewrite Forall_forall in *. intros b Hb.
    apply list_elem_of_filter in Hb as [_ Hb]. by apply Ha.
  - rewrite filter_cons_False by done. by apply IH.
Qed.

Lemma ordered_ext_in {A : Type} (R R' : A → A → Prop) (l : list A) :
  (∀ a b, a ∈ l → b ∈ l → R a b → R' a b) →
  ordered R l → ordered R' l.
Proof.
  induction l as [|a l IH]; [done|]. intros Himp [Ha Hl]. cbn [ordered].
  split.
  - rewrite Forall_forall in *. intros b Hb.
    apply Himp; [left | by right | by apply Ha].
  - apply IH; [|done]. intros x y Hx Hy. apply Himp; by right.
Qed.

Lemma ordered_snoc {A : Type} (R : A → A → Prop) (l : list A) (e : A) :
  ordered R (l ++ [e]) ↔ ordered R l ∧ Forall (λ a, R a e) l.
Proof.
  induction l as [|a l IH]; cbn [app ordered].
  - split; [by intros _ | by intros _; split].
  - rewrite IH, Forall_app, Forall_singleton, Forall_cons. tauto.
Qed.

Lemma promote_byTime s e0 entry it sz g :
  e0 ∈ evictList s → byTime g s → Forall (λ t, t <= timestamp entry) g →
  byTime (g ++ [timestamp entry])
         (mkShard it (list_MoveToFront e0 (evictList s))
                  (<[e0 := entry]> (nodes s)) sz).
Proof.
  intros He0 [Hord Hin] Hle.
  set (s' := mkShard it (list_MoveToFront e0 (evictList s))
                     (<[e0 := entry]> (nodes s)) sz).
  assert (timeOf s' e0 = timestamp entry) as Hnew
    by (unfold timeOf, s'; cbn [nodes]; by rewrite lookup_total_insert_eq).
  assert (∀ a, a ≠ e0 → timeOf s' a = timeOf s a) as Hold.
  { intros a Ha. unfold timeOf, s'. cbn [nodes].
    by rewrite lookup_total_insert_ne. }
  assert (∀ a, a ∈ list_Remove e0 (evictList s) → a ≠ e0 ∧ a ∈ evictList s)
    as Hrem.
  { intros a Ha. unfold list_Remove in Ha.
    apply list_elem_of_filter in Ha as [Hne Ha]. done. }
  unfold byTime, newestFirst.
  change (evictList s') with (list_MoveToFront e0 (evictList s)).
  rewrite list_MoveToFront_in by done. split.
  - cbn [ordered]. split.
    + rewrite Forall_forall. intros b Hb. destruct (Hrem b Hb) as [Hne Hbl].
      rewrite Hnew, (Hold b Hne). rewrite Forall_forall in Hle.
      by apply Hle, Hin.
    + apply (ordered_ext_in (λ a b, timeOf s b <= timeOf s a)).
      * intros a b Ha Hb. destruct (Hrem a Ha) as [Hnea _].
        destruct (Hrem b Hb) as [Hneb _]. by rewrite (Hold a), (Hold b).
      * by apply ordered_filter.
  - intros e He. apply elem_of_cons in He as [->|He].
    + rewrite Hnew. apply elem_of_app. right. left.
    + destruct (Hrem e He) as [Hne Hel]. rewrite (Hold e Hne).
      apply elem_of_app. left. by apply Hin.
Qed.

Lemma push_byTime s entry it sz g :
  shard_wf s → byTime g s → Forall (λ t, t <= timestamp entry) g →
  byTime (g ++ [timestamp entry])
         (mkShard it (list_PushFront (newElement s) (evictList s))
                  (<[newElement s := entry]> (nodes s)) sz).
Proof.
  intros Hwf [Hord Hin] Hle. pose proof (newElement_fresh s Hwf) as Hfresh.
  set (s' := mkShard it (list_PushFront (newElement s) (evictList s))
                     (<[newElement s := entry]> (nodes s)) sz).
  assert (timeOf s' (newElement s) = timestamp entry) as Hnew
    by (unfold timeOf, s'; cbn [nodes]; by rewrite lookup_total_insert_eq).
  assert (∀ a, a ∈ evictList s → timeOf s' a = timeOf s a) as Hold.
  { intros a Ha. unfold timeOf, s'. cbn [nodes].
    rewrite lookup_total_insert_ne; [done|]. by intros <-. }
  unfold byTime, newestFirst.
  change (evictList s') with (newElement s :: evictList s). split.
  - cbn [ordered]. split.
    + rewrite Forall_forall. intros b Hb. rewrite Hnew, (Hold b Hb).
      rewrite Forall_forall in Hle. by apply Hle, Hin.
    + apply (ordered_ext_in (λ a b, timeOf s b <= timeOf s a)); [|done].
      intros a b Ha Hb. by rewrite (Hold a), (Hold b).
  - intros e He. apply elem_of_cons in He as [->|He].
    + rewrite Hnew. apply elem_of_app. right. left.
    + rewrite (Hold e He). apply elem_of_app. left. by apply Hin.
Qed.

Lemma byTime_later g t s : byTime g s → byTime (g ++ [t]) s.
Proof.
  intros [Hord Hin]. split; [done|]. intros e He.
  apply elem_of_app. left. by apply Hin.
Qed.

Lemma byTime_step g i op s s' :
  shard_ok s → shard_step i op s s' →
  (ordered Z.le g → byTime g s) →
  ordered Z.le (clock g op) → byTime (clock g op) s'.
Proof.
  intros Hok Hstep Hs Hg. pose proof (ok_wf s Hok) as Hwf.
  destruct Hstep as [key val now s Hv Hi|key now s Hi|op n s Hev|op s Hw Hev].
  - unfold clock in *. cbn [opTime] in *.
    apply ordered_snoc in Hg as [Hg Hle]. specialize (Hs Hg).
    unfold putShard. destruct (items s !! key) as [e0|] eqn:Hfound.
    + apply (promote_byTime s e0 (mkEntry val now (len key + len val + 64)));
        [by apply (wf_index s Hwf key) | done | done].
    + by apply (push_byTime s (mkEntry val now (len key + len val + 64))).
  - unfold clock in *. cbn [opTime] in *.
    apply ordered_snoc in Hg as [Hg Hle]. specialize (Hs Hg).
    unfold touchShard. destruct (items s !! key) as [e0|] eqn:Hfound.
    + apply (promote_byTime s e0
               (mkEntry (value (nodes s !!! e0)) now
                        (entrySize (nodes s !!! e0))));
        [by apply (wf_index s Hwf key) | done | done].
    + by apply byTime_later.
  - assert (clock g op = g) as Hc by (by destruct op).
    rewrite Hc in *. specialize (Hs Hg).
    apply (evictTimes_preserves (byTime g)); [|done|done].
    intros s0 l' e0 k0 _ Hl _ [Hord Hin]. unfold byTime, newestFirst in *.
    cbn [evicted evictList]. rewrite Hl in Hord, Hin.
    apply ordered_snoc in Hord as [Hord _]. split.
    + exact Hord.
    + intros e He. change (timeOf (evicted s0 l' e0 k0) e) with (timeOf s0 e).
      apply Hin, elem_of_app. by left.
  - unfold clock in *. destruct (opTime op) as [t|].
    + apply ordered_snoc in Hg as [Hg _]. by apply byTime_later, Hs.
    + by apply Hs.
Qed.

Lemma run_byTime ops i :
  ordered Z.le (times ops) → byTime (times ops) (shards (run ops) !!! i).
Proof.
  apply (run_invariant [] clock (λ g _ s, ordered Z.le g → byTime g s)).
  - intros _ _. split; [done|]. intros e He.
    by apply elem_of_nil in He.
  - intros g j op s s' Hok Hstep Hs Hg. by apply (byTime_step g j op s s').
Qed.

(** X9. When the clock readings of the calls never decrease, every
    shard's recency list is in the order of the timestamps, newest at the
    front: no entry has an older timestamp than the one at the back,
    which is the entry [evictOne] removes. *)
Theorem evictList_newest_first (ops : list Op) (i : fin NumShards) :
  ordered Z.le (times ops) →
  let s := shards (run ops) !!! i in
  newestFirst s
  ∧ ∀ b e, list_Back (evictList s) = Some b → e ∈ evictList s →
           timeOf s b <= timeOf s e.
Proof.
  intros Hg s. destruct (run_byTime ops i Hg) as [Hord _]. fold s in Hord.
  split; [done|]. intros b e Hb He. unfold list_Back in Hb.
  apply last_Some in Hb as [l' Hl]. unfold newestFirst in Hord.
  rewrite Hl in Hord, He. apply ordered_snoc in Hord as [_ Hall].
  apply elem_of_app in He as [He|He].
  - rewrite Forall_forall in Hall. by apply Hall.
  - apply list_elem_of_singleton in He as ->. lia.
Qed.

Lemma evictList_newest_first_witness :
  let s := shards (run demo_ops) !!! shardSlot "a" in
  newestFirst s
  ∧ ∀ b e, list_Back (evictList s) = Some b → e ∈ evictList s →
           timeOf s b <= timeOf s e.
Proof.
  apply (evictList_newest_first demo_ops).
  cbv [times demo_ops foldl clock opTime app ordered].
  repeat first [apply conj | apply Forall_nil_2 | apply Forall_cons_2
               | exact I]; lia.
Defined.

(** * The HTTP handlers of the sharded cache *)

(** ** Model *)

(** [KeyValue], the body of a request to [/put], and [Response], the
    body of an answer. *)
Record KeyValue := mkKeyValue { kvKey : string; kvValue : string }.

Record Response := mkResponse {
  Status : string;
  Message : string;
  Key : string;
  Value : string
}.

(** What a handler writes: the status code and either the text given to
    [http.Error] or the [Response] given to the JSON encoder. *)
Inductive Body :=
| ErrorText (msg : string)
| JSON (r : Response).

Record Answer := mkAnswer { code : Z; body : Body }.

Definition StatusOK : Z := 200.
Definition StatusBadRequest : Z := 400.
Definition StatusNotFound : Z := 404.
Definition StatusMethodNotAllowed : Z := 405.

(** The handler of [/put]. [decoded] is what [decoder.Decode(&kv)] gave:
    the [KeyValue] read from the body, or nothing when it returned an
    error. *)
Definition handlePut (c : ShardedCache) (method : string)
    (decoded : option KeyValue) (now : Z) : Answer * ShardedCache :=
  if negb (bool_decide (method = "PUT"))
  then (mkAnswer StatusMethodNotAllowed (ErrorText "Method not allowed"), c)
  else
    match decoded with
    | None =>
      (mkAnswer StatusBadRequest
         (JSON (mkResponse "ERROR" "Invalid request format" "" "")), c)
    | Some kv =>
      match Put c (kvKey kv) (kvValue kv) now with
      | (Some err, c') =>
        (mkAnswer StatusBadRequest (JSON (mkResponse "ERROR" err "" "")), c')
      | (None, c') =>
        (mkAnswer StatusOK
           (JSON (mkResponse "OK" "Key inserted/updated successfully."
                             "" "")), c')
      end
    end.

(** The handler of [/get]. [key] is [r.URL.Query().Get("key")]: the
    empty string when the query has no such parameter. *)
Definition handleGet (c : ShardedCache) (method : string) (key : string)
    (now : Z) : Answer * ShardedCache :=
  if negb (bool_decide (method = "GET"))
  then (mkAnswer StatusMethodNotAllowed (ErrorText "Method not allowed"), c)
  else if bool_decide (key = "")
  then (mkAnswer StatusBadRequest
          (JSON (mkResponse "ERROR" "Key parameter is required" "" "")), c)
  else
    match Get c key now with
    | ((val, true), c') =>
      (mkAnswer StatusOK (JSON (mkResponse "OK" "" key val)), c')
    | ((_, false), c') =>
      (mkAnswer StatusNotFound
         (JSON (mkResponse "ERROR" "Key not found." "" "")), c')
    end.

(** ** Properties *)

Lemma Put_invalid c key val now :
  ¬ valid key val → Put c key val now = (Some ValidationError, c).
Proof. intros Hv. unfold Put. by rewrite Put_check_true. Qed.

(** X10. The handler of [/put] answers 200 exactly when the method is
    PUT, the body was decoded and the key and the value are at most 256
    bytes long; it answers 405 exactly when the method is not PUT, and
    400 in the cases left. A request that is not answered 200 leaves the
    cache as it was. *)
Theorem handlePut_status (c : ShardedCache) (method : string)
    (decoded : option KeyValue) (now : Z) :
  let r := handlePut c method decoded now in
  (code (fst r) = 200
   ↔ method = "PUT"
     ∧ ∃ kv, decoded = Some kv ∧ len (kvKey kv) <= 256
             ∧ len (kvValue kv) <= 256)
  ∧ (code (fst r) = 405 ↔ method ≠ "PUT")
  ∧ (code (fst r) = 200 ∨ code (fst r) = 400 ∨ code (fst r) = 405)
  ∧ (code (fst r) ≠ 200 → snd r = c).
Proof.
  cbv zeta. unfold handlePut.
  destruct (bool_decide (method = "PUT")) eqn:Hm; cbn [negb].
  - apply bool_decide_eq_true in Hm.
    destruct decoded as [kv|].
    + destruct (decide (valid (kvKey kv) (kvValue kv))) as [Hv|Hv].
      * rewrite Put_unfold by done. cbn [fst snd code].
        unfold StatusOK. destruct Hv as [Hk Hvl].
        unfold MaxKeySize, MaxValueSize in *.
        split; [split; [|done]|].
        { intros _. split; [done|]. exists kv. done. }
        split; [split; [discriminate|done]|]. split; [by left|done].
      * rewrite Put_invalid by done. cbn [fst snd code].
        unfold StatusBadRequest.
        split; [split; [discriminate|]|].
        { intros (_ & kv' & [= <-] & Hk & Hvl). destruct Hv. by split. }
        split; [split; [discriminate|done]|].
        split; [right; by left | done].
    + cbn [fst snd code]. unfold StatusBadRequest.
      split; [split; [discriminate|]|].
      { by intros (_ & kv' & Hkv & _). }
      split; [split; [discriminate|done]|].
      split; [right; by left | done].
  - apply bool_decide_eq_false in Hm. cbn [fst snd code].
    unfold StatusMethodNotAllowed.
    split; [split; [discriminate|]|].
    { by intros (Hp & _). }
    split; [done|]. split; [right; by right | done].
Qed.

Lemma putShard_value key val now s :
  ∃ e, items (putShard key val now s) !! key = Some e
       ∧ value (nodes (putShard key val now s) !!! e) = val.
Proof.
  unfold putShard. destruct (items s !! key) as [e0|] eqn:Hf;
    cbn [items nodes].
  - exists e0. by rewrite lookup_total_insert_eq.
  - exists (newElement s). by rewrite lookup_insert_eq, lookup_total_insert_eq.
Qed.

Lemma Put_then_Get c key val now now' :
  valid key val →
  fst (Put c key val now) = None
  ∧ fst (Get (snd (Put c key val now)) key now') = (val, true).
Proof.
  intros Hv. rewrite Put_unfold by done. cbn [fst snd]. split; [done|].
  rewrite Get_result, getShard_vinsert. unfold lookupValue.
  destruct (putShard_value key val now (getShard c key)) as (e & He & Hval).
  by rewrite He, Hval.
Qed.

(** X11. The empty key can be written and never read over HTTP: a PUT
    whose decoded body has the key [""] and a value within the limit is
    answered 200 and stores the value under that key, which [Get]
    returns; a GET request for the key [""] is answered 400 in whatever
    state, and leaves the cache as it was. *)
Theorem empty_key_unreadable (c : ShardedCache) (val : string) (now : Z) :
  len val <= 256 →
  code (fst (handlePut c "PUT" (Some (mkKeyValue "" val)) now)) = 200
  ∧ fst (Get (snd (handlePut c "PUT" (Some (mkKeyValue "" val)) now)) "" now)
    = (val, true)
  ∧ ∀ c' now',
      handleGet c' "GET" "" now'
      = (mkAnswer 400
           (JSON (mkResponse "ERROR" "Key parameter is required" "" "")), c').
Proof.
  intros Hv.
  assert (valid "" val) as Hvalid by (split; [vm_compute; discriminate|done]).
  unfold handlePut. cbn [bool_decide negb kvKey kvValue].
  rewrite bool_decide_eq_true_2 by done. cbn [negb].
  destruct (Put_then_Get c "" val now now Hvalid) as [Herr Hget].
  destruct (Put c "" val now) as [[err|] c1] eqn:HP; [discriminate|].
  cbn [fst snd code] in *. split; [done|]. split; [done|].
  intros c' now'. unfold handleGet.
  rewrite bool_decide_eq_true_2 by done. cbn [negb].
  by rewrite bool_decide_eq_true_2.
Qed.

Lemma empty_key_unreadable_witness :
  len "v" <= 256
  ∧ code (fst (handlePut NewShardedCache "PUT" (Some (mkKeyValue "" "v")) 1))
    = 200
  ∧ code (fst (handleGet
                 (snd (handlePut NewShardedCache "PUT"
                         (Some (mkKeyValue "" "v")) 1))
                 "GET" "" 2))
    = 400.
Proof.
  assert (len "v" <= 256) as Hv by (vm_compute; discriminate).
  split; [exact Hv|].
  destruct (empty_key_unreadable NewShardedCache "v" 1 Hv) as (H1 & _ & H3).
  split; [exact H1|]. by rewrite H3.
Defined.

(** X12. Round trip over HTTP: a PUT request with a key that is not
    empty and a value, both within the limits, is answered 200, and the
    GET request for the key that follows is answered 200 with the key
    and the value. *)
Theorem http_round_trip (c : ShardedCache) (key val : string) (now now' : Z) :
  key ≠ "" → len key <= 256 → len val <= 256 →
  code (fst (handlePut c "PUT" (Some (mkKeyValue key val)) now)) = 200
  ∧ fst (handleGet (snd (handlePut c "PUT" (Some (mkKeyValue key val)) now))
                   "GET" key now')
    = mkAnswer 200 (JSON (mkResponse "OK" "" key val)).
Proof.
  intros Hne Hk Hv. assert (valid key val) as Hvalid by (split; done).
  unfold handlePut. rewrite bool_decide_eq_true_2 by done.
  cbn [negb kvKey kvValue].
  destruct (Put_then_Get c key val now now' Hvalid) as [Herr Hget].
  destruct (Put c key val now) as [[err|] c1] eqn:HP; [discriminate|].
  cbn [fst snd code] in *. split; [done|].
  unfold handleGet. rewrite bool_decide_eq_true_2 by done. cbn [negb].
  rewrite bool_decide_eq_false_2 by done.
  destruct (Get c1 key now') as [[v found] c2]. cbn [fst] in Hget.
  injection Hget as -> ->. done.
Qed.

Lemma http_round_trip_witness :
  "example" ≠ "" ∧ len "example" <= 256 ∧ len "data" <= 256
  ∧ fst (handleGet
           (snd (handlePut NewShardedCache "PUT"
                   (Some (mkKeyValue "example" "data")) 1))
           "GET" "example" 2)
    = mkAnswer 200 (JSON (mkResponse "OK" "" "example" "data")).
Proof.
  assert ("example" ≠ "") as Hne by discriminate.
  assert (len "example" <= 256) as Hk by (vm_compute; discriminate).
  assert (len "data" <= 256) as Hv by (vm_compute; discriminate).
  split; [exact Hne|]. split; [exact Hk|]. split; [exact Hv|].
  destruct (http_round_trip NewShardedCache "example" "data" 1 2 Hne Hk Hv)
    as [_ H2]. exact H2.
Defined.

(** X13. In every state the calls reach, the handler of [/get] answers
    200 exactly when the method is GET, the key is not empty and the
    cache stores it, 404 exactly when the method is GET and the key is
    neither empty nor stored; whatever the answer, it leaves
    [totalSize] and every index as they were, and an answer other than
    200 leaves the whole cache as it was. *)
Theorem handleGet_status (ops : list Op) (method key : string) (now : Z) :
  let c := run ops in
  let r := handleGet c method key now in
  (code (fst r) = 200 ↔ method = "GET" ∧ key ≠ "" ∧ stored c key)
  ∧ (code (fst r) = 404 ↔ method = "GET" ∧ key ≠ "" ∧ ¬ stored c key)
  ∧ totalSize (snd r) = totalSize c
  ∧ (∀ i : fin NumShards,
       items (shards (snd r) !!! i) = items (shards c !!! i))
  ∧ (code (fst r) ≠ 200 → snd r = c).
Proof.
  intros c r. unfold r, handleGet.
  destruct (bool_decide (method = "GET")) eqn:Hm; cbn [negb].
  - apply bool_decide_eq_true in Hm.
    destruct (bool_decide (key = "")) eqn:Hk.
    + apply bool_decide_eq_true in Hk. cbn [fst snd code].
      unfold StatusBadRequest.
      split; [split; [discriminate | by intros (_ & ? & _)]|].
      split; [split; [discriminate | by intros (_ & ? & _)]|]. done.
    + apply bool_decide_eq_false in Hk.
      pose proof (stored_lookup ops key) as Hst. fold c in Hst.
      pose proof (Get_result c key now) as Hres.
      pose proof (Get_unfold c key now) as Hun.
      unfold lookupValue in Hres.
      destruct (Get c key now) as [[v found] c'] eqn:HG.
      cbn [fst snd] in Hres, Hun.
      assert (totalSize c' = totalSize c) as Htot by (by rewrite Hun).
      assert (∀ i : fin NumShards,
                items (shards c' !!! i) = items (shards c !!! i)) as Hitems.
      { intros i. rewrite Hun. cbn [shards].
        destruct (decide (i = shardSlot key)) as [->|Hne].
        - rewrite vlookup_insert. apply touchShard_items.
        - by rewrite vlookup_insert_ne. }
      destruct (items (getShard c key) !! key) as [e|] eqn:He.
      * injection Hres as -> ->. cbn [fst snd code]. unfold StatusOK.
        assert (stored c key) as Hs by (apply Hst; by eexists).
        split; [done|].
        split; [split; [discriminate | by intros (_ & _ & ?)]|]. done.
      * injection Hres as -> ->. cbn [fst snd code]. unfold StatusNotFound.
        assert (¬ stored c key) as Hs.
        { intros Hs. apply Hst in Hs. by destruct Hs. }
        split; [split; [discriminate | by intros (_ & _ & ?)]|].
        split; [done|]. split; [done|]. split; [done|].
        intros _. pose proof (Get_miss c key now He) as Hmiss.
        rewrite HG in Hmiss. by injection Hmiss.
  - apply bool_decide_eq_false in Hm. cbn [fst snd code].
    unfold StatusMethodNotAllowed.
    split; [split; [discriminate | by intros (? & _)]|].
    split; [split; [discriminate | by intros (? & _)]|]. done.
Qed.

(** * The capacity-bounded cache of main.go *)

Module SimpleCache.

(** ** Model *)

(** [CacheEntry]: a key and its value. *)
Record CacheEntry := mkEntry { Key : string; Value : string }.

Global Instance CacheEntry_inhabited : Inhabited CacheEntry :=
  populate (mkEntry "" "").

(** [Cache]: the index [cache], the recency list [lruList] (front
    first, as the addresses of its elements, with [nodes] the entry
    behind each element) and the [capacity]. The lock is left out. *)
Record Cache := mkCache {
  cache : gmap string addr;
  lruList : list addr;
  nodes : gmap addr CacheEntry;
  capacity : Z
}.

Definition NewCache (capacity : Z) : Cache := mkCache ∅ [] ∅ capacity.

(** A call returns or panics. *)
Inductive result (A : Type) :=
| Returns (a : A)
| Panics.
Arguments Returns {A} a.
Arguments Panics {A}.

(** [Put]. When the cache is full, the entry at the back of the list is
    evicted by the key it stores; [lruEntry.Value] of the nil element an
    empty list gives is a nil pointer dereference. The error returned is
    always nil. *)
Definition Put (c : Cache) (key value : string)
  : result (option string * Cache) :=
  match cache c !! key with
  | Some entry =>
    let e := nodes c !!! entry in
    Returns (None,
             mkCache (cache c)
                     (list_MoveToFront entry (lruList c))
                     (<[entry := mkEntry (Key e) value]> (nodes c))
                     (capacity c))
  | None =>
    let insert (cache' : gmap string addr) (lruList' : list addr) :=
      let element := fresh (dom (nodes c)) in
      Returns (None,
               mkCache (<[key := element]> cache')
                       (list_PushFront element lruList')
                       (<[element := mkEntry key value]> (nodes c))
                       (capacity c)) in
    if capacity c <=? list_Len (lruList c) then
      match list_Back (lruList c) with
      | None => Panics
      | Some lruEntry =>
        insert (delete (Key (nodes c !!! lruEntry)) (cache c))
               (list_Remove lruEntry (lruList c))
      end
    else insert (cache c) (lruList c)
  end.

(** [Get]: the value and a nil error, or the empty string and the error
    "key not found". *)
Definition Get (c : Cache) (key : string) : (string * option string) * Cache :=
  match cache c !! key with
  | Some entry =>
    ((Value (nodes c !!! entry), None),
     mkCache (cache c) (list_MoveToFront entry (lruList c)) (nodes c)
             (capacity c))
  | None => (("", Some "key not found"), c)
  end.

(** Sequences of calls on [NewCache(capacity)]; a panic ends them. *)
Inductive Op :=
| OpPut (key value : string)
| OpGet (key : string).

Definition step (r : result Cache) (op : Op) : result Cache :=
  match r with
  | Panics => Panics
  | Returns c =>
    match op with
    | OpPut key value =>
      match Put c key value with
      | Returns (_, c') => Returns c'
      | Panics => Panics
      end
    | OpGet key => Returns (snd (Get c key))
    end
  end.

Definition run (capacity : Z) (ops : list Op) : result Cache :=
  foldl step (Returns (NewCache capacity)) ops.

(** ** The cache as a list of pairs *)

(** The keys and values of a cache, most recently used first. *)
Definition pairOf (c : Cache) (e : addr) : string * string :=
  (Key (nodes c !!! e), Value (nodes c !!! e)).

Definition view (c : Cache) : list (string * string) :=
  map (pairOf c) (lruList c).

Fixpoint assoc (key : string) (l : list (string * string)) : option string :=
  match l with
  | [] => None
  | (k, v) :: rest => if decide (k = key) then Some v else assoc key rest
  end.

Definition without (key : string) (l : list (string * string))
  : list (string * string) :=
  filter (λ p, p.1 ≠ key) l.

(** A least recently used list of at most [cap] pairs: a write moves
    the key to the front, dropping the last pair when the key is new and
    the list is full; a read that finds the key moves it to the front. *)
Definition lru_put (cap : Z) (l : list (string * string)) (key value : string)
  : list (string * string) :=
  match assoc key l with
  | Some _ => (key, value) :: without key l
  | None =>
    (key, value) :: (if cap <=? Z.of_nat (length l) then removelast l else l)
  end.

Definition lru_get (l : list (string * string)) (key : string)
  : list (string * string) :=
  match assoc key l with
  | Some v => (key, v) :: without key l
  | None => l
  end.

Definition lru_step (cap : Z) (l : list (string * string)) (op : Op)
  : list (string * string) :=
  match op with
  | OpPut key value => lru_put cap l key value
  | OpGet key => lru_get l key
  end.

Definition lru_run (cap : Z) (ops : list Op) : list (string * string) :=
  foldl (lru_step cap) [] ops.

(** The index and the list agree, each element under the key it
    stores, and the list is within the capacity. *)
Record inv (c : Cache) : Prop := mk_inv {
  inv_nodup : NoDup (lruList c);
  inv_index : ∀ k e, cache c !! k = Some e →
                     e ∈ lruList c ∧ Key (nodes c !!! e) = k;
  inv_listed : ∀ e, e ∈ lruList c → cache c !! Key (nodes c !!! e) = Some e;
  inv_alloc : ∀ e, e ∈ lruList c → is_Some (nodes c !! e);
  inv_cap : 1 <= capacity c ∧ Z.of_nat (length (lruList c)) <= capacity c
}.

(** The key a [Put] of [key] evicts: the one stored at the back of the
    list, when [key] is new and the list has reached the capacity. *)
Definition evictedBy (c : Cache) (key : string) : option string :=
  match cache c !! key with
  | Some _ => None
  | None =>
    if capacity c <=? list_Len (lruList c)
    then (λ e, Key (nodes c !!! e)) <$> list_Back (lruList c)
    else None
  end.

Definition isPut (op : Op) : bool :=
  match op with OpPut _ _ => true | OpGet _ => false end.

(** ** The handlers of [main] *)

(** What a handler writes: the text given to [http.Error], the map
    [{"value": v}] given to the JSON encoder, or nothing after
    [WriteHeader]. *)
Inductive Written :=
| Text (msg : string)
| ValueJSON (v : string)
| Nothing.

Record Reply := mkReply { status : Z; written : Written }.

Definition StatusCreated : Z := 201.
Definition StatusInternalServerError : Z := 500.

(** The handler of [PUT /put/{key}]; [value] is the query parameter. *)
Definition handlePut (c : Cache) (key value : string)
  : result (Reply * Cache) :=
  if bool_decide (256 < len key ∨ 256 < len value)
  then Returns
         (mkReply StatusBadRequest
            (Text "Key or value exceeds maximum length of 256 characters"),
          c)
  else
    match Put c key value with
    | Panics => Panics
    | Returns (Some err, c') =>
      Returns (mkReply StatusInternalServerError (Text err), c')
    | Returns (None, c') => Returns (mkReply StatusCreated Nothing, c')
    end.

(** The handler of [GET /get/{key}]. *)
Definition handleGet (c : Cache) (key : string) : Reply * Cache :=
  match Get c key with
  | ((_, Some err), c') => (mkReply StatusNotFound (Text err), c')
  | ((v, None), c') => (mkReply StatusOK (ValueJSON v), c')
  end.





(** ** Properties *)

Lemma pairOf_insert_ne c e entry a ch l cap :
  a ≠ e →
  pairOf (mkCache ch l (<[e := entry]> (nodes c)) cap) a = pairOf c a.
Proof.
  intros Hne. unfold pairOf. cbn [nodes].
  by rewrite lookup_total_insert_ne.
Qed.

Lemma view_insert_fresh c e entry ch l cap (l0 : list addr) :
  e ∉ l0 →
  map (pairOf (mkCache ch l (<[e := entry]> (nodes c)) cap)) l0
  = map (pairOf c) l0.
Proof.
  intros He. apply map_ext_in. intros a Ha. apply pairOf_insert_ne.
  intros ->. apply He. by apply list_elem_of_In.
Qed.

Lemma assoc_map c k (l : list addr) :
  inv c → l ⊆ lruList c →
  assoc k (map (pairOf c) l)
  = match cache c !! k with
    | Some e => if decide (e ∈ l) then Some (Value (nodes c !!! e)) else None
    | None => None
    end.
Proof.
  intros Hinv. induction l as [|a l IH]; intros Hsub.
  - cbn [map assoc]. destruct (cache c !! k); [|done].
    rewrite decide_False; [done|]. apply not_elem_of_nil.
  - assert (a ∈ lruList c) as Ha by (apply Hsub; left).
    assert (l ⊆ lruList c) as Hl by (intros x Hx; apply Hsub; by right).
    cbn [map assoc]. unfold pairOf at 1.
    destruct (decide (Key (nodes c !!! a) = k)) as [Heq|Hne].
    + pose proof (inv_listed c Hinv a Ha) as Hc. rewrite Heq in Hc.
      rewrite Hc. rewrite decide_True; [done|]. left.
    + rewrite (IH Hl). destruct (cache c !! k) as [e|] eqn:Hk; [|done].
      assert (e ≠ a) as Hea.
      { intros ->. apply Hne. by apply (inv_index c Hinv k a). }
      destruct (decide (e ∈ l)) as [Hel|Hel].
      * rewrite decide_True; [done|]. by right.
      * rewrite decide_False; [done|].
        intros Hin. apply elem_of_cons in Hin as [?|?]; done.
Qed.

Lemma assoc_view c k :
  inv c →
  assoc k (view c) = (λ e, Value (nodes c !!! e)) <$> cache c !! k.
Proof.
  intros Hinv. unfold view. rewrite (assoc_map c k _ Hinv) by done.
  destruct (cache c !! k) as [e|] eqn:Hk; [|done].
  rewrite decide_True; [done|]. by apply (inv_index c Hinv k).
Qed.

Lemma view_without c k e (l : list addr) :
  inv c → cache c !! k = Some e → l ⊆ lruList c →
  map (pairOf c) (list_Remove e l) = without k (map (pairOf c) l).
Proof.
  intros Hinv Hk. unfold list_Remove, without.
  induction l as [|a l IH]; intros Hsub; [done|].
  assert (a ∈ lruList c) as Ha by (apply Hsub; left).
  assert (l ⊆ lruList c) as Hl by (intros x Hx; apply Hsub; by right).
  cbn [map]. destruct (decide (a = e)) as [->|Hne].
  - rewrite filter_cons_False by (intros Hn; by apply Hn).
    rewrite filter_cons_False.
    + by apply IH.
    + intros Hn. apply Hn. unfold pairOf. cbn [fst].
      by apply (inv_index c Hinv k e).
  - rewrite filter_cons_True by done. rewrite filter_cons_True.
    + cbn [map]. f_equal. by apply IH.
    + unfold pairOf. cbn [fst]. intros Heq.
      pose proof (inv_listed c Hinv a Ha) as Hc. rewrite Heq in Hc.
      congruence.
Qed.

Lemma fresh_not_listed c : inv c → fresh (dom (nodes c)) ∉ lruList c.
Proof.
  intros Hinv Hin. apply (inv_alloc c Hinv) in Hin.
  apply elem_of_dom in Hin. by apply (is_fresh (dom (nodes c))).
Qed.

Lemma Put_found_step c key value e :
  inv c → cache c !! key = Some e →
  let c' := mkCache (cache c) (list_MoveToFront e (lruList c))
                    (<[e := mkEntry (Key (nodes c !!! e)) value]> (nodes c))
                    (capacity c) in
  inv c' ∧ view c' = (key, value) :: without key (view c).
Proof.
  intros Hinv Hk. cbv zeta.
  destruct (inv_index c Hinv key e Hk) as [He HKey].
  set (ns := <[e := mkEntry (Key (nodes c !!! e)) value]> (nodes c)).
  assert (∀ a, Key (ns !!! a) = Key (nodes c !!! a)) as Hkeys.
  { intros a. unfold ns. destruct (decide (a = e)) as [->|Hne].
    - by rewrite lookup_total_insert_eq.
    - by rewrite lookup_total_insert_ne. }
  split.
  - split; cbn [lruList cache capacity nodes].
    + rewrite list_MoveToFront_perm; apply Hinv.
    + intros k a Ha. rewrite Hkeys. rewrite list_MoveToFront_elem.
      by apply (inv_index c Hinv).
    + intros a Ha. rewrite Hkeys. apply list_MoveToFront_elem in Ha.
      by apply (inv_listed c Hinv).
    + intros a Ha. apply list_MoveToFront_elem in Ha. unfold ns.
      destruct (decide (a = e)) as [->|Hne].
      * rewrite lookup_insert_eq. by eexists.
      * rewrite lookup_insert_ne by done. by apply (inv_alloc c Hinv).
    + rewrite (list_MoveToFront_perm _ _ (inv_nodup c Hinv)). apply Hinv.
  - unfold view. cbn [lruList].
    rewrite list_MoveToFront_in by done. cbn [map]. f_equal.
    + unfold pairOf, ns. cbn [nodes]. rewrite lookup_total_insert_eq.
      cbn [Key Value]. by rewrite HKey.
    + rewrite <- (view_without c key e (lruList c) Hinv Hk) by done.
      apply view_insert_fresh. unfold list_Remove.
      rewrite list_elem_of_filter. intros [Hn _]. by apply Hn.
Qed.

Lemma Put_new_step c key value (cache' : gmap string addr) (l' : list addr) :
  inv c → cache c !! key = None →
  NoDup l' → l' ⊆ lruList c →
  1 + Z.of_nat (length l') <= capacity c →
  (∀ k e, cache' !! k = Some e → e ∈ l' ∧ cache c !! k = Some e) →
  (∀ e, e ∈ l' → cache' !! Key (nodes c !!! e) = Some e) →
  let element := fresh (dom (nodes c)) in
  let c' := mkCache (<[key := element]> cache') (list_PushFront element l')
                    (<[element := mkEntry key value]> (nodes c))
                    (capacity c) in
  inv c' ∧ view c' = (key, value) :: map (pairOf c) l'.
Proof.
  intros Hinv Hk Hnd Hsub Hcap Hidx Hlst. cbv zeta.
  pose proof (fresh_not_listed c Hinv) as Hfresh.
  set (element := fresh (dom (nodes c))) in *.
  set (ns := <[element := mkEntry key value]> (nodes c)).
  assert (element ∉ l') as Hfresh' by (intros Hin; by apply Hfresh, Hsub).
  assert (∀ a, a ∈ l' → ns !!! a = nodes c !!! a) as Hsame.
  { intros a Ha. unfold ns.
    rewrite lookup_total_insert_ne; [done|]. by intros ->. }
  assert (ns !!! element = mkEntry key value) as Hnew
    by (unfold ns; by rewrite lookup_total_insert_eq).
  split.
  - split; cbn [lruList cache capacity nodes]; unfold list_PushFront.
    + by apply NoDup_cons.
    + intros k a Ha. apply lookup_insert_Some in Ha as [[<- <-]|[Hne Ha]].
      * split; [left|]. by rewrite Hnew.
      * destruct (Hidx k a Ha) as [Hal Hc]. split; [by right|].
        rewrite (Hsame a Hal). by apply (inv_index c Hinv k a).
    + intros a Ha. apply elem_of_cons in Ha as [->|Ha].
      * rewrite Hnew. cbn [Key]. by rewrite lookup_insert_eq.
      * rewrite (Hsame a Ha). rewrite lookup_insert_ne; [by apply Hlst|].
        intros Heq. destruct (Hidx _ _ (Hlst a Ha)) as [_ Hc].
        rewrite <- Heq in Hc. congruence.
    + intros a Ha. unfold ns.
      apply elem_of_cons in Ha as [->|Ha].
      * rewrite lookup_insert_eq. by eexists.
      * rewrite lookup_insert_ne by (by intros ->).
        by apply (inv_alloc c Hinv), Hsub.
    + destruct (inv_cap c Hinv) as [Hc1 _]. cbn [length]. lia.
  - unfold view. cbn [lruList]. unfold list_PushFront.
    cbn [map]. f_equal.
    + unfold pairOf. cbn [nodes]. by rewrite Hnew.
    + by apply view_insert_fresh.
Qed.

Lemma Put_step c key value :
  inv c →
  ∃ c', Put c key value = Returns (None, c')
        ∧ inv c' ∧ capacity c' = capacity c
        ∧ view c' = lru_put (capacity c) (view c) key value.
Proof.
  intros Hinv. unfold Put, lru_put. rewrite (assoc_view c key Hinv).
  destruct (cache c !! key) as [e|] eqn:Hk; cbn [fmap option_fmap option_map].
  - eexists. split; [done|].
    destruct (Put_found_step c key value e Hinv Hk) as [Hinv' Hview].
    split; [exact Hinv'|]. split; [done | exact Hview].
  - assert (length (view c) = length (lruList c)) as Hlen
      by (unfold view; apply length_map).
    rewrite Hlen. unfold list_Len.
    destruct (Z.leb_spec (capacity c) (Z.of_nat (length (lruList c))))
      as [Hfull|Hroom].
    + destruct (inv_cap c Hinv) as [Hc1 Hc2].
      assert (lruList c ≠ []) as Hne.
      { intros Hnil. rewrite Hnil in Hfull. cbn [length] in Hfull. lia. }
      apply last_is_Some in Hne as [eb Hb].
      unfold list_Back. rewrite Hb. apply last_Some in Hb as [l' Hl].
      pose proof (inv_nodup c Hinv) as Hnd. rewrite Hl in Hnd.
      assert (list_Remove eb (lruList c) = l') as Hrem
        by (rewrite Hl; by apply list_Remove_last).
      rewrite Hrem.
      apply NoDup_app in Hnd as (Hnd' & Hdis & _).
      assert (eb ∉ l') as Heb by (intros Hin; apply (Hdis eb Hin); left).
      assert (eb ∈ lruList c) as Hebl
        by (rewrite Hl; apply elem_of_app; right; left).
      assert (l' ⊆ lruList c) as Hsub
        by (intros x Hx; rewrite Hl; apply elem_of_app; by left).
      eexists. split; [done|].
      destruct (Put_new_step c key value
                  (delete (Key (nodes c !!! eb)) (cache c)) l' Hinv Hk Hnd' Hsub)
        as [Hinv' Hview].
      * rewrite Hl, length_app in Hc2. cbn [length] in Hc2. lia.
      * intros k e He. apply lookup_delete_Some in He as [Hkne He].
        split; [|done]. destruct (inv_index c Hinv k e He) as [Hin HKey].
        rewrite Hl in Hin. apply elem_of_app in Hin as [Hin|Hin]; [done|].
        apply list_elem_of_singleton in Hin as ->. congruence.
      * intros e He. rewrite lookup_delete_ne.
        -- by apply (inv_listed c Hinv), Hsub.
        -- intros Heq. pose proof (inv_listed c Hinv e (Hsub e He)) as H1.
           pose proof (inv_listed c Hinv eb Hebl) as H2.
           rewrite <- Heq in H1. congruence.
      * split; [exact Hinv'|]. split; [done|]. rewrite Hview. f_equal.
        unfold view. rewrite Hl, map_app. cbn [map].
        by rewrite removelast_last.
    + eexists. split; [done|].
      destruct (Put_new_step c key value (cache c) (lruList c) Hinv Hk
                  (inv_nodup c Hinv)) as [Hinv' Hview].
      * done.
      * lia.
      * intros k e He. split; [|done]. by apply (inv_index c Hinv k e).
      * apply (inv_listed c Hinv).
      * split; [exact Hinv'|]. split; [done | exact Hview].
Qed.

Lemma Get_step c key :
  inv c →
  inv (snd (Get c key)) ∧ capacity (snd (Get c key)) = capacity c
  ∧ view (snd (Get c key)) = lru_get (view c) key
  ∧ fst (Get c key)
    = match assoc key (view c) with
      | Some v => (v, None)
      | None => ("", Some "key not found")
      end.
Proof.
  intros Hinv. unfold Get, lru_get. rewrite (assoc_view c key Hinv).
  destruct (cache c !! key) as [e|] eqn:Hk;
    cbn [fmap option_fmap option_map fst snd]; [|done].
  destruct (inv_index c Hinv key e Hk) as [He HKey].
  split; [|split; [done|split; [|done]]].
  - split; cbn [lruList cache capacity nodes].
    + rewrite list_MoveToFront_perm; apply Hinv.
    + intros k a Ha. rewrite list_MoveToFront_elem.
      by apply (inv_index c Hinv).
    + intros a Ha. apply list_MoveToFront_elem in Ha.
      by apply (inv_listed c Hinv).
    + intros a Ha. apply list_MoveToFront_elem in Ha.
      by apply (inv_alloc c Hinv).
    + rewrite (list_MoveToFront_perm _ _ (inv_nodup c Hinv)). apply Hinv.
  - unfold view at 1. cbn [lruList].
    rewrite list_MoveToFront_in by done. cbn [map]. f_equal.
    + unfold pairOf. cbn [nodes]. by rewrite HKey.
    + change (map (pairOf ?c0) ?l) with (map (pairOf c) l).
      by apply view_without.
Qed.

Lemma run_cache_snoc cap ops op :
  run cap (ops ++ [op]) = step (run cap ops) op.
Proof. unfold run. by rewrite foldl_snoc. Qed.

Lemma NewCache_inv cap : 1 <= cap → inv (NewCache cap).
Proof.
  intros Hcap. split; cbn [NewCache lruList cache capacity nodes].
  - apply NoDup_nil_2.
  - intros k e He. by rewrite lookup_empty in He.
  - intros e He. by apply elem_of_nil in He.
  - intros e He. by apply elem_of_nil in He.
  - cbn [length]. lia.
Qed.

Lemma run_inv cap ops :
  1 <= cap →
  ∃ c, run cap ops = Returns c ∧ inv c ∧ capacity c = cap
       ∧ view c = lru_run cap ops.
Proof.
  intros Hcap. induction ops as [|op ops IH] using rev_ind.
  - exists (NewCache cap). split; [done|]. split; [by apply NewCache_inv|].
    done.
  - destruct IH as (c & Hrun & Hinv & Hc & Hview).
    rewrite run_cache_snoc, Hrun. unfold lru_run. rewrite foldl_snoc.
    fold (lru_run cap ops). rewrite <- Hview.
    destruct op as [key value|key]; cbn [step lru_step].
    + destruct (Put_step c key value Hinv) as (c' & HP & Hinv' & Hc' & Hv').
      rewrite HP. exists c'. split; [done|]. split; [done|].
      split; [congruence|]. by rewrite Hv', Hc.
    + destruct (Get_step c key Hinv) as (Hinv' & Hc' & Hv' & _).
      eexists. split; [done|]. split; [done|]. split; [congruence|]. done.
Qed.

Lemma step_Panics ops : foldl step Panics ops = Panics.
Proof. induction ops as [|op ops IH]; [done|]. cbn [foldl step]. exact IH. Qed.

(** X14. With a capacity of at least one, [Put] never reaches the nil
    dereference: every sequence of calls on [NewCache(capacity)]
    returns; the list never holds more than [capacity] elements, holds
    none twice, and the index maps a key to an element exactly when the
    element is in the list and stores that key, so that the index has as
    many keys as the list has elements. *)
Theorem run_within_capacity (cap : Z) (ops : list Op) :
  1 <= cap →
  ∃ c, run cap ops = Returns c
       ∧ capacity c = cap
       ∧ list_Len (lruList c) <= cap
       ∧ NoDup (lruList c)
       ∧ (∀ k e, cache c !! k = Some e
                 ↔ e ∈ lruList c ∧ Key (nodes c !!! e) = k)
       ∧ size (cache c) = length (lruList c).
Proof.
  intros Hcap. destruct (run_inv cap ops Hcap) as (c & Hrun & Hinv & Hc & _).
  exists c. split; [done|]. split; [done|].
  split; [unfold list_Len; rewrite <- Hc; apply Hinv|].
  split; [apply Hinv|].
  assert (∀ k e, cache c !! k = Some e
                 ↔ e ∈ lruList c ∧ Key (nodes c !!! e) = k) as Hiff.
  { intros k e. split.
    - apply (inv_index c Hinv).
    - intros [He <-]. by apply (inv_listed c Hinv). }
  split; [exact Hiff|].
  rewrite <- length_map_to_list.
  rewrite <- (length_fmap (λ e, (Key (nodes c !!! e), e)) (lruList c)).
  apply Permutation_length, NoDup_Permutation.
  - apply NoDup_map_to_list.
  - apply NoDup_fmap_2_strong; [|apply Hinv].
    intros x y _ _ Heq. by injection Heq.
  - intros [k e]. rewrite elem_of_map_to_list, list_elem_of_fmap, Hiff.
    split.
    + intros [He HK]. exists e. by rewrite HK.
    + intros (e' & Heq & He'). injection Heq as -> ->. done.
Qed.

Lemma run_within_capacity_witness :
  ∃ c, run 2 [OpPut "a" "1"; OpPut "b" "2"; OpPut "c" "3"] = Returns c
       ∧ capacity c = 2
       ∧ list_Len (lruList c) <= 2
       ∧ NoDup (lruList c)
       ∧ (∀ k e, cache c !! k = Some e
                 ↔ e ∈ lruList c ∧ Key (nodes c !!! e) = k)
       ∧ size (cache c) = length (lruList c).
Proof. apply (run_within_capacity 2); lia. Defined.

(** X15. With a capacity of zero or less, the first [Put] panics: the list
    is empty, [Len() >= capacity] holds, [Back()] is nil and
    [lruEntry.Value] dereferences it. Every sequence of calls with a
    [Put] in it panics; one of [Get]s alone leaves the new cache. *)
Theorem Put_panics_without_capacity (cap : Z) (ops : list Op) :
  cap <= 0 →
  run cap ops
  = if existsb isPut ops then Panics else Returns (NewCache cap).
Proof.
  intros Hcap. unfold run.
  induction ops as [|op ops IH]; [done|].
  cbn [foldl existsb]. destruct op as [key value|key]; cbn [step isPut orb].
  - unfold Put, list_Len, list_Back. cbn [NewCache cache lruList capacity].
    rewrite lookup_empty. cbn [length list.last].
    destruct (Z.leb_spec cap (Z.of_nat 0)) as [_|Hlt]; [|lia].
    apply step_Panics.
  - unfold Get at 1. cbn [NewCache cache]. rewrite lookup_empty.
    cbn [snd]. by apply IH.
Qed.

Lemma Put_panics_without_capacity_witness :
  run 0 [OpGet "a"; OpPut "a" "1"]
  = if existsb isPut [OpGet "a"; OpPut "a" "1"]
    then Panics else Returns (NewCache 0).
Proof. apply (Put_panics_without_capacity 0); lia. Defined.

(** X16. The calls on the map and the list amount to a least recently used
    list of pairs: after any sequence of calls on a cache of capacity at
    least one, the entries from the front of the list to its back are
    the pairs [lru_run] gives (a write or a successful read moves the key
    to the front, a write of a new key to a full list drops the last
    pair), and [Get] returns the value that list pairs with the key and
    no error, or the empty string and "key not found". *)
Theorem run_refines_lru (cap : Z) (ops : list Op) :
  1 <= cap →
  ∃ c, run cap ops = Returns c
       ∧ view c = lru_run cap ops
       ∧ ∀ key,
           fst (Get c key)
           = match assoc key (lru_run cap ops) with
             | Some v => (v, None)
             | None => ("", Some "key not found")
             end.
Proof.
  intros Hcap.
  destruct (run_inv cap ops Hcap) as (c & Hrun & Hinv & Hc & Hview).
  exists c. split; [done|]. split; [done|]. intros key.
  rewrite <- Hview. by apply (Get_step c key Hinv).
Qed.

Lemma run_refines_lru_witness :
  ∃ c, run 2 [OpPut "a" "1"; OpPut "b" "2"; OpGet "a"; OpPut "c" "3"]
       = Returns c
       ∧ view c
         = lru_run 2 [OpPut "a" "1"; OpPut "b" "2"; OpGet "a"; OpPut "c" "3"]
       ∧ ∀ key,
           fst (Get c key)
           = match assoc key
                     (lru_run 2 [OpPut "a" "1"; OpPut "b" "2"; OpGet "a";
                                 OpPut "c" "3"]) with
             | Some v => (v, None)
             | None => ("", Some "key not found")
             end.
Proof. apply (run_refines_lru 2); lia. Defined.

(** With capacity 2: after Put a, Put b, Get a, Put c the list is
    c, a and b is gone. *)
Example lru_run_demo :
  lru_run 2 [OpPut "a" "1"; OpPut "b" "2"; OpGet "a"; OpPut "c" "3"]
  = [("c", "3"); ("a", "1")].
Proof. reflexivity. Qed.

Lemma Get_fst c k :
  fst (Get c k)
  = match cache c !! k with
    | Some e => (Value (nodes c !!! e), None)
    | None => ("", Some "key not found")
    end.
Proof. unfold Get. by destruct (cache c !! k). Qed.

Lemma Put_effect_inv c key value :
  inv c →
  ∃ c', Put c key value = Returns (None, c')
        ∧ ∀ k, fst (Get c' k)
               = if decide (k = key) then (value, None)
                 else if decide (evictedBy c key = Some k)
                      then ("", Some "key not found")
                      else fst (Get c k).
Proof.
  intros Hinv. unfold Put, evictedBy.
  pose proof (fresh_not_listed c Hinv) as Hfresh.
  destruct (cache c !! key) as [e|] eqn:Hk.
  - eexists. split; [done|]. intros k. rewrite !Get_fst.
    cbn [cache nodes]. destruct (decide (k = key)) as [->|Hne].
    + rewrite Hk. by rewrite lookup_total_insert_eq.
    + rewrite decide_False by done.
      destruct (cache c !! k) as [e'|] eqn:Hk'; [|done].
      rewrite lookup_total_insert_ne; [done|]. intros ->.
      destruct (inv_index c Hinv _ _ Hk) as [_ H1].
      destruct (inv_index c Hinv _ _ Hk') as [_ H2]. congruence.
  - assert (∀ k e', cache c !! k = Some e' →
              <[fresh (dom (nodes c)) := mkEntry key value]> (nodes c) !!! e'
              = nodes c !!! e') as Hold.
    { intros k e' Hk'. rewrite lookup_total_insert_ne; [done|].
      intros <-. by apply Hfresh, (inv_index c Hinv k). }
    destruct (capacity c <=? list_Len (lruList c)) eqn:Hfull.
    + destruct (inv_cap c Hinv) as [Hc1 Hc2].
      apply Z.leb_le in Hfull. unfold list_Len in Hfull.
      assert (lruList c ≠ []) as Hne.
      { intros Hnil. rewrite Hnil in Hfull. cbn [length] in Hfull. lia. }
      apply last_is_Some in Hne as [eb Hb].
      unfold list_Back. rewrite Hb. cbn [fmap option_fmap option_map].
      eexists. split; [done|]. intros k. rewrite !Get_fst.
      cbn [cache nodes]. destruct (decide (k = key)) as [->|Hne].
      * by rewrite lookup_insert_eq, lookup_total_insert_eq.
      * rewrite lookup_insert_ne by done.
        destruct (decide (Some (Key (nodes c !!! eb)) = Some k)) as [Hev|Hev].
        -- injection Hev as <-. by rewrite lookup_delete_eq.
        -- rewrite lookup_delete_ne by congruence.
           destruct (cache c !! k) as [e'|] eqn:Hk'; [|done].
           by rewrite (Hold k e' Hk').
    + eexists. split; [done|]. intros k. rewrite !Get_fst.
      cbn [cache nodes]. destruct (decide (k = key)) as [->|Hne].
      * by rewrite lookup_insert_eq, lookup_total_insert_eq.
      * rewrite lookup_insert_ne by done. rewrite decide_False by done.
        destruct (cache c !! k) as [e'|] eqn:Hk'; [|done].
        by rewrite (Hold k e' Hk').
Qed.

(** X17. What a [Put] changes for readers, in any cache reached with a
    capacity of at least one: it returns a nil error; afterwards [Get]
    of the key written returns the value written, [Get] of the key the
    call evicted (the key stored at the back of the list, when the key
    written was new and the list was full) fails, and [Get] of any other
    key returns what it returned before. *)
Theorem Put_effect (cap : Z) (ops : list Op) (key value : string) :
  1 <= cap →
  ∃ c c', run cap ops = Returns c
          ∧ Put c key value = Returns (None, c')
          ∧ ∀ k, fst (Get c' k)
                 = if decide (k = key) then (value, None)
                   else if decide (evictedBy c key = Some k)
                        then ("", Some "key not found")
                        else fst (Get c k).
Proof.
  intros Hcap. destruct (run_inv cap ops Hcap) as (c & Hrun & Hinv & _).
  destruct (Put_effect_inv c key value Hinv) as (c' & HP & HG).
  by exists c, c'.
Qed.

Lemma Put_effect_witness :
  ∃ c c', run 1 [OpPut "a" "1"] = Returns c
          ∧ Put c "b" "2" = Returns (None, c')
          ∧ ∀ k, fst (Get c' k)
                 = if decide (k = "b") then ("2", None)
                   else if decide (evictedBy c "b" = Some k)
                        then ("", Some "key not found")
                        else fst (Get c k).
Proof. apply (Put_effect 1); lia. Defined.





End SimpleCache.
